(** * The XPlugin installer of x-components, embedded in Rocq

    The development follows [src/plugins/x-plugin.ts]: the static registry of
    the [XPlugin] class, the [install] procedure, the per-module registration
    ([registerStoreModule], [registerWiring], [registerStoreEmitters]) and the
    configuration updates.  JavaScript values are an inductive type, objects
    with an identity live in stores indexed by references, exceptions are an
    outcome of every computation, and the calls made to the collaborators of
    the plugin (Vue, Vuex, the bus, the adapter, the wires) are recorded in a
    trace. *)

From Stdlib Require Import Ascii.
From stdpp Require Import gmap strings list fin_maps pretty.

Open Scope string_scope.
Open Scope list_scope.
Set Warnings "-register-all,-clear-no-such-hyp".

(** ** JavaScript values *)

Module JS.

(** Plain data as the plugin sees it: module states, configurations and event
    payloads.  An array is an object whose [is_array] flag is set, its
    elements being the fields named by their index. *)
Inductive value : Type :=
| VUndefined
| VNull
| VBool (b : bool)
| VNum (n : Z)
| VStr (s : string)
| VFun (id : string)
| VObj (is_array : bool) (fields : list (string * value)).

Inductive jstype := TyUndefined | TyObject | TyBoolean | TyNumber | TyString | TyFunction.

Global Instance jstype_eq_dec : EqDecision jstype.
Proof. solve_decision. Defined.

Definition typeof (v : value) : jstype :=
  match v with
  | VUndefined => TyUndefined
  | VNull => TyObject
  | VBool _ => TyBoolean
  | VNum _ => TyNumber
  | VStr _ => TyString
  | VFun _ => TyFunction
  | VObj _ _ => TyObject
  end.

(** [Boolean(value)], which is also what [!!value] and [if (value)] compute. *)
Definition Boolean (v : value) : bool :=
  match v with
  | VUndefined | VNull => false
  | VBool b => b
  | VNum n => negb (n =? 0)%Z
  | VStr s => negb (String.eqb s "")
  | VFun _ | VObj _ _ => true
  end.

Definition isArray (v : value) : bool :=
  match v with VObj true _ => true | _ => false end.

(** [isFunction] and [isObject] of the utilities. *)
Definition isFunction (v : value) : bool :=
  Boolean v && bool_decide (typeof v = TyFunction).

Definition isObject (v : value) : bool :=
  Boolean v && bool_decide (typeof v = TyObject) && negb (isArray v).

(** Dictionaries are the lists of their entries, in the order in which
    JavaScript enumerates them. *)
Fixpoint get_field {A} (k : string) (fs : list (string * A)) : option A :=
  match fs with
  | [] => None
  | (k', v) :: rest => if decide (k' = k) then Some v else get_field k rest
  end.

(** The place of a character in a string, counted from [i]. *)
Fixpoint place_of (c : ascii) (s : string) (i : N) : option N :=
  match s with
  | EmptyString => None
  | String c' s' => if Ascii.eqb c c' then Some i else place_of c s' (i + 1)%N
  end.

(** The number a string of decimal digits spells. *)
Definition digit (c : ascii) : option N := place_of c "0123456789" 0.

Fixpoint digits_value (s : string) (acc : N) : option N :=
  match s with
  | EmptyString => Some acc
  | String c s' =>
      match digit c with
      | Some d => digits_value s' (10 * acc + d)%N
      | None => None
      end
  end.

(** An array index is a key that is the canonical spelling of a number below
    2^32 - 1: decimal digits, the first of which is no zero unless it is the
    only one. *)
Definition array_index (k : string) : option N :=
  match k with
  | EmptyString => None
  | String c rest =>
      match digit c with
      | None => None
      | Some 0%N => if String.eqb rest "" then Some 0%N else None
      | Some _ =>
          match digits_value k 0 with
          | Some n => if (4294967295 <=? n)%N then None else Some n
          | None => None
          end
      end
  end.

(** The enumeration has the array indices first, in ascending order, and then
    the other keys in the order in which they were created: whether a new
    key [k] comes before the key [k'] that is there. *)
Definition enumerated_before (k k' : string) : bool :=
  match array_index k, array_index k' with
  | Some n, Some n' => (n <? n')%N
  | Some _, None => true
  | None, _ => false
  end.

Fixpoint replace_field {A} (k : string) (v : A) (fs : list (string * A))
  : list (string * A) :=
  match fs with
  | [] => []
  | (k', v') :: rest =>
      if decide (k' = k) then (k, v) :: rest else (k', v') :: replace_field k v rest
  end.

Fixpoint add_field {A} (k : string) (v : A) (fs : list (string * A))
  : list (string * A) :=
  match fs with
  | [] => [(k, v)]
  | (k', v') :: rest =>
      if enumerated_before k k' then (k, v) :: fs else (k', v') :: add_field k v rest
  end.

(** [fs[k] = v]: a key that is there keeps its place, a new key takes the
    place the enumeration gives it. *)
Definition set_field {A} (k : string) (v : A) (fs : list (string * A)) : list (string * A) :=
  match get_field k fs with
  | Some _ => replace_field k v fs
  | None => add_field k v fs
  end.

Definition keys {A} (fs : list (string * A)) : list string := fs.*1.

Definition has_key {A} (k : string) (fs : list (string * A)) : bool :=
  bool_decide (k ∈ keys fs).

(** The value found by following the field names of [p] from [v] through
    nested plain objects; an array is a leaf. *)
Fixpoint get_path (v : value) (p : list string) : option value :=
  match p with
  | [] => Some v
  | k :: p' =>
      match v with
      | VObj false fs =>
          match get_field k fs with
          | Some v' => get_path v' p'
          | None => None
          end
      | _ => None
      end
  end.

(** An object has one value per key, at every depth. *)
Fixpoint wf (v : value) : Prop :=
  match v with
  | VObj _ fs =>
      NoDup (keys fs) ∧
      (fix all_wf (fs : list (string * value)) : Prop :=
         match fs with
         | [] => True
         | (_, v') :: rest => wf v' ∧ all_wf rest
         end) fs
  | _ => True
  end.

(** The own enumerable properties [Object.assign] copies from a source. *)
Fixpoint string_props (i : nat) (s : string) : list (string * value) :=
  match s with
  | EmptyString => []
  | String c s' => (pretty i, VStr (String c EmptyString)) :: string_props (S i) s'
  end.

Definition own_props (v : value) : list (string * value) :=
  match v with
  | VObj _ fs => fs
  | VStr s => string_props 0 s
  | _ => []
  end.

(** One write of [Object.assign] to an object.  A key [__proto__] that the
    object does not have as a property of its own goes to the setter of
    [Object.prototype] and makes no property; the change of prototype itself
    is not followed. *)
Definition assign_field (tfs : list (string * value)) (kv : string * value)
  : list (string * value) :=
  if String.eqb kv.1 "__proto__" && negb (has_key kv.1 tfs) then tfs
  else set_field kv.1 kv.2 tfs.

Definition assign_fields (tfs sfs : list (string * value)) : list (string * value) :=
  foldl assign_field tfs sfs.

End JS.
Export JS.

(** ** Deep merge *)

Module DeepMerge.

(** How the fields of a source are merged into the fields of a target, given
    the way one field is merged. *)
Definition merge_fields_with (merge : option value -> value -> value) :=
  fix go (tfs sfs : list (string * value)) {struct sfs} : list (string * value) :=
    match sfs with
    | [] => tfs
    | (k, v) :: rest => go (set_field k (merge (get_field k tfs) v) tfs) rest
    end.

(** Modelled from the spec: [deepMerge] of the package
    [@empathybroker/deep-merge] is not in the sources.  The spec has the
    source take precedence on conflicting keys and be deep-merged otherwise,
    with array-type leaves replaced rather than concatenated: a plain object
    of the source is merged field by field into the object found in the
    target (or into a new object), anything else replaces what the target
    holds. *)
Fixpoint merge_value (target : option value) (source : value) {struct source} : value :=
  match source with
  | VObj false sfs =>
      let tfs := match target with
                 | Some (VObj false tfs) => tfs
                 | _ => []
                 end in
      VObj false (merge_fields_with merge_value tfs sfs)
  | _ => source
  end.

Definition merge_fields := merge_fields_with merge_value.

(** [deepMerge(target, source)]: a source that is not a plain object (an
    absent option, say) leaves the target as it is. *)
Definition deepMerge (target source : value) : value :=
  if isObject source then merge_value (Some target) source else target.

(** The paths an update speaks of: those it gives a value to, and those
    below a field it replaces as a whole. *)
Fixpoint mentioned (update : value) (p : list string) : bool :=
  match p with
  | [] => true
  | k :: p' =>
      match update with
      | VObj false sfs =>
          match get_field k sfs with
          | None => false
          | Some v => if isObject v then mentioned v p' else true
          end
      | _ => false
      end
  end.

End DeepMerge.
Export DeepMerge.

(** ** Exceptions and outcomes *)

Inductive Error : Type :=
| AlreadyInstalled          (* Error('XPlugin has already been installed') *)
| MustBeInstalled           (* Error("XPlugin must be installed before accessing it's API.") *)
| InvalidOptions            (* thrown by assertXPluginOptionsAreValid *)
| TypeError                 (* a property read or a call on undefined or null,
                               a write to a read-only property *)
| RangeError                (* an array given a length that is none *)
| HostError (msg : string). (* thrown by a collaborator of the plugin *)

Inductive outcome (A : Type) : Type :=
| Ret (a : A)
| Throw (e : Error).
Arguments Ret {A} a.
Arguments Throw {A} e.

(** [v[k]] for a key that no built-in prototype defines. *)
Definition get_prop (v : value) (k : string) : outcome value :=
  match v with
  | VUndefined | VNull => Throw TypeError
  | VObj _ fs => Ret (default VUndefined (get_field k fs))
  | _ => Ret VUndefined
  end.

(** The properties [Object.assign] cannot write: the characters and the
    length of a string, the name and the length of a function. *)
Definition read_only (target : value) (k : string) : bool :=
  match target with
  | VStr s =>
      String.eqb k "length" ||
      match array_index k with
      | Some i => (i <? N.of_nat (String.length s))%N
      | None => false
      end
  | VFun _ => String.eqb k "length" || String.eqb k "name"
  | _ => false
  end.

(** The length a value gives to an array, if it is one: a number from 0 to
    2^32 - 1, a boolean or [null] taken as a number, a string of decimal
    digits. *)
Definition array_length (v : value) : option N :=
  match v with
  | VNum n => if ((0 <=? n) && negb (4294967296 <=? n))%Z then Some (Z.to_N n) else None
  | VBool b => Some (if b then 1 else 0)%N
  | VNull => Some 0%N
  | VStr s =>
      match digits_value s 0 with
      | Some n => if (4294967296 <=? n)%N then None else Some n
      | None => None
      end
  | _ => None
  end.

(** One write of [Object.assign] to an array: a [length] that is none throws
    a RangeError, one that is removes the elements from that index on. *)
Definition assign_element (acc : outcome (list (string * value))) (kv : string * value)
  : outcome (list (string * value)) :=
  match acc with
  | Throw e => Throw e
  | Ret tfs =>
      if String.eqb kv.1 "length" then
        match array_length kv.2 with
        | Some n =>
            Ret (List.filter
                   (fun f => match array_index f.1 with
                             | Some i => (i <? n)%N
                             | None => true
                             end) tfs)
        | None => Throw RangeError
        end
      else Ret (assign_field tfs kv)
  end.

(** [Object.assign(target, source)], giving the target after the call.  The
    properties copied onto a primitive target land on a temporary wrapper.
    Not followed: the properties a function receives, what a call has
    written before it throws, and a length given to an array as an object or
    as a string in another spelling than decimal digits. *)
Definition object_assign (target source : value) : outcome value :=
  match target with
  | VUndefined | VNull => Throw TypeError
  | VObj false tfs => Ret (VObj false (assign_fields tfs (own_props source)))
  | VObj true tfs =>
      match foldl assign_element (Ret tfs) (own_props source) with
      | Ret tfs' => Ret (VObj true tfs')
      | Throw e => Throw e
      end
  | VStr _ | VFun _ =>
      if existsb (fun kv => read_only target kv.1) (own_props source)
      then Throw TypeError else Ret target
  | VBool _ | VNum _ => Ret target
  end.

(** ** Module descriptors, options and plugin instances *)

(** References to the objects that have an identity: instances of the
    plugin, store module descriptors, configuration objects, stores. *)
Definition loc := nat.

(** A mutation receives the module state and a payload and leaves the state
    it returns; a getter reads the module state; a selector reads the module
    state and the getters.  Actions, wires and filters are functions the
    plugin hands over without calling them, or calls for their effect on the
    collaborators only: they are known by their name. *)
Definition Mutation := value -> value -> outcome value.
Definition Getter := value -> value.
Definition Selector := value -> value -> value.
Definition Action := string.
Definition Wire := string.
Definition Filter := string.

(** [state: S | (() => S)] *)

Inductive StateDecl : Type :=
| StateFn (f : unit -> value)
| StateObj (v : value).

Record StoreModule := {
  sm_state : StateDecl;
  sm_getters : list (string * Getter);
  sm_mutations : option (list (string * Mutation));
  sm_actions : list (string * Action);
  sm_namespaced : option bool
}.

Definition set_namespaced (b : bool) (sm : StoreModule) : StoreModule :=
  {| sm_state := sm_state sm; sm_getters := sm_getters sm;
     sm_mutations := sm_mutations sm; sm_actions := sm_actions sm;
     sm_namespaced := Some b |}.

Definition set_mutations (ms : list (string * Mutation)) (sm : StoreModule) : StoreModule :=
  {| sm_state := sm_state sm; sm_getters := sm_getters sm;
     sm_mutations := Some ms; sm_actions := sm_actions sm;
     sm_namespaced := sm_namespaced sm |}.

Record StoreModuleOptions := {
  so_state : option value;
  so_getters : list (string * Getter);
  so_mutations : list (string * Mutation);
  so_actions : list (string * Action)
}.

(** A store emitter is a bare selector or [{ selector, immediate?,
    isDifferent?, ...options }]. *)
Record StateSelector := {
  selector : Selector;
  immediate : option bool;
  isDifferent : option (value -> value -> bool);
  watch_options : list (string * value)
}.

Inductive AnySelector : Type :=
| SimpleSelector (f : Selector)
| ComplexSelector (s : StateSelector).

Definition StoreEmitters := list (string * AnySelector).
Definition Wiring := list (string * list (string * Wire)).

(** The descriptor of a feature module; its store module is an object shared
    with the feature package. *)
Record XModule := {
  name : string;
  wiring : Wiring;
  storeModule : loc;
  storeEmitters : StoreEmitters
}.

Record XModuleOptions := {
  xo_wiring : option Wiring;
  xo_storeModule : option StoreModuleOptions;
  xo_storeEmitters : option StoreEmitters
}.

(** An adapter, and whether it has the optional [addConfigChangedListener]. *)
Record Adapter := {
  adapter_id : nat;
  addConfigChangedListener : bool
}.

Record XPluginOptions := {
  o_adapter : option Adapter;
  o_store : option loc;
  o_config : option value;
  o_xModules : option (list (string * XModuleOptions))
}.

(** The fields of an instance of the class. *)
Record XPlugin := {
  p_bus : nat;
  p_adapter : option Adapter;
  p_installedXModules : gset string;
  p_isInstalled : bool;
  p_options : option XPluginOptions;
  p_store : option loc;
  p_vue : option nat;
  p_xConfig : option loc
}.

(** [new XPlugin(bus)] *)
Definition XPlugin_new (bus : nat) : XPlugin :=
  {| p_bus := bus; p_adapter := None; p_installedXModules := ∅;
     p_isInstalled := false; p_options := None; p_store := None;
     p_vue := None; p_xConfig := None |}.

Definition set_installedXModules (s : gset string) (self : XPlugin) : XPlugin :=
  {| p_bus := p_bus self; p_adapter := p_adapter self; p_installedXModules := s;
     p_isInstalled := p_isInstalled self; p_options := p_options self;
     p_store := p_store self; p_vue := p_vue self; p_xConfig := p_xConfig self |}.

Definition set_isInstalled (b : bool) (self : XPlugin) : XPlugin :=
  {| p_bus := p_bus self; p_adapter := p_adapter self;
     p_installedXModules := p_installedXModules self;
     p_isInstalled := b; p_options := p_options self;
     p_store := p_store self; p_vue := p_vue self; p_xConfig := p_xConfig self |}.

Definition set_store (s : loc) (self : XPlugin) : XPlugin :=
  {| p_bus := p_bus self; p_adapter := p_adapter self;
     p_installedXModules := p_installedXModules self;
     p_isInstalled := p_isInstalled self; p_options := p_options self;
     p_store := Some s; p_vue := p_vue self; p_xConfig := p_xConfig self |}.

Definition set_xConfig (c : loc) (self : XPlugin) : XPlugin :=
  {| p_bus := p_bus self; p_adapter := p_adapter self;
     p_installedXModules := p_installedXModules self;
     p_isInstalled := p_isInstalled self; p_options := p_options self;
     p_store := p_store self; p_vue := p_vue self; p_xConfig := Some c |}.

(** The three assignments [this.vue = vue], [this.options = options] and
    [this.adapter = options.adapter] of [install]. *)
Definition set_install_arguments (vue : nat) (options : XPluginOptions) (self : XPlugin)
  : XPlugin :=
  {| p_bus := p_bus self; p_adapter := o_adapter options;
     p_installedXModules := p_installedXModules self;
     p_isInstalled := p_isInstalled self; p_options := Some options;
     p_store := p_store self; p_vue := Some vue; p_xConfig := p_xConfig self |}.

(** ** The collaborators and the world *)

Record Metadata := { moduleName : string }.

(** What [store.watch] receives for one store emitter. *)
Record Watcher := {
  w_plugin : loc;
  w_module : string;
  w_event : string;
  w_selector : Selector;
  w_getters : value -> value;
  w_isDifferent : value -> value -> bool;
  w_options : list (string * value)
}.

(** The callback handed to [Promise.resolve().then] for an immediate emitter. *)
Record Task := {
  t_plugin : loc;
  t_module : string;
  t_event : string;
  t_selector : Selector;
  t_getters : value -> value
}.

(** The calls the plugin makes to its collaborators. *)
Inductive Effect : Type :=
| EVueUse (vue : nat)
| ENewStore (store : loc)
| EInjectStore (vue : nat) (store : loc)
| ERegisterModule (store : loc) (path : list string) (m : StoreModule)
| EMixin (vue : nat) (bus : nat) (config : option loc)
| EFilter (vue : nat) (filter_name : string) (f : Filter)
| EBusOn (bus : nat) (event : string) (with_metadata : bool)
| EWire (module event key : string) (wire : Wire) (store : option loc)
| EWatch (store : loc) (w : Watcher)
| EEmit (bus : nat) (event : string) (payload : value) (metadata : option Metadata)
| EConfigListener (adapter : nat)
| EReactiveConfig (bus : nat) (config : loc).

Record World := {
  instance : option loc;                       (* XPlugin.instance *)
  pendingXModules : list (string * XModule);   (* XPlugin.pendingXModules *)
  plugins : gmap loc XPlugin;                  (* the instances of the class *)
  objects : gmap loc value;                    (* configuration objects *)
  modules : gmap loc StoreModule;              (* store module descriptors *)
  stores : gmap loc value;                     (* the state of each store *)
  microtasks : list Task;                      (* the pending promise jobs *)
  trace : list Effect;                         (* calls made so far *)
  next : loc                                   (* next reference to hand out *)
}.

Definition initial_world : World :=
  {| instance := None; pendingXModules := []; plugins := ∅; objects := ∅;
     modules := ∅; stores := ∅; microtasks := []; trace := []; next := 0 |}.

(** The instance behind a reference; one that no call has written to yet is
    as its constructor left it. *)
Definition plugin_at (w : World) (p : loc) : XPlugin :=
  default (XPlugin_new 0) (plugins w !! p).

(** [store.state]; a store handed over by the application starts empty. *)
Definition store_state (w : World) (s : loc) : value :=
  default (VObj false []) (stores w !! s).

Definition with_instance (i : option loc) (w : World) : World :=
  {| instance := i; pendingXModules := pendingXModules w; plugins := plugins w;
     objects := objects w; modules := modules w; stores := stores w;
     microtasks := microtasks w; trace := trace w; next := next w |}.

Definition with_pending (q : list (string * XModule)) (w : World) : World :=
  {| instance := instance w; pendingXModules := q; plugins := plugins w;
     objects := objects w; modules := modules w; stores := stores w;
     microtasks := microtasks w; trace := trace w; next := next w |}.

Definition with_plugins (ps : gmap loc XPlugin) (w : World) : World :=
  {| instance := instance w; pendingXModules := pendingXModules w; plugins := ps;
     objects := objects w; modules := modules w; stores := stores w;
     microtasks := microtasks w; trace := trace w; next := next w |}.

Definition with_objects (os : gmap loc value) (w : World) : World :=
  {| instance := instance w; pendingXModules := pendingXModules w; plugins := plugins w;
     objects := os; modules := modules w; stores := stores w;
     microtasks := microtasks w; trace := trace w; next := next w |}.

Definition with_modules (ms : gmap loc StoreModule) (w : World) : World :=
  {| instance := instance w; pendingXModules := pendingXModules w; plugins := plugins w;
     objects := objects w; modules := ms; stores := stores w;
     microtasks := microtasks w; trace := trace w; next := next w |}.

Definition with_stores (ss : gmap loc value) (w : World) : World :=
  {| instance := instance w; pendingXModules := pendingXModules w; plugins := plugins w;
     objects := objects w; modules := modules w; stores := ss;
     microtasks := microtasks w; trace := trace w; next := next w |}.

Definition with_microtasks (ts : list Task) (w : World) : World :=
  {| instance := instance w; pendingXModules := pendingXModules w; plugins := plugins w;
     objects := objects w; modules := modules w; stores := stores w;
     microtasks := ts; trace := trace w; next := next w |}.

Definition with_trace (t : list Effect) (w : World) : World :=
  {| instance := instance w; pendingXModules := pendingXModules w; plugins := plugins w;
     objects := objects w; modules := modules w; stores := stores w;
     microtasks := microtasks w; trace := t; next := next w |}.

Definition with_next (n : loc) (w : World) : World :=
  {| instance := instance w; pendingXModules := pendingXModules w; plugins := plugins w;
     objects := objects w; modules := modules w; stores := stores w;
     microtasks := microtasks w; trace := trace w; next := n |}.

(** ** Computations: a world threaded through, an outcome returned *)

Definition M (A : Type) : Type := World -> World * outcome A.

Definition ret {A} (a : A) : M A := fun w => (w, Ret a).
Definition throw {A} (e : Error) : M A := fun w => (w, Throw e).
Definition bind {A B} (m : M A) (k : A -> M B) : M B :=
  fun w => match m w with
           | (w', Ret a) => k a w'
           | (w', Throw e) => (w', Throw e)
           end.
Definition lift {A} (o : outcome A) : M A := fun w => (w, o).
Definition gets {A} (f : World -> A) : M A := fun w => (w, Ret (f w)).
Definition modify (f : World -> World) : M unit := fun w => (f w, Ret tt).

Notation "'let!' x ':=' m 'in' k" := (bind m (fun x => k))
  (at level 10, x name, m at level 100, k at level 200).
Notation "'do!' m 'in' k" := (bind m (fun _ => k))
  (at level 10, m at level 100, k at level 200).

(** The use of a member of something that may still be undefined: a
    TypeError when it is. *)
Definition defined {A} (o : option A) : M A :=
  match o with Some a => ret a | None => throw TypeError end.

Definition this_ (this : loc) : M XPlugin := gets (fun w => plugin_at w this).

Definition update_this (this : loc) (f : XPlugin -> XPlugin) : M unit :=
  modify (fun w => with_plugins (<[this := f (plugin_at w this)]> (plugins w)) w).

Definition fresh_loc : M loc :=
  fun w => (with_next (S (next w)) w, Ret (next w)).

(** Modelled from the spec: [forEach] of the utilities is not in the sources.
    It visits the entries of a dictionary in order, one call of the callback
    per entry. *)
Fixpoint forEach {K V} (obj : list (K * V)) (callbackFn : K -> V -> M unit) : M unit :=
  match obj with
  | [] => ret tt
  | (k, v) :: rest => do! callbackFn k v in forEach rest callbackFn
  end.

(** ** Merging the overrides of a module *)

(** Modelled from the spec: the three calls [deepMerge({}, defaults,
    overrides)] of the per-module registration go to the package that is not
    in the sources.  Overrides take precedence on conflicting keys and are
    deep-merged otherwise; a function is a leaf. *)
Definition merge_dict {A} (defaults overrides : list (string * A)) : list (string * A) :=
  foldl (fun acc kv => set_field kv.1 kv.2 acc) defaults overrides.

Definition merge_wiring (defaults overrides : Wiring) : Wiring :=
  foldl (fun acc ew =>
           set_field ew.1 (merge_dict (default [] (get_field ew.1 acc)) ew.2) acc)
        defaults overrides.

Definition merge_selector (d : option AnySelector) (o : AnySelector) : AnySelector :=
  match d, o with
  | Some (ComplexSelector ds), ComplexSelector os =>
      ComplexSelector
        {| selector := selector os;
           immediate := match immediate os with Some b => Some b | None => immediate ds end;
           isDifferent := match isDifferent os with Some f => Some f | None => isDifferent ds end;
           watch_options := merge_dict (watch_options ds) (watch_options os) |}
  | _, _ => o
  end.

Definition merge_emitters (defaults overrides : StoreEmitters) : StoreEmitters :=
  foldl (fun acc es => set_field es.1 (merge_selector (get_field es.1 acc) es.2) acc)
        defaults overrides.

(** ** What the plugin is linked against *)

(** The constants of the sibling files that are not in the sources, the view
    of the getters of a module that [getGettersProxyFromModule] (not in the
    sources either) gives for a state of the store, and the behaviour of the
    collaborators: [fault t e] tells whether the call [e], made after the
    calls [t], throws. *)
Record Host := {
  DEFAULT_X_CONFIG : value;
  FILTERS_REGISTRY : list (string * Filter);
  RootXStoreModule : StoreModule;
  getGettersProxyFromModule : string -> StoreModule -> value -> value;
  fault : list Effect -> Effect -> option string
}.

Section XPluginClass.

Context (host : Host).

(** A call to a collaborator: recorded, then it returns or throws. *)
Definition call (e : Effect) : M unit :=
  fun w =>
    let w' := with_trace (trace w ++ [e]) w in
    match fault host (trace w) e with
    | Some msg => (w', Throw (HostError msg))
    | None => (w', Ret tt)
    end.

(** *** Static members *)

(** [XPlugin.getInstance()] *)
Definition getInstance : M loc :=
  fun w => match instance w with
           | None => (w, Throw MustBeInstalled)
           | Some this => (w, Ret this)
           end.

(** The static getters [XPlugin.adapter], [XPlugin.bus] and [XPlugin.config]. *)
Definition get_adapter : M (option Adapter) :=
  let! i := getInstance in
  let! self := this_ i in
  ret (p_adapter self).

Definition get_bus : M nat :=
  let! i := getInstance in
  let! self := this_ i in
  ret (p_bus self).

Definition get_config : M (option loc) :=
  let! i := getInstance in
  let! self := this_ i in
  ret (p_xConfig self).

(** [XPlugin.resetInstance()] *)
Definition resetInstance : M unit :=
  modify (with_instance None).

(** [XPlugin.pendingXModules[xModule.name] = xModule] *)
Definition lazyRegisterXModule (xModule : XModule) : M unit :=
  modify (fun w => with_pending (set_field (name xModule) xModule (pendingXModules w)) w).

(** *** Store modules *)

Definition getModuleOptions (this : loc) (name : string) : M (option XModuleOptions) :=
  let! self := this_ this in
  let! options := defined (p_options self) in
  ret (match o_xModules options with
       | Some xModules => get_field name xModules
       | None => None
       end).

(** Reading and writing the descriptor behind a reference. *)
Definition load_module (m : loc) : M StoreModule :=
  let! ms := gets modules in defined (ms !! m).

Definition store_module (m : loc) (sm : StoreModule) : M unit :=
  modify (fun w => with_modules (<[m := sm]> (modules w)) w).

(** [typeof state === 'function' ? state() : state] *)
Definition read_state (sm : StoreModule) : value :=
  match sm_state sm with
  | StateFn f => f tt
  | StateObj v => v
  end.

Definition hasModuleConfig (sm : StoreModule) : outcome bool :=
  match get_prop (read_state sm) "config" with
  | Ret c => Ret (Boolean c)
  | Throw e => Throw e
  end.

(** [Object.assign(state.config, config)], seen from the state. *)
Definition getDefaultSetConfigMutation : Mutation :=
  fun state config =>
    match get_prop state "config" with
    | Throw e => Throw e
    | Ret current =>
        match object_assign current config with
        | Throw e => Throw e
        | Ret assigned =>
            match state with
            | VObj a fs => Ret (VObj a (set_field "config" assigned fs))
            | _ => Ret state
            end
        end
    end.

Definition addConfigMutation (storeModule : loc) : M loc :=
  let! sm := load_module storeModule in
  let! has := lift (hasModuleConfig sm) in
  do! (if has then
         match sm_mutations sm with
         | None =>
             store_module storeModule
               (set_mutations [("setConfig", getDefaultSetConfigMutation)] sm)
         | Some moduleMutations =>
             match get_field "setConfig" moduleMutations with
             | Some _ => ret tt
             | None =>
                 store_module storeModule
                   (set_mutations
                      (set_field "setConfig" getDefaultSetConfigMutation moduleMutations) sm)
             end
         end
       else ret tt) in
  ret storeModule.

(** The customized module is a new object: the descriptor of the feature
    package is read and left as it is. *)
Definition customizeStoreModule (defaultModule : loc) (moduleOptions : StoreModuleOptions)
  : M loc :=
  let! sm := load_module defaultModule in
  let! getState := (match sm_state sm with
                    | StateFn f => ret f
                    | StateObj _ => throw TypeError
                    end) in
  let state := deepMerge (getState tt) (default VUndefined (so_state moduleOptions)) in
  let! customizedModule := fresh_loc in
  do! store_module customizedModule
        {| sm_state := StateObj state;
           sm_getters := merge_dict (sm_getters sm) (so_getters moduleOptions);
           sm_mutations :=
             match sm_mutations sm, so_mutations moduleOptions with
             | None, [] => None
             | ms, os => Some (merge_dict (default [] ms) os)
             end;
           sm_actions := merge_dict (sm_actions sm) (so_actions moduleOptions);
           sm_namespaced := sm_namespaced sm |} in
  ret customizedModule.

(** [store.registerModule(path, module)]: the call, then the state of the
    module placed under the last name of the path. *)
Fixpoint place_state (root : value) (path : list string) (st : value) : outcome value :=
  match path with
  | [] => Ret st
  | k :: path' =>
      match root with
      | VObj a fs =>
          match place_state (default VUndefined (get_field k fs)) path' st with
          | Ret child => Ret (VObj a (set_field k child fs))
          | Throw e => Throw e
          end
      | _ => Throw TypeError
      end
  end.

Definition store_registerModule (store : loc) (path : list string) (sm : StoreModule) : M unit :=
  do! call (ERegisterModule store path sm) in
  let! root := gets (fun w => store_state w store) in
  let! root' := lift (place_state root path (read_state sm)) in
  modify (fun w => with_stores (<[store := root']> (stores w)) w).

Definition registerStoreModule (this : loc) (name : string) (storeModule : loc) : M unit :=
  let! moduleOptions := getModuleOptions this name in
  let! customizedStoreModule :=
    (match moduleOptions ≫= xo_storeModule with
     | Some storeModuleOptions => customizeStoreModule storeModule storeModuleOptions
     | None => ret storeModule
     end) in
  let! sm := load_module customizedStoreModule in
  do! store_module customizedStoreModule (set_namespaced true sm) in
  let! _ := addConfigMutation customizedStoreModule in
  let! self := this_ this in
  let! store := defined (p_store self) in
  let! registered := load_module customizedStoreModule in
  store_registerModule store ["x"; name] registered.

(** *** Wiring *)

Definition customizedWiring (moduleOptions : option XModuleOptions) (wiring : Wiring)
  : Wiring :=
  match moduleOptions ≫= xo_wiring with
  | Some wiringOptions => merge_wiring wiring wiringOptions
  | None => wiring
  end.

Definition registerWiring (this : loc) (name : string) (wiring : Wiring) : M unit :=
  let! moduleOptions := getModuleOptions this name in
  forEach (customizedWiring moduleOptions wiring) (fun event wires =>
    let! self := this_ this in
    do! call (EBusOn (p_bus self) event true) in
    forEach wires (fun key wire =>
      let! self := this_ this in
      call (EWire name event key wire (p_store self)))).

(** *** Store emitters *)

Definition isSimpleSelector (stateSelector : AnySelector) : bool :=
  match stateSelector with
  | SimpleSelector _ => true
  | ComplexSelector _ => false
  end.

(** The destructuring of a store emitter, with its defaults. *)
Definition destructure (stateSelector : AnySelector) : StateSelector :=
  match stateSelector with
  | SimpleSelector f =>
      {| selector := f; immediate := None; isDifferent := None; watch_options := [] |}
  | ComplexSelector s => s
  end.

Definition immediate_of (stateSelector : AnySelector) : bool :=
  default false (immediate (destructure stateSelector)).

Definition isDifferent_of (stateSelector : AnySelector) : value -> value -> bool :=
  default (fun _ _ => true) (isDifferent (destructure stateSelector)).

(** [store.state.x[name]] *)
Definition module_state (root : value) (name : string) : outcome value :=
  match get_prop root "x" with
  | Ret x => get_prop x name
  | Throw e => Throw e
  end.

(** The function watched by [store.watch]. *)
Definition watched (w : Watcher) (root : value) : outcome value :=
  match module_state root (w_module w) with
  | Ret st => Ret (w_selector w st (w_getters w root))
  | Throw e => Throw e
  end.

(** The callback of [store.watch]. *)
Definition watch_callback (w : Watcher) (newValue oldValue : value) : M unit :=
  if w_isDifferent w newValue oldValue then
    let! self := this_ (w_plugin w) in
    call (EEmit (p_bus self) (w_event w) newValue (Some {| moduleName := w_module w |}))
  else ret tt.

(** The callback of [Promise.resolve().then]. *)
Definition run_task (t : Task) : M unit :=
  let! self := this_ (t_plugin t) in
  let! store := defined (p_store self) in
  let! root := gets (fun w => store_state w store) in
  let! st := lift (module_state root (t_module t)) in
  call (EEmit (p_bus self) (t_event t) (t_selector t st (t_getters t root)) None).

Definition watcher_of (this : loc) (name : string) (safeGettersProxy : value -> value)
    (event : string) (stateSelector : AnySelector) : Watcher :=
  {| w_plugin := this; w_module := name; w_event := event;
     w_selector := selector (destructure stateSelector);
     w_getters := safeGettersProxy;
     w_isDifferent := isDifferent_of stateSelector;
     w_options := watch_options (destructure stateSelector) |}.

Definition task_of (this : loc) (name : string) (safeGettersProxy : value -> value)
    (event : string) (stateSelector : AnySelector) : Task :=
  {| t_plugin := this; t_module := name; t_event := event;
     t_selector := selector (destructure stateSelector);
     t_getters := safeGettersProxy |}.

(** The callback [registerStoreEmitters] gives to [forEach]. *)
Definition registerStoreEmitter (this : loc) (name : string)
    (safeGettersProxy : value -> value) (event : string) (stateSelector : AnySelector)
  : M unit :=
  let! self := this_ this in
  let! store := defined (p_store self) in
  do! call (EWatch store (watcher_of this name safeGettersProxy event stateSelector)) in
  if immediate_of stateSelector then
    modify (fun w =>
      with_microtasks
        (microtasks w ++ [task_of this name safeGettersProxy event stateSelector]) w)
  else ret tt.

Definition customizedStoreEmitters (moduleOptions : option XModuleOptions)
    (storeEmitters : StoreEmitters) : StoreEmitters :=
  match moduleOptions ≫= xo_storeEmitters with
  | Some storeEmittersOptions => merge_emitters storeEmitters storeEmittersOptions
  | None => storeEmitters
  end.

Definition registerStoreEmitters (this : loc) (name : string) (storeModule : loc)
    (storeEmitters : StoreEmitters) : M unit :=
  let! moduleOptions := getModuleOptions this name in
  let! self := this_ this in
  let! _ := defined (p_store self) in
  let! sm := load_module storeModule in
  let safeGettersProxy := getGettersProxyFromModule host name sm in
  forEach (customizedStoreEmitters moduleOptions storeEmitters)
          (registerStoreEmitter this name safeGettersProxy).

(** *** Registration of a module *)

Definition registerXModule (this : loc) (xModule : XModule) : M unit :=
  let! self := this_ this in
  if decide (name xModule ∈ p_installedXModules self) then ret tt
  else
    do! registerStoreModule this (name xModule) (storeModule xModule) in
    do! registerWiring this (name xModule) (wiring xModule) in
    do! registerStoreEmitters this (name xModule) (storeModule xModule)
          (storeEmitters xModule) in
    update_this this (fun self =>
      set_installedXModules ({[name xModule]} ∪ p_installedXModules self) self).

(** The static [XPlugin.registerXModule]. *)
Definition XPlugin_registerXModule (xModule : XModule) : M unit :=
  let! i := gets instance in
  match i with
  | Some this => registerXModule this xModule
  | None => lazyRegisterXModule xModule
  end.

(** *** Installation *)

(** Modelled from the spec: [assertXPluginOptionsAreValid] is not in the
    sources.  It fails fast if the options or the required adapter are
    absent. *)
Definition assertXPluginOptionsAreValid (options : option XPluginOptions)
  : M XPluginOptions :=
  match options with
  | None => throw InvalidOptions
  | Some o =>
      match o_adapter o with
      | None => throw InvalidOptions
      | Some _ => ret o
      end
  end.

Definition createAdapterConfigChangedListener (adapter : option Adapter) : M unit :=
  let! a := defined adapter in
  if addConfigChangedListener a then call (EConfigListener (adapter_id a)) else ret tt.

(** Modelled from the spec: [registerReactiveConfig] is not in the sources.
    It gives the live configuration object, global to the instance. *)
Definition registerReactiveConfig (bus : nat) (config : value) : M loc :=
  let! c := fresh_loc in
  do! modify (fun w => with_objects (<[c := config]> (objects w)) w) in
  do! call (EReactiveConfig bus c) in
  ret c.

Definition registerConfig (this : loc) : M unit :=
  let! self := this_ this in
  let! options := defined (p_options self) in
  let config :=
    deepMerge (deepMerge (VObj false []) (DEFAULT_X_CONFIG host))
              (default VUndefined (o_config options)) in
  do! createAdapterConfigChangedListener (o_adapter options) in
  let! c := registerReactiveConfig (p_bus self) config in
  update_this this (set_xConfig c).

Definition registerStore (this : loc) : M unit :=
  let! self := this_ this in
  let! vue := defined (p_vue self) in
  do! call (EVueUse vue) in
  let! options := defined (p_options self) in
  let! store :=
    (match o_store options with
     | Some s => ret s
     | None =>
         let! s := fresh_loc in
         do! call (ENewStore s) in
         do! modify (fun w => with_stores (<[s := VObj false []]> (stores w)) w) in
         ret s
     end) in
  do! update_this this (set_store store) in
  do! (match o_store options with
       | Some _ => ret tt
       | None => modify (fun w => with_trace (trace w ++ [EInjectStore vue store]) w)
       end) in
  store_registerModule store ["x"] (RootXStoreModule host).

Definition applyMixins (this : loc) : M unit :=
  let! self := this_ this in
  let! vue := defined (p_vue self) in
  call (EMixin vue (p_bus self) (p_xConfig self)).

Definition registerFilters (this : loc) : M unit :=
  forEach (FILTERS_REGISTRY host) (fun filterName filterFunction =>
    let! self := this_ this in
    let! vue := defined (p_vue self) in
    call (EFilter vue filterName filterFunction)).

Definition registerPendingXModules (this : loc) : M unit :=
  let! pending := gets pendingXModules in
  do! forEach pending (fun _ xModule => registerXModule this xModule) in
  modify (with_pending []).

Definition install (this : loc) (vue : nat) (options : option XPluginOptions) : M unit :=
  let! self := this_ this in
  if p_isInstalled self then throw AlreadyInstalled
  else
    let! options := assertXPluginOptionsAreValid options in
    do! modify (with_instance (Some this)) in
    do! update_this this (set_install_arguments vue options) in
    do! registerConfig this in
    do! registerStore this in
    do! applyMixins this in
    do! registerFilters this in
    do! registerPendingXModules this in
    update_this this (set_isInstalled true).

(** *** Configuration updates *)

(** [deepMerge(this.xConfig, config)]: the object behind the reference is
    merged into, the reference stays.  Before [registerConfig] there is no
    object to merge into. *)
Definition setConfig (this : loc) (config : value) : M unit :=
  let! self := this_ this in
  match p_xConfig self with
  | Some c =>
      modify (fun w =>
        match objects w !! c with
        | Some current => with_objects (<[c := deepMerge current config]> (objects w)) w
        | None => w
        end)
  | None => ret tt
  end.

(** ** Reasoning about computations *)

Lemma bind_inv {A B} (m : M A) (k : A -> M B) w w' r :
  bind m k w = (w', r) ->
  (∃ e, m w = (w', Throw e) ∧ r = Throw e) ∨
  (∃ a w1, m w = (w1, Ret a) ∧ k a w1 = (w', r)).
Proof.
  unfold bind. destruct (m w) as [w1 [a | e]]; intros H.
  - right. eauto.
  - left. inversion H; subst. eauto.
Qed.

Lemma bind_ret_inv {A B} (m : M A) (k : A -> M B) w w' b :
  bind m k w = (w', Ret b) ->
  ∃ a w1, m w = (w1, Ret a) ∧ k a w1 = (w', Ret b).
Proof.
  intros H. apply bind_inv in H as [(e & _ & He) | H]; [discriminate | exact H].
Qed.

Lemma bind_assoc {A B C} (m : M A) (k : A -> M B) (k' : B -> M C) w :
  bind (bind m k) k' w = bind m (fun a => bind (k a) k') w.
Proof. unfold bind. destruct (m w) as [w1 [a | e]]; reflexivity. Qed.

Lemma bind_ext {A B} (m : M A) (k k' : A -> M B) w :
  (∀ a w1, k a w1 = k' a w1) -> bind m k w = bind m k' w.
Proof. intros H. unfold bind. destruct (m w) as [w1 [a | e]]; [apply H | reflexivity]. Qed.

Lemma gets_inv {A} (g : World -> A) w w' r :
  gets g w = (w', r) -> w' = w ∧ r = Ret (g w).
Proof. intros H. by inversion H. Qed.

Lemma ret_inv {A} (a : A) w w' r : ret a w = (w', r) -> w' = w ∧ r = Ret a.
Proof. intros H. by inversion H. Qed.

Lemma modify_inv g w w' r : modify g w = (w', r) -> w' = g w ∧ r = Ret tt.
Proof. intros H. by inversion H. Qed.

Lemma defined_ret_inv {A} (o : option A) w w' a :
  defined o w = (w', Ret a) -> w' = w ∧ o = Some a.
Proof. destruct o; intros H; by inversion H. Qed.

Lemma lift_ret_inv {A} (o : outcome A) w w' a :
  lift o w = (w', Ret a) -> w' = w ∧ o = Ret a.
Proof. intros H. by inversion H. Qed.

Lemma fresh_loc_inv w w' r :
  fresh_loc w = (w', r) -> w' = with_next (S (next w)) w ∧ r = Ret (next w).
Proof. intros H. by inversion H. Qed.

Lemma forEach_cons {K V} (k : K) (v : V) rest (f : K -> V -> M unit) :
  forEach ((k, v) :: rest) f = bind (f k v) (fun _ => forEach rest f).
Proof. reflexivity. Qed.

(** [keeps f m]: whatever its outcome, [m] leaves the part [f] of the world
    as it found it. *)
Definition keeps {A B} (f : World -> A) (m : M B) : Prop :=
  ∀ w w' r, m w = (w', r) -> f w' = f w.

(** The parts of the world that do not look at the trace, the descriptors,
    the stores, the promise jobs or the allocator. *)
Class Stable {A} (f : World -> A) : Prop := {
  stable_trace t w : f (with_trace t w) = f w;
  stable_modules ms w : f (with_modules ms w) = f w;
  stable_stores ss w : f (with_stores ss w) = f w;
  stable_microtasks ts w : f (with_microtasks ts w) = f w;
  stable_next n w : f (with_next n w) = f w
}.

(** The parts of the world that do not see the instances change by [upd]. *)
Class Unaffected {A} (f : World -> A) (upd : XPlugin -> XPlugin) : Prop :=
  unaffected w this :
    f (with_plugins (<[this := upd (plugin_at w this)]> (plugins w)) w) = f w.

(** A field of an instance. *)
Definition field {A} (g : XPlugin -> A) (p : loc) (w : World) : A :=
  g (plugin_at w p).

Global Instance stable_instance : Stable instance.
Proof. by split. Qed.
Global Instance stable_pending : Stable pendingXModules.
Proof. by split. Qed.
Global Instance stable_plugins : Stable plugins.
Proof. by split. Qed.
Global Instance stable_objects : Stable objects.
Proof. by split. Qed.
Global Instance stable_field {A} (g : XPlugin -> A) p : Stable (field g p).
Proof. by split. Qed.

Global Instance unaffected_instance upd : Unaffected instance upd.
Proof. by intros w this. Qed.
Global Instance unaffected_pending upd : Unaffected pendingXModules upd.
Proof. by intros w this. Qed.
Global Instance unaffected_objects upd : Unaffected objects upd.
Proof. by intros w this. Qed.

Lemma plugin_at_update w this x p :
  plugin_at (with_plugins (<[this := x]> (plugins w)) w) p
  = if decide (p = this) then x else plugin_at w p.
Proof.
  unfold plugin_at; simpl. case_decide as Hp.
  - subst. by rewrite lookup_insert_eq.
  - by rewrite lookup_insert_ne.
Qed.

Lemma unaffected_field {A} (g : XPlugin -> A) p upd :
  (∀ x, g (upd x) = g x) -> Unaffected (field g p) upd.
Proof.
  intros Hg w this. unfold field. rewrite plugin_at_update.
  case_decide; [subst; apply Hg | reflexivity].
Qed.

Section Keeps.
Context {A : Type} (f : World -> A).

Lemma keeps_ret {B} (b : B) : keeps f (ret b).
Proof. intros w w' r H. inversion H; subst. reflexivity. Qed.

Lemma keeps_throw {B} e : keeps f (@throw B e).
Proof. intros w w' r H. inversion H; subst. reflexivity. Qed.

Lemma keeps_lift {B} (o : outcome B) : keeps f (lift o).
Proof. intros w w' r H. inversion H; subst. reflexivity. Qed.

Lemma keeps_gets {B} (g : World -> B) : keeps f (gets g).
Proof. intros w w' r H. inversion H; subst. reflexivity. Qed.

Lemma keeps_defined {B} (o : option B) : keeps f (defined o).
Proof. destruct o; [apply keeps_ret | apply keeps_throw]. Qed.

Lemma keeps_this this : keeps f (this_ this).
Proof. apply keeps_gets. Qed.

Lemma keeps_modify (g : World -> World) :
  (∀ w, f (g w) = f w) -> keeps f (modify g).
Proof. intros Hg w w' r H. inversion H; subst. apply Hg. Qed.

Lemma keeps_update_this this upd :
  Unaffected f upd -> keeps f (update_this this upd).
Proof. intros Hu. apply keeps_modify. intros w. apply Hu. Qed.

Lemma keeps_bind {B C} (m : M B) (k : B -> M C) :
  keeps f m -> (∀ b, keeps f (k b)) -> keeps f (bind m k).
Proof.
  intros Hm Hk w w' r H.
  apply bind_inv in H as [(e & H1 & _) | (a & w1 & H1 & H2)].
  - eapply Hm, H1.
  - rewrite (Hk _ _ _ _ H2). eapply Hm, H1.
Qed.

Lemma keeps_forEach {K V} (l : list (K * V)) (g : K -> V -> M unit) :
  (∀ k v, keeps f (g k v)) -> keeps f (forEach l g).
Proof.
  intros Hg. induction l as [| [k v] l IH].
  - apply keeps_ret.
  - rewrite forEach_cons. apply keeps_bind; [apply Hg | intros _; exact IH].
Qed.

Lemma keeps_load_module m : keeps f (load_module m).
Proof. apply keeps_bind; [apply keeps_gets | intros; apply keeps_defined]. Qed.

Lemma keeps_getModuleOptions this name : keeps f (getModuleOptions this name).
Proof.
  apply keeps_bind; [apply keeps_this | intros].
  apply keeps_bind; [apply keeps_defined | intros; apply keeps_ret].
Qed.

Context `{!Stable f}.

Lemma keeps_call e : keeps f (call e).
Proof.
  intros w w' r H. unfold call in H.
  destruct (fault host (trace w) e); inversion H; subst; apply stable_trace.
Qed.

Lemma keeps_fresh_loc : keeps f fresh_loc.
Proof. intros w w' r H. inversion H; subst. apply stable_next. Qed.

Lemma keeps_store_module m sm : keeps f (store_module m sm).
Proof. apply keeps_modify. intros; apply stable_modules. Qed.
End Keeps.

(** One step of a proof that a computation keeps a part of the world. *)
Ltac keeps_step :=
  match goal with
  | |- keeps _ (bind _ _) => apply keeps_bind; [| intros ?]
  | |- keeps _ (ret _) => apply keeps_ret
  | |- keeps _ (throw _) => apply keeps_throw
  | |- keeps _ (lift _) => apply keeps_lift
  | |- keeps _ (gets _) => apply keeps_gets
  | |- keeps _ (defined _) => apply keeps_defined
  | |- keeps _ (this_ _) => apply keeps_this
  | |- keeps _ (load_module _) => apply keeps_load_module
  | |- keeps _ (getModuleOptions _ _) => apply keeps_getModuleOptions
  | |- keeps _ (forEach _ _) => apply keeps_forEach; intros ? ?
  | |- keeps _ (store_module _ _) =>
      first [ apply keeps_store_module; assumption
            | apply keeps_modify; intros; reflexivity ]
  | |- keeps _ (call _) => apply keeps_call; assumption
  | |- keeps _ fresh_loc =>
      first [ apply keeps_fresh_loc; assumption
            | let H := fresh in
              intros ? ? ? H; apply fresh_loc_inv in H as [-> _]; reflexivity ]
  | |- keeps _ (update_this _ _) =>
      first [ apply keeps_update_this; assumption
            | apply keeps_modify; intros; reflexivity ]
  | |- keeps _ (modify _) =>
      apply keeps_modify; intros;
      first [ apply stable_trace | apply stable_stores | apply stable_microtasks
            | apply stable_modules | apply stable_next | reflexivity ]
  | |- keeps _ (match ?x with _ => _ end) => destruct x
  end.

Ltac keeps_auto := repeat keeps_step.

Section KeepsStable.
Context {A : Type} (f : World -> A) `{!Stable f}.

Lemma keeps_addConfigMutation m : keeps f (addConfigMutation m).
Proof. unfold addConfigMutation. keeps_auto. Qed.

Lemma keeps_customizeStoreModule m o : keeps f (customizeStoreModule m o).
Proof. unfold customizeStoreModule. keeps_auto. Qed.

Lemma keeps_store_registerModule s path sm : keeps f (store_registerModule s path sm).
Proof. unfold store_registerModule. keeps_auto. Qed.

Lemma keeps_registerStoreModule this name m : keeps f (registerStoreModule this name m).
Proof.
  unfold registerStoreModule. keeps_auto;
    auto using keeps_customizeStoreModule, keeps_addConfigMutation,
      keeps_store_registerModule.
Qed.

Lemma keeps_registerWiring this name wiring : keeps f (registerWiring this name wiring).
Proof. unfold registerWiring. keeps_auto. Qed.

Lemma keeps_registerStoreEmitters this name m emitters :
  keeps f (registerStoreEmitters this name m emitters).
Proof. unfold registerStoreEmitters, registerStoreEmitter. keeps_auto. Qed.

Lemma keeps_applyMixins this : keeps f (applyMixins this).
Proof. unfold applyMixins. keeps_auto. Qed.

Lemma keeps_registerFilters this : keeps f (registerFilters this).
Proof. unfold registerFilters. keeps_auto. Qed.

Lemma keeps_registerXModule this xModule :
  (∀ s, Unaffected f (set_installedXModules s)) ->
  keeps f (registerXModule this xModule).
Proof.
  intros Hu. unfold registerXModule. keeps_auto;
    auto using keeps_registerStoreModule, keeps_registerWiring,
      keeps_registerStoreEmitters.
  apply keeps_modify. intros w. apply (Hu _ w this).
Qed.

Lemma keeps_registerStore this :
  (∀ s, Unaffected f (set_store s)) -> keeps f (registerStore this).
Proof.
  intros Hu. unfold registerStore. keeps_auto;
    auto using keeps_store_registerModule.
  apply keeps_update_this, Hu.
Qed.

Lemma keeps_createAdapterConfigChangedListener a :
  keeps f (createAdapterConfigChangedListener a).
Proof. unfold createAdapterConfigChangedListener. keeps_auto. Qed.

Lemma keeps_registerConfig this :
  (∀ os w, f (with_objects os w) = f w) ->
  (∀ c, Unaffected f (set_xConfig c)) ->
  keeps f (registerConfig this).
Proof.
  intros Ho Hu. unfold registerConfig, registerReactiveConfig. keeps_auto;
    auto using keeps_createAdapterConfigChangedListener.
  - apply keeps_modify. intros; apply Ho.
  - apply keeps_update_this, Hu.
Qed.

Lemma keeps_registerPendingXModules this :
  (∀ q w, f (with_pending q w) = f w) ->
  (∀ s, Unaffected f (set_installedXModules s)) ->
  keeps f (registerPendingXModules this).
Proof.
  intros Hq Hu. unfold registerPendingXModules. keeps_auto;
    auto using keeps_registerXModule.
  apply keeps_modify. intros; apply Hq.
Qed.
End KeepsStable.

(** ** The errors a computation can raise *)

Definition throws_only {A} (P : Error -> Prop) (m : M A) : Prop :=
  ∀ w w' e, m w = (w', Throw e) -> P e.

(** The errors of the collaborators and of the language, as opposed to the
    three the plugin raises by itself. *)
Definition foreign (e : Error) : Prop :=
  e = TypeError ∨ ∃ msg, e = HostError msg.

Section ThrowsOnly.
Context (P : Error -> Prop).

Lemma throws_only_ret {A} (a : A) : throws_only P (ret a).
Proof. intros w w' e H. inversion H. Qed.

Lemma throws_only_throw {A} e : P e -> throws_only P (@throw A e).
Proof. intros He w w' e' H. inversion H; subst. exact He. Qed.

Lemma throws_only_gets {A} (g : World -> A) : throws_only P (gets g).
Proof. intros w w' e H. inversion H. Qed.

Lemma throws_only_modify g : throws_only P (modify g).
Proof. intros w w' e H. inversion H. Qed.

Lemma throws_only_lift {A} (o : outcome A) :
  (∀ e, o = Throw e -> P e) -> throws_only P (lift o).
Proof. intros Ho w w' e H. inversion H; subst. by apply Ho. Qed.

Lemma throws_only_defined {A} (o : option A) : P TypeError -> throws_only P (defined o).
Proof. intros. destruct o; [apply throws_only_ret | by apply throws_only_throw]. Qed.

Lemma throws_only_call e : (∀ msg, P (HostError msg)) -> throws_only P (call e).
Proof.
  intros HP w w' e' H. unfold call in H.
  destruct (fault host (trace w) e); inversion H; subst. apply HP.
Qed.

Lemma throws_only_bind {A B} (m : M A) (k : A -> M B) :
  throws_only P m -> (∀ a, throws_only P (k a)) -> throws_only P (bind m k).
Proof.
  intros Hm Hk w w' e H.
  apply bind_inv in H as [(e' & H1 & He) | (a & w1 & H1 & H2)].
  - inversion He; subst. eapply Hm, H1.
  - eapply Hk, H2.
Qed.

Lemma throws_only_forEach {K V} (l : list (K * V)) (g : K -> V -> M unit) :
  (∀ k v, throws_only P (g k v)) -> throws_only P (forEach l g).
Proof.
  intros Hg. induction l as [| [k v] l IH].
  - apply throws_only_ret.
  - rewrite forEach_cons. apply throws_only_bind; [apply Hg | intros _; exact IH].
Qed.
End ThrowsOnly.

Lemma get_prop_throws v k e : get_prop v k = Throw e -> foreign e.
Proof. destruct v; simpl; intros H; inversion H; by left. Qed.

Lemma hasModuleConfig_throws sm e : hasModuleConfig sm = Throw e -> foreign e.
Proof.
  unfold hasModuleConfig. destruct (get_prop _ _) eqn:Hg; intros H; inversion H; subst.
  eapply get_prop_throws, Hg.
Qed.

Lemma place_state_throws root path st e : place_state root path st = Throw e -> foreign e.
Proof.
  revert root. induction path as [| k path IH]; intros root; simpl; [discriminate |].
  destruct root; try (intros H; inversion H; by left).
  destruct (place_state _ path st) eqn:Hp; intros H; inversion H; subst.
  eapply IH, Hp.
Qed.

Ltac foreign_step :=
  match goal with
  | |- throws_only _ (bind _ _) => apply throws_only_bind; [| intros ?]
  | |- throws_only _ (ret _) => apply throws_only_ret
  | |- throws_only _ (throw TypeError) => apply throws_only_throw; by left
  | |- throws_only _ (gets _) => apply throws_only_gets
  | |- throws_only _ (this_ _) => apply throws_only_gets
  | |- throws_only _ (modify _) => apply throws_only_modify
  | |- throws_only _ (update_this _ _) => apply throws_only_modify
  | |- throws_only _ (store_module _ _) => apply throws_only_modify
  | |- throws_only _ (defined _) => apply throws_only_defined; by left
  | |- throws_only _ (call _) => apply throws_only_call; intros; right; eauto
  | |- throws_only _ fresh_loc => intros ? ? ? Hfresh; inversion Hfresh
  | |- throws_only _ (forEach _ _) => apply throws_only_forEach; intros ? ?
  | |- throws_only _ (lift (hasModuleConfig _)) =>
      apply throws_only_lift; apply hasModuleConfig_throws
  | |- throws_only _ (lift (place_state _ _ _)) =>
      apply throws_only_lift; apply place_state_throws
  | |- throws_only _ (load_module _) => unfold load_module
  | |- throws_only _ (getModuleOptions _ _) => unfold getModuleOptions
  | |- throws_only _ (match ?x with _ => _ end) => destruct x
  end.

Ltac foreign_auto := repeat foreign_step.

Lemma registerXModule_throws this xModule : throws_only foreign (registerXModule this xModule).
Proof.
  unfold registerXModule, registerStoreModule, registerWiring, registerStoreEmitters,
    registerStoreEmitter, customizeStoreModule, addConfigMutation, store_registerModule.
  foreign_auto.
Qed.

(** ** Properties of the installation *)

(** The steps of [install] that follow the assignment of its arguments. *)
Definition installation (this : loc) : M unit :=
  do! registerConfig this in
  do! registerStore this in
  do! applyMixins this in
  do! registerFilters this in
  registerPendingXModules this.

Lemma installation_throws this : throws_only foreign (installation this).
Proof.
  unfold installation, registerConfig, registerStore, applyMixins, registerFilters,
    registerPendingXModules, createAdapterConfigChangedListener, registerReactiveConfig,
    store_registerModule.
  foreign_auto; apply registerXModule_throws.
Qed.

Lemma keeps_installation {A} (f : World -> A) `{!Stable f} this :
  (∀ os w, f (with_objects os w) = f w) ->
  (∀ q w, f (with_pending q w) = f w) ->
  (∀ c, Unaffected f (set_xConfig c)) ->
  (∀ s, Unaffected f (set_store s)) ->
  (∀ s, Unaffected f (set_installedXModules s)) ->
  keeps f (installation this).
Proof.
  intros. unfold installation. keeps_auto;
    auto using keeps_registerConfig, keeps_registerStore, keeps_applyMixins,
      keeps_registerFilters, keeps_registerPendingXModules.
Qed.

Lemma keeps_installation_instance this : keeps instance (installation this).
Proof. apply keeps_installation; try done; apply _. Qed.

Lemma keeps_installation_field {A} (g : XPlugin -> A) p this :
  (∀ c x, g (set_xConfig c x) = g x) ->
  (∀ s x, g (set_store s x) = g x) ->
  (∀ s x, g (set_installedXModules s x) = g x) ->
  keeps (field g p) (installation this).
Proof.
  intros. apply keeps_installation; try done; try apply _;
    intros; by apply unaffected_field.
Qed.

(** The world in which the steps of [install] start. *)
Definition install_start (this : loc) (vue : nat) (options : XPluginOptions) (w : World)
  : World :=
  with_plugins
    (<[this := set_install_arguments vue options (plugin_at w this)]> (plugins w))
    (with_instance (Some this) w).

(** [install] on an instance that is not installed, with valid options. *)
Lemma install_unfold this vue options a w :
  p_isInstalled (plugin_at w this) = false ->
  o_adapter options = Some a ->
  install this vue (Some options) w
  = bind (installation this) (fun _ => update_this this (set_isInstalled true))
      (install_start this vue options w).
Proof.
  intros Hflag Ha. unfold install, assertXPluginOptionsAreValid.
  set (rest := fun options0 : XPluginOptions => bind _ _).
  unfold bind at 1, this_, gets. rewrite Hflag.
  unfold bind at 1. rewrite Ha. unfold ret. subst rest. cbv beta.
  unfold bind at 1, modify at 1.
  unfold bind at 1, update_this at 1, modify at 1.
  cbv beta iota. unfold installation.
  symmetry. repeat (rewrite bind_assoc; apply bind_ext; intros _ ?).
  reflexivity.
Qed.

Lemma plugin_at_install_start this vue options w p :
  plugin_at (install_start this vue options w) p
  = if decide (p = this) then set_install_arguments vue options (plugin_at w this)
    else plugin_at w p.
Proof. apply (plugin_at_update (with_instance (Some this) w)). Qed.

Lemma install_ret_inv this vue options w w1 :
  install this vue options w = (w1, Ret tt) ->
  ∃ opts a w0,
    options = Some opts ∧ o_adapter opts = Some a ∧
    p_isInstalled (plugin_at w this) = false ∧
    installation this (install_start this vue opts w) = (w0, Ret tt) ∧
    w1 = with_plugins (<[this := set_isInstalled true (plugin_at w0 this)]> (plugins w0)) w0.
Proof.
  intros H.
  destruct (p_isInstalled (plugin_at w this)) eqn:Hflag.
  { unfold install, bind, this_, gets in H. rewrite Hflag in H. discriminate. }
  destruct options as [opts |]; cycle 1.
  { unfold install, bind, this_, gets in H. rewrite Hflag in H. discriminate. }
  destruct (o_adapter opts) as [a |] eqn:Ha; cycle 1.
  { unfold install, bind, this_, gets in H. rewrite Hflag in H. simpl in H.
    rewrite Ha in H. discriminate. }
  rewrite (install_unfold _ _ _ a) in H by done.
  apply bind_ret_inv in H as ([] & w0 & H0 & H1).
  exists opts, a, w0. repeat split; try done.
  unfold update_this, modify in H1. by inversion H1.
Qed.

Lemma install_installed this vue options w :
  p_isInstalled (plugin_at w this) = true ->
  install this vue options w = (w, Throw AlreadyInstalled).
Proof.
  intros Hflag. unfold install, bind, this_, gets. by rewrite Hflag.
Qed.

Lemma install_not_installed this vue options w :
  p_isInstalled (plugin_at w this) = false ->
  (install this vue options w).2 ≠ Throw AlreadyInstalled.
Proof.
  intros Hflag.
  destruct options as [opts |]; cycle 1.
  { unfold install, bind, this_, gets. by rewrite Hflag. }
  destruct (o_adapter opts) as [a |] eqn:Ha; cycle 1.
  { unfold install, bind, this_, gets. rewrite Hflag. simpl. by rewrite Ha. }
  rewrite (install_unfold _ _ _ a) by done.
  destruct (bind _ _ _) as [w1 [[] | e]] eqn:H; [done |]. simpl.
  apply bind_inv in H as [(e' & H1 & He) | (a' & w0 & _ & H1)].
  - inversion He; subst e'. apply installation_throws in H1.
    destruct H1 as [-> | [msg ->]]; discriminate.
  - unfold update_this, modify in H1. inversion H1.
Qed.

Lemma getInstance_set w this : instance w = Some this -> getInstance w = (w, Ret this).
Proof. intros H. unfold getInstance. by rewrite H. Qed.

Lemma accessors_set w this :
  instance w = Some this ->
  get_adapter w = (w, Ret (p_adapter (plugin_at w this))) ∧
  get_bus w = (w, Ret (p_bus (plugin_at w this))) ∧
  get_config w = (w, Ret (p_xConfig (plugin_at w this))).
Proof.
  intros H. unfold get_adapter, get_bus, get_config, bind.
  by rewrite (getInstance_set _ _ H).
Qed.

Lemma accessors_unset w :
  instance w = None ->
  get_adapter w = (w, Throw MustBeInstalled) ∧
  get_bus w = (w, Throw MustBeInstalled) ∧
  get_config w = (w, Throw MustBeInstalled).
Proof.
  intros H. unfold get_adapter, get_bus, get_config, bind, getInstance.
  by rewrite H.
Qed.

(** The configuration [registerConfig] builds from the options. *)
Definition initial_config (options : XPluginOptions) : value :=
  deepMerge (deepMerge (VObj false []) (DEFAULT_X_CONFIG host))
            (default VUndefined (o_config options)).


(** C2: calling [install] on an instance that has completed a successful
    install throws the explicit error at once and installs nothing again:
    the world is left as it was. *)
Theorem install_twice_throws this vue options w :
  (p_isInstalled (plugin_at w this) = true ->
   install this vue options w = (w, Throw AlreadyInstalled)) ∧
  (∀ w1, install this vue options w = (w1, Ret tt) ->
     p_isInstalled (plugin_at w1 this) = true ∧
     ∀ vue' options', install this vue' options' w1 = (w1, Throw AlreadyInstalled)).
Proof.
  split; [apply install_installed |].
  intros w1 H.
  apply install_ret_inv in H as (opts & a & w0 & _ & _ & _ & _ & ->).
  assert (Hflag : p_isInstalled
            (plugin_at (with_plugins
               (<[this := set_isInstalled true (plugin_at w0 this)]> (plugins w0)) w0)
               this) = true).
  { by rewrite plugin_at_update, decide_True. }
  split; [exact Hflag |]. intros. by apply install_installed.
Qed.


(** C10: when [install] is called with valid options on an instance that is
    not installed and a later step throws, the static instance is already
    this instance and its [isInstalled] flag is still false; so the static
    accessors return instead of throwing the access-before-install error,
    and a further [install] on the instance is not rejected as already
    installed. *)
Theorem failed_install_leaves_instance this vue options a w w1 e :
  p_isInstalled (plugin_at w this) = false ->
  o_adapter options = Some a ->
  install this vue (Some options) w = (w1, Throw e) ->
  foreign e ∧
  instance w1 = Some this ∧
  p_isInstalled (plugin_at w1 this) = false ∧
  get_adapter w1 = (w1, Ret (Some a)) ∧
  get_bus w1 = (w1, Ret (p_bus (plugin_at w this))) ∧
  get_config w1 = (w1, Ret (p_xConfig (plugin_at w1 this))) ∧
  ∀ vue' options', (install this vue' options' w1).2 ≠ Throw AlreadyInstalled.
Proof.
  intros Hflag Ha H.
  rewrite (install_unfold _ _ _ a) in H by done.
  apply bind_inv in H as [(e' & H & He) | (a' & w0 & _ & H)]; cycle 1.
  { unfold update_this, modify in H. inversion H. }
  inversion He; subst e'; clear He.
  pose proof (installation_throws _ _ _ _ H) as Hforeign.
  fold (install_start this vue options w) in H.
  pose proof (keeps_installation_instance _ _ _ _ H) as Hi.
  pose proof (keeps_installation_field p_isInstalled this this
                ltac:(done) ltac:(done) ltac:(done) _ _ _ H) as Hfl.
  pose proof (keeps_installation_field p_adapter this this
                ltac:(done) ltac:(done) ltac:(done) _ _ _ H) as Had.
  pose proof (keeps_installation_field p_bus this this
                ltac:(done) ltac:(done) ltac:(done) _ _ _ H) as Hbus.
  unfold field in Hfl, Had, Hbus.
  rewrite plugin_at_install_start, decide_True in Hfl, Had, Hbus by done.
  simpl in Hi, Hfl, Had, Hbus.
  destruct (accessors_set _ _ Hi) as (Hga & Hgb & Hgc).
  rewrite Had, Ha in Hga. rewrite Hbus in Hgb.
  repeat split; try done.
  - congruence.
  - intros. apply install_not_installed. congruence.
Qed.

(** ** Properties of the store emitters *)

Lemma call_inv e w w' r :
  call e w = (w', r) -> w' = with_trace (trace w ++ [e]) w.
Proof. unfold call. destruct (fault host (trace w) e); intros H; by inversion H. Qed.

Lemma call_total e w : ∃ r, call e w = (with_trace (trace w ++ [e]) w, r).
Proof. unfold call. destruct (fault host (trace w) e); eauto. Qed.

Definition immediate_tasks (this : loc) (name : string) (proxy : value -> value)
    (emitters : StoreEmitters) : list Task :=
  map (fun es => task_of this name proxy es.1 es.2)
      (filter (fun es => immediate_of es.2 = true) emitters).

Definition watch_calls (this : loc) (name : string) (proxy : value -> value)
    (store : loc) (emitters : StoreEmitters) : list Effect :=
  map (fun es => EWatch store (watcher_of this name proxy es.1 es.2)) emitters.

Lemma registerStoreEmitter_ret this name proxy event sel store w w1 :
  p_store (plugin_at w this) = Some store ->
  registerStoreEmitter this name proxy event sel w = (w1, Ret tt) ->
  plugins w1 = plugins w ∧
  trace w1 = trace w ++ [EWatch store (watcher_of this name proxy event sel)] ∧
  microtasks w1
  = microtasks w ++ (if immediate_of sel then [task_of this name proxy event sel] else []).
Proof.
  intros Hs H. unfold registerStoreEmitter in H.
  apply bind_ret_inv in H as (self & wa & H1 & H).
  apply gets_inv in H1 as [-> [= ->]].
  apply bind_ret_inv in H as (store' & wb & H1 & H).
  apply defined_ret_inv in H1 as [-> Hs'].
  rewrite Hs in Hs'. inversion Hs'; subst store'; clear Hs'.
  apply bind_ret_inv in H as ([] & wc & H1 & H).
  apply call_inv in H1 as ->.
  destruct (immediate_of sel).
  - apply modify_inv in H as [-> _]. done.
  - apply ret_inv in H as [-> _]. simpl. by rewrite app_nil_r.
Qed.

Lemma forEach_registerStoreEmitter_ret this name proxy store emitters w w1 :
  p_store (plugin_at w this) = Some store ->
  forEach emitters (registerStoreEmitter this name proxy) w = (w1, Ret tt) ->
  plugins w1 = plugins w ∧
  trace w1 = trace w ++ watch_calls this name proxy store emitters ∧
  microtasks w1 = microtasks w ++ immediate_tasks this name proxy emitters.
Proof.
  revert w. induction emitters as [| [event sel] emitters IH]; intros w Hs H.
  - apply ret_inv in H as [-> _]. unfold watch_calls, immediate_tasks. simpl.
    by rewrite !app_nil_r.
  - rewrite forEach_cons in H.
    apply bind_ret_inv in H as ([] & wa & H1 & H).
    apply (registerStoreEmitter_ret _ _ _ _ _ store) in H1 as (Hp & Ht & Hm); [| done].
    apply IH in H as (Hp' & Ht' & Hm').
    2: { unfold plugin_at in *. by rewrite Hp. }
    split; [congruence |].
    split.
    + rewrite Ht', Ht. unfold watch_calls. simpl. by rewrite <- app_assoc.
    + rewrite Hm', Hm. unfold immediate_tasks.
      destruct (immediate_of sel) eqn:Hi.
      * rewrite (filter_cons_True _ (event, sel)) by done. simpl.
        by rewrite <- app_assoc.
      * rewrite (filter_cons_False _ (event, sel)) by (simpl; congruence).
        by rewrite app_nil_r.
Qed.




Lemma registerStoreEmitters_ret this name m emitters options sm store w w1 :
  p_options (plugin_at w this) = Some options ->
  p_store (plugin_at w this) = Some store ->
  modules w !! m = Some sm ->
  registerStoreEmitters this name m emitters w = (w1, Ret tt) ->
  let customized :=
    customizedStoreEmitters (o_xModules options ≫= get_field name) emitters in
  let proxy := getGettersProxyFromModule host name sm in
  plugins w1 = plugins w ∧
  trace w1 = trace w ++ watch_calls this name proxy store customized ∧
  microtasks w1 = microtasks w ++ immediate_tasks this name proxy customized.
Proof.
  intros Ho Hs Hm H. unfold registerStoreEmitters in H.
  apply bind_ret_inv in H as (mo & wa & H1 & H).
  unfold getModuleOptions in H1.
  apply bind_ret_inv in H1 as (self & wb & H2 & H1).
  apply gets_inv in H2 as [-> [= ->]].
  apply bind_ret_inv in H1 as (options' & wc & H2 & H1).
  apply defined_ret_inv in H2 as [-> Ho'].
  rewrite Ho in Ho'. inversion Ho'; subst options'; clear Ho'.
  apply ret_inv in H1 as [-> [= ->]].
  apply bind_ret_inv in H as (self & wb & H1 & H).
  apply gets_inv in H1 as [-> [= ->]].
  apply bind_ret_inv in H as (store' & wb & H1 & H).
  apply defined_ret_inv in H1 as [-> _].
  apply bind_ret_inv in H as (sm' & wb & H1 & H).
  unfold load_module in H1.
  apply bind_ret_inv in H1 as (ms & wc & H2 & H1).
  apply gets_inv in H2 as [-> [= ->]].
  apply defined_ret_inv in H1 as [-> Hm'].
  rewrite Hm in Hm'. inversion Hm'; subst sm'; clear Hm'.
  assert (Hmo : (match o_xModules options with
                 | Some xModules => get_field name xModules
                 | None => None
                 end) = (o_xModules options ≫= get_field name))
    by (by destruct (o_xModules options)).
  rewrite Hmo in H.
  by apply (forEach_registerStoreEmitter_ret _ _ _ store) in H.
Qed.

Lemma lookup_map {A B} (f : A -> B) (l : list A) i x :
  l !! i = Some x -> map f l !! i = Some (f x).
Proof.
  revert i. induction l as [| y l IH]; intros [| i]; simpl; try done.
  - by intros [= ->].
  - apply IH.
Qed.

(** C5: [registerStoreEmitters] hands one watcher to [store.watch] for each
    store emitter of the module, in their order; these are the emitters of
    the descriptor when the options give none for the module.  The callback
    of the watcher of an emitter emits the event of that emitter, with the
    new value and the metadata [{ moduleName }], exactly when the
    [isDifferent] of the emitter holds of the new and the old value, and
    makes no call otherwise; an emitter that is a bare selector, or that
    gives no [isDifferent], emits at every call. *)
Theorem watch_callback_emits_when_different
    this name m emitters options sm store w w1 :
  p_options (plugin_at w this) = Some options ->
  p_store (plugin_at w this) = Some store ->
  modules w !! m = Some sm ->
  registerStoreEmitters this name m emitters w = (w1, Ret tt) ->
  ∃ customized watchers,
    ((o_xModules options ≫= get_field name) ≫= xo_storeEmitters = None ->
       customized = emitters) ∧
    trace w1 = trace w ++ map (EWatch store) watchers ∧
    length watchers = length customized ∧
    ∀ i event stateSelector,
      customized !! i = Some (event, stateSelector) ->
      ∃ watcher,
        watchers !! i = Some watcher ∧
        ∀ newValue oldValue w2,
          (match stateSelector with
           | SimpleSelector _ => true
           | ComplexSelector s =>
               match isDifferent s with
               | Some different => different newValue oldValue
               | None => true
               end
           end = true ->
           ∃ r, watch_callback watcher newValue oldValue w2
                = (with_trace
                     (trace w2 ++ [EEmit (p_bus (plugin_at w2 this)) event newValue
                                         (Some {| moduleName := name |})]) w2, r)) ∧
          (match stateSelector with
           | SimpleSelector _ => true
           | ComplexSelector s =>
               match isDifferent s with
               | Some different => different newValue oldValue
               | None => true
               end
           end = false ->
           watch_callback watcher newValue oldValue w2 = (w2, Ret tt)).
Proof.
  intros Ho Hs Hm H.
  apply (registerStoreEmitters_ret _ _ _ _ options sm store) in H as (_ & Ht & _);
    [| done | done | done].
  set (proxy := getGettersProxyFromModule host name sm) in Ht.
  exists (customizedStoreEmitters (o_xModules options ≫= get_field name) emitters),
    (map (fun es => watcher_of this name proxy es.1 es.2)
       (customizedStoreEmitters (o_xModules options ≫= get_field name) emitters)).
  split; [intros Hno; unfold customizedStoreEmitters; by rewrite Hno |].
  split; [rewrite Ht; unfold watch_calls; by rewrite map_map |].
  split; [apply length_map |].
  intros i event stateSelector Hi.
  exists (watcher_of this name proxy event stateSelector).
  split; [exact (lookup_map (fun es => watcher_of this name proxy es.1 es.2) _ _ _ Hi) |].
  assert (Hd : ∀ newValue oldValue,
             w_isDifferent (watcher_of this name proxy event stateSelector)
               newValue oldValue
             = match stateSelector with
               | SimpleSelector _ => true
               | ComplexSelector s =>
                   match isDifferent s with
                   | Some different => different newValue oldValue
                   | None => true
                   end
               end).
  { intros newValue oldValue. destruct stateSelector as [f | s]; [done |].
    simpl. unfold isDifferent_of. simpl. by destruct (isDifferent s). }
  intros newValue oldValue w2. rewrite <- Hd. split.
  - intros Hdiff. unfold watch_callback. rewrite Hdiff.
    unfold bind, this_, gets. apply call_total.
  - intros Hdiff. unfold watch_callback. by rewrite Hdiff.
Qed.



(** ** Properties of the store modules *)

Lemma keeps_trace_addConfigMutation m : keeps trace (addConfigMutation m).
Proof. unfold addConfigMutation. keeps_auto. Qed.

Lemma keeps_trace_customizeStoreModule m o : keeps trace (customizeStoreModule m o).
Proof. unfold customizeStoreModule. keeps_auto. Qed.

Lemma keeps_modules_store_registerModule s path sm :
  keeps modules (store_registerModule s path sm).
Proof.
  unfold store_registerModule. keeps_auto.
  intros w w' r H. apply call_inv in H as ->. reflexivity.
Qed.

Lemma get_field_set_field {A} (k k' : string) (v : A) fs :
  get_field k' (set_field k v fs) = if decide (k = k') then Some v else get_field k' fs.
Proof.
  unfold set_field. destruct (get_field k fs) as [v0 |] eqn:Hk.
  - induction fs as [| [k0 v1] fs IH]; simpl in *; [done |].
    destruct (decide (k0 = k)) as [-> |]; simpl.
    + by destruct (decide (k = k')).
    + rewrite (IH Hk). destruct (decide (k0 = k')), (decide (k = k')); congruence.
  - induction fs as [| [k0 v1] fs IH]; simpl in *; [done |].
    destruct (decide (k0 = k)) as [-> | Hne]; [done |].
    destruct (enumerated_before k k0); simpl.
    + destruct (decide (k = k')); [done |]. done.
    + rewrite (IH Hk). destruct (decide (k0 = k')), (decide (k = k')); congruence.
Qed.

Lemma get_field_app {A} (k : string) (l1 l2 : list (string * A)) :
  get_field k (l1 ++ l2)
  = match get_field k l1 with Some v => Some v | None => get_field k l2 end.
Proof.
  induction l1 as [| [k0 v0] l1 IH]; simpl; [done |]. by case_decide.
Qed.

Lemma get_field_None {A} (k : string) (l : list (string * A)) :
  get_field k l = None <-> k ∉ keys l.
Proof.
  unfold keys. induction l as [| [k0 v0] l IH]; simpl.
  - split; [intros _; apply not_elem_of_nil | done].
  - rewrite not_elem_of_cons. destruct (decide (k0 = k)) as [-> | Hne].
    + split; [done | by intros [? _]].
    + rewrite IH. split; [by intros; split | by intros [_ ?]].
Qed.

(** A write to a key that is there keeps the keys as they are; a new key is
    added to them. *)
Lemma keys_set_field_old {A} (k : string) (v : A) fs :
  is_Some (get_field k fs) -> keys (set_field k v fs) = keys fs.
Proof.
  intros [v0 Hk]. unfold set_field. rewrite Hk. clear Hk. unfold keys.
  induction fs as [| [k0 v1] fs IH]; [done |]. cbn [replace_field].
  destruct (decide (k0 = k)) as [-> |]; rewrite !fmap_cons; [done |]. by rewrite IH.
Qed.

Lemma keys_set_field_new {A} (k : string) (v : A) fs :
  get_field k fs = None -> keys (set_field k v fs) ≡ₚ k :: keys fs.
Proof.
  intros Hk. unfold set_field. rewrite Hk. clear Hk. unfold keys.
  induction fs as [| [k0 v1] fs IH]; [done |]. cbn [add_field].
  destruct (enumerated_before k k0); rewrite !fmap_cons; [done |].
  rewrite IH. apply Permutation_swap.
Qed.

Lemma elem_of_set_field {A} (k : string) (v : A) fs kv :
  kv ∈ set_field k v fs -> kv = (k, v) ∨ kv ∈ fs.
Proof.
  unfold set_field. destruct (get_field k fs) as [v0 |].
  - induction fs as [| [k0 v1] fs IH]; simpl; [by right |].
    destruct (decide (k0 = k)) as [-> | Hne]; rewrite !elem_of_cons; naive_solver.
  - induction fs as [| [k0 v1] fs IH]; simpl.
    + rewrite list_elem_of_singleton. by left.
    + destruct (enumerated_before k k0); rewrite !elem_of_cons; naive_solver.
Qed.

Lemma get_field_reverse {A} (k : string) (l : list (string * A)) :
  NoDup (keys l) -> get_field k (reverse l) = get_field k l.
Proof.
  unfold keys. induction l as [| [k0 v0] l IH]; [done |].
  rewrite fmap_cons, NoDup_cons. intros [Hk Hl].
  rewrite reverse_cons, get_field_app, (IH Hl). simpl.
  case_decide; subst.
  - apply (proj2 (get_field_None k l)) in Hk. by rewrite Hk.
  - by destruct (get_field k l).
Qed.

(** The writes of [Object.assign] are plain writes when the source has no
    property of its own called [__proto__]. *)
Lemma assign_fields_set_field (old new : list (string * value)) :
  "__proto__" ∉ keys new ->
  assign_fields old new = foldl (fun acc kv => set_field kv.1 kv.2 acc) old new.
Proof.
  unfold assign_fields, keys. revert old.
  induction new as [| [k0 v0] new IH]; intros old Hp; simpl; [done |].
  rewrite fmap_cons, not_elem_of_cons in Hp. destruct Hp as [Hk Hp]. simpl in Hk.
  rewrite <- (IH _ Hp). f_equal. unfold assign_field. simpl.
  destruct (String.eqb k0 "__proto__") eqn:E; [| done].
  apply String.eqb_eq in E. by subst k0.
Qed.

Lemma get_field_assign_fields (k : string) (old new : list (string * value)) :
  "__proto__" ∉ keys new ->
  get_field k (assign_fields old new)
  = match get_field k (reverse new) with Some v => Some v | None => get_field k old end.
Proof.
  intros Hp. rewrite (assign_fields_set_field _ _ Hp). clear Hp. revert old.
  induction new as [| [k0 v0] new IH]; intros old; simpl; [done |].
  rewrite IH, reverse_cons, get_field_app, get_field_set_field. simpl.
  destruct (get_field k (reverse new)); [done |]. by case_decide.
Qed.

(** What [addConfigMutation] makes of a descriptor. *)
Definition configured (sm : StoreModule) : StoreModule :=
  match hasModuleConfig sm with
  | Ret true =>
      match sm_mutations sm with
      | None => set_mutations [("setConfig", getDefaultSetConfigMutation)] sm
      | Some moduleMutations =>
          match get_field "setConfig" moduleMutations with
          | Some _ => sm
          | None =>
              set_mutations
                (set_field "setConfig" getDefaultSetConfigMutation moduleMutations) sm
          end
      end
  | _ => sm
  end.

Lemma sm_namespaced_configured sm : sm_namespaced (configured sm) = sm_namespaced sm.
Proof.
  unfold configured. destruct (hasModuleConfig sm) as [[] |]; try done.
  destruct (sm_mutations sm) as [ms |]; [destruct (get_field "setConfig" ms) |]; done.
Qed.

Lemma with_modules_id m sm w :
  modules w !! m = Some sm -> with_modules (<[m := sm]> (modules w)) w = w.
Proof. intros H. rewrite insert_id by done. by destruct w. Qed.

Lemma addConfigMutation_run m sm w :
  modules w !! m = Some sm ->
  addConfigMutation m w
  = match hasModuleConfig sm with
    | Ret _ => (with_modules (<[m := configured sm]> (modules w)) w, Ret m)
    | Throw e => (w, Throw e)
    end.
Proof.
  intros Hm. unfold addConfigMutation, configured, load_module.
  unfold bind at 1. unfold bind at 1, gets. unfold defined. rewrite Hm. unfold ret at 1.
  unfold bind at 1, lift.
  destruct (hasModuleConfig sm) as [[] | e]; [| | done].
  - destruct (sm_mutations sm) as [ms |]; [destruct (get_field "setConfig" ms) |];
      unfold bind, store_module, modify, ret; try done.
    by rewrite with_modules_id.
  - unfold bind, ret. by rewrite with_modules_id.
Qed.

Lemma getDefaultSetConfigMutation_assigns a fs old config :
  get_field "config" fs = Some (VObj false old) ->
  getDefaultSetConfigMutation (VObj a fs) config
  = Ret (VObj a (set_field "config"
                   (VObj false (assign_fields old (own_props config))) fs)).
Proof. intros H. unfold getDefaultSetConfigMutation. simpl. by rewrite H. Qed.

(** C4, as amended: [addConfigMutation] looks at the value of [state.config],
    not at the presence of the key.  When that value is truthy and the
    mutations have no [setConfig] entry, the default [setConfig] is added and
    the other mutations are kept; when the value is falsy or absent, or the
    module defines [setConfig], nothing is added or replaced.  The default
    mutation, given a state whose [config] is a plain object and a new
    configuration with no property called [__proto__], assigns each field of
    the new configuration, as it is, onto the object in [state.config], keeps
    the other fields of that object, and leaves the rest of the state as it
    is. *)
Theorem addConfigMutation_synthesizes_setConfig m sm c w :
  modules w !! m = Some sm ->
  get_prop (read_state sm) "config" = Ret c ->
  (Boolean c = true -> sm_mutations sm ≫= get_field "setConfig" = None ->
     ∃ ms,
       addConfigMutation m w
       = (with_modules (<[m := set_mutations ms sm]> (modules w)) w, Ret m) ∧
       get_field "setConfig" ms = Some getDefaultSetConfigMutation ∧
       ∀ k, k ≠ "setConfig" -> get_field k ms = sm_mutations sm ≫= get_field k) ∧
  (Boolean c = false ∨ is_Some (sm_mutations sm ≫= get_field "setConfig") ->
     addConfigMutation m w = (w, Ret m)) ∧
  (∀ a fs old d new,
     get_field "config" fs = Some (VObj false old) ->
     NoDup (keys new) ->
     "__proto__" ∉ keys new ->
     ∃ fs' assigned,
       getDefaultSetConfigMutation (VObj a fs) (VObj d new) = Ret (VObj a fs') ∧
       keys fs' = keys fs ∧
       get_field "config" fs' = Some (VObj false assigned) ∧
       (∀ k, k ≠ "config" -> get_field k fs' = get_field k fs) ∧
       ∀ k, get_field k assigned
            = match get_field k new with Some v => Some v | None => get_field k old end).
Proof.
  intros Hm Hc.
  assert (Hh : hasModuleConfig sm = Ret (Boolean c))
    by (unfold hasModuleConfig; by rewrite Hc).
  repeat split.
  - intros Hb Hn. rewrite (addConfigMutation_run _ _ _ Hm), Hh.
    unfold configured. rewrite Hh, Hb.
    destruct (sm_mutations sm) as [ms |] eqn:Hms; simpl in Hn.
    + rewrite Hn. eexists. split; [reflexivity |].
      rewrite get_field_set_field, decide_True by done. split; [done |].
      intros k Hk. rewrite get_field_set_field. by rewrite decide_False.
    + eexists. split; [reflexivity |]. simpl. split; [done |].
      intros k Hk. by rewrite decide_False.
  - intros Hcase. rewrite (addConfigMutation_run _ _ _ Hm), Hh.
    unfold configured. rewrite Hh.
    destruct Hcase as [Hb | [f Hf]].
    + rewrite Hb. by rewrite with_modules_id.
    + destruct (sm_mutations sm) as [ms |]; simpl in Hf; [| done].
      rewrite Hf. destruct (Boolean c); by rewrite with_modules_id.
  - intros a fs old d new Hcfg Hnd Hp.
    exists (set_field "config" (VObj false (assign_fields old new)) fs),
      (assign_fields old new).
    split; [by apply (getDefaultSetConfigMutation_assigns a fs old (VObj d new)) |].
    split; [apply keys_set_field_old; by exists (VObj false old) |].
    split; [by rewrite get_field_set_field, decide_True |].
    split; [intros k Hk; by rewrite get_field_set_field, decide_False |].
    intros k. by rewrite get_field_assign_fields, get_field_reverse.
Qed.

Lemma getModuleOptions_ret this name w w1 mo :
  getModuleOptions this name w = (w1, Ret mo) ->
  w1 = w ∧ ∃ options, p_options (plugin_at w this) = Some options ∧
                      mo = o_xModules options ≫= get_field name.
Proof.
  unfold getModuleOptions. intros H.
  apply bind_ret_inv in H as (self & wa & H1 & H).
  apply gets_inv in H1 as [-> [= ->]].
  apply bind_ret_inv in H as (options & wb & H1 & H).
  apply defined_ret_inv in H1 as [-> Ho].
  apply ret_inv in H as [-> [= ->]].
  split; [done |]. exists options. split; [done |]. by destruct (o_xModules options).
Qed.

Lemma load_module_ret m w w1 sm :
  load_module m w = (w1, Ret sm) -> w1 = w ∧ modules w !! m = Some sm.
Proof.
  unfold load_module. intros H.
  apply bind_ret_inv in H as (ms & wa & H1 & H).
  apply gets_inv in H1 as [-> [= ->]].
  by apply defined_ret_inv in H.
Qed.

Lemma store_registerModule_inv store path sm w w1 r :
  store_registerModule store path sm w = (w1, r) ->
  trace w1 = trace w ++ [ERegisterModule store path sm] ∧
  plugins w1 = plugins w ∧ microtasks w1 = microtasks w ∧ modules w1 = modules w.
Proof.
  unfold store_registerModule. intros H.
  apply bind_inv in H as [(e & H1 & _) | ([] & wa & H1 & H)];
    apply call_inv in H1 as ->; [done |].
  apply bind_inv in H as [(e & H1 & _) | (root & wb & H1 & H)];
    apply gets_inv in H1 as [-> _]; [done |].
  apply bind_inv in H as [(e & H1 & _) | (root' & wb & H1 & H)].
  - by inversion H1.
  - inversion H1; subst. by apply modify_inv in H as [-> _].
Qed.

(** The store module handed to the store by [registerStoreModule]. *)
Lemma registerStoreModule_ret this name m w w1 :
  registerStoreModule this name m w = (w1, Ret tt) ->
  ∃ options store customized sm0,
    p_options (plugin_at w this) = Some options ∧
    p_store (plugin_at w this) = Some store ∧
    plugins w1 = plugins w ∧ microtasks w1 = microtasks w ∧
    trace w1
    = trace w ++ [ERegisterModule store ["x"; name] (configured (set_namespaced true sm0))] ∧
    modules w1 !! customized = Some (configured (set_namespaced true sm0)) ∧
    ((o_xModules options ≫= get_field name) ≫= xo_storeModule = None ->
       customized = m ∧ modules w !! m = Some sm0).
Proof.
  unfold registerStoreModule. intros H.
  apply bind_ret_inv in H as (mo & wa & H1 & H).
  apply getModuleOptions_ret in H1 as (-> & options & Ho & ->).
  apply bind_ret_inv in H as (cm & wa & H1 & H).
  assert (Hwa : plugins wa = plugins w ∧ microtasks wa = microtasks w ∧
                trace wa = trace w ∧
                ((o_xModules options ≫= get_field name) ≫= xo_storeModule = None ->
                 cm = m ∧ wa = w)).
  { destruct ((o_xModules options ≫= get_field name) ≫= xo_storeModule) as [so |].
    - pose proof (keeps_customizeStoreModule plugins _ _ _ _ _ H1).
      assert (microtasks wa = microtasks w).
      { assert (Hk : keeps microtasks (customizeStoreModule m so))
          by (unfold customizeStoreModule; keeps_auto).
        eapply Hk, H1. }
      pose proof (keeps_trace_customizeStoreModule _ _ _ _ _ H1).
      done.
    - apply ret_inv in H1 as [-> [= ->]]. done. }
  destruct Hwa as (Hp & Hmt & Ht & Hsame). clear H1.
  apply bind_ret_inv in H as (sm0 & wb & H1 & H).
  apply load_module_ret in H1 as [-> Hsm0].
  apply bind_ret_inv in H as ([] & wb & H1 & H).
  apply modify_inv in H1 as [-> _].
  apply bind_ret_inv in H as (cm' & wc & H1 & H).
  rewrite (addConfigMutation_run _ (set_namespaced true sm0)) in H1
    by (simpl; apply lookup_insert_eq).
  destruct (hasModuleConfig (set_namespaced true sm0)); [| discriminate].
  inversion H1; subst cm' wc; clear H1.
  apply bind_ret_inv in H as (self & wc & H1 & H).
  apply gets_inv in H1 as [-> [= ->]].
  apply bind_ret_inv in H as (store & wc & H1 & H).
  apply defined_ret_inv in H1 as [-> Hs].
  apply bind_ret_inv in H as (registered & wc & H1 & H).
  apply load_module_ret in H1 as [-> Hreg]. simpl in Hreg.
  rewrite lookup_insert_eq in Hreg. inversion Hreg; subst registered; clear Hreg.
  apply store_registerModule_inv in H as (Ht1 & Hp1 & Hmt1 & Hm1). simpl in *.
  exists options, store, cm, sm0.
  split; [done |]. split; [by unfold plugin_at in *; rewrite <- Hp |].
  split; [congruence |]. split; [congruence |]. split; [by rewrite Ht1, Ht |].
  split; [by rewrite Hm1, lookup_insert_eq |].
  intros Hno. destruct (Hsame Hno) as [-> ->]. done.
Qed.

(** C9, as amended: with no [storeModule] override, [registerStoreModule]
    writes into the descriptor it was given: after the call the descriptor
    has [namespaced] set to true, has the default [setConfig] among its
    mutations when the value of its [state.config] is truthy and it defined
    none, keeps its other parts, and is the module handed to the store. *)
Theorem registerStoreModule_mutates_descriptor this name m sm options w w1 :
  p_options (plugin_at w this) = Some options ->
  (o_xModules options ≫= get_field name) ≫= xo_storeModule = None ->
  modules w !! m = Some sm ->
  registerStoreModule this name m w = (w1, Ret tt) ->
  ∃ sm' store,
    modules w1 !! m = Some sm' ∧
    trace w1 = trace w ++ [ERegisterModule store ["x"; name] sm'] ∧
    sm_namespaced sm' = Some true ∧
    sm_state sm' = sm_state sm ∧ sm_getters sm' = sm_getters sm ∧
    sm_actions sm' = sm_actions sm ∧
    (∀ k, k ≠ "setConfig" ->
       sm_mutations sm' ≫= get_field k = sm_mutations sm ≫= get_field k) ∧
    (∀ c, get_prop (read_state sm) "config" = Ret c -> Boolean c = true ->
       sm_mutations sm ≫= get_field "setConfig" = None ->
       sm_mutations sm' ≫= get_field "setConfig" = Some getDefaultSetConfigMutation) ∧
    (∀ c, get_prop (read_state sm) "config" = Ret c ->
       Boolean c = false ∨ is_Some (sm_mutations sm ≫= get_field "setConfig") ->
       sm_mutations sm' = sm_mutations sm).
Proof.
  intros Ho Hno Hm H.
  apply registerStoreModule_ret in H
    as (options' & store & cm & sm0 & Ho' & Hs & _ & _ & Ht & Hcm & Hsame).
  rewrite Ho in Ho'. inversion Ho'; subst options'; clear Ho'.
  destruct (Hsame Hno) as [-> Hm']. rewrite Hm in Hm'. inversion Hm'; subst sm0; clear Hm'.
  exists (configured (set_namespaced true sm)), store.
  split; [done |]. split; [done |].
  unfold configured, hasModuleConfig. simpl.
  change (read_state (set_namespaced true sm)) with (read_state sm).
  destruct (get_prop (read_state sm) "config") as [c |] eqn:Hc; cycle 1.
  { repeat split; done. }
  destruct (Boolean c) eqn:Hb; cycle 1.
  { repeat split; try done. intros c' [= <-]. congruence. }
  destruct (sm_mutations sm) as [ms |] eqn:Hms; simpl;
    [destruct (get_field "setConfig" ms) eqn:Hsc; simpl; rewrite ?Hms; simpl |];
    repeat split; try done;
    try (intros k Hk; rewrite ?get_field_set_field; by rewrite decide_False);
    try (intros; by rewrite get_field_set_field, decide_True);
    try (intros c' [= <-] [Hf | [f Hf]]; congruence).
Qed.

(** ** The calls a computation makes *)

(** [emits P m]: whatever its outcome, [m] only adds calls that satisfy [P]
    to the trace. *)
Definition emits {A} (P : Effect -> Prop) (m : M A) : Prop :=
  ∀ w w' r, m w = (w', r) -> ∃ t, trace w' = trace w ++ t ∧ Forall P t.

Section Emits.
Context (P : Effect -> Prop).

Lemma emits_keeps {A} (m : M A) : keeps trace m -> emits P m.
Proof.
  intros Hk w w' r H. exists []. rewrite app_nil_r. split; [eapply Hk, H | done].
Qed.

Lemma emits_call e : P e -> emits P (call e).
Proof.
  intros He w w' r H. apply call_inv in H as ->. exists [e]. split; [done |].
  by apply Forall_singleton.
Qed.

Lemma emits_bind {A B} (m : M A) (k : A -> M B) :
  emits P m -> (∀ a, emits P (k a)) -> emits P (bind m k).
Proof.
  intros Hm Hk w w' r H.
  apply bind_inv in H as [(e & H1 & _) | (a & w1 & H1 & H2)].
  - eapply Hm, H1.
  - destruct (Hm _ _ _ H1) as (t1 & Ht1 & HP1).
    destruct (Hk _ _ _ _ H2) as (t2 & Ht2 & HP2).
    exists (t1 ++ t2). split; [by rewrite Ht2, Ht1, app_assoc | by apply Forall_app].
Qed.

Lemma emits_forEach {K V} (l : list (K * V)) (g : K -> V -> M unit) :
  (∀ k v, emits P (g k v)) -> emits P (forEach l g).
Proof.
  intros Hg. induction l as [| [k v] l IH].
  - apply emits_keeps, keeps_ret.
  - rewrite forEach_cons. apply emits_bind; [apply Hg | intros _; exact IH].
Qed.

Lemma emits_store_registerModule store path sm :
  P (ERegisterModule store path sm) -> emits P (store_registerModule store path sm).
Proof.
  intros HP w w' r H. apply store_registerModule_inv in H as (Ht & _).
  eexists. split; [exact Ht | by apply Forall_singleton].
Qed.
End Emits.

Ltac emits_step :=
  match goal with
  | |- emits _ (bind _ _) => apply emits_bind; [| intros ?]
  | |- emits _ (forEach _ _) => apply emits_forEach; intros ? ?
  | |- emits _ (call _) => apply emits_call
  | |- emits _ (store_registerModule _ _ _) => apply emits_store_registerModule
  | |- emits _ (match ?x with _ => _ end) => destruct x
  | |- emits _ _ => apply emits_keeps; solve [keeps_auto]
  end.

Ltac emits_auto := repeat emits_step.

(** The calls that register the parts of the module [n]: its store module,
    its wires and its store emitters. *)
Definition concerns (n : string) (e : Effect) : bool :=
  match e with
  | ERegisterModule _ path _ => bool_decide (path = ["x"; n])
  | EWire m _ _ _ _ => bool_decide (m = n)
  | EWatch _ w => bool_decide (w_module w = n)
  | _ => false
  end.


(** The calls of the registration of a module concern that module only. *)
Definition only_concerns (name : string) (e : Effect) : Prop :=
  ∀ n, n ≠ name -> concerns n e = false.

Lemma emits_registerStoreModule this name m :
  emits (only_concerns name) (registerStoreModule this name m).
Proof.
  unfold registerStoreModule. emits_auto;
    try (apply emits_keeps;
         first [apply keeps_trace_customizeStoreModule | apply keeps_trace_addConfigMutation]).
  intros n Hn. simpl. apply bool_decide_eq_false. congruence.
Qed.

Lemma emits_registerWiring this name wiring :
  emits (only_concerns name) (registerWiring this name wiring).
Proof.
  unfold registerWiring. emits_auto;
    intros n Hn; simpl; try done; apply bool_decide_eq_false; congruence.
Qed.

Lemma emits_registerStoreEmitters this name m emitters :
  emits (only_concerns name) (registerStoreEmitters this name m emitters).
Proof.
  unfold registerStoreEmitters, registerStoreEmitter. emits_auto;
    intros n Hn; simpl; apply bool_decide_eq_false; congruence.
Qed.



(** ** Properties of the registration of a module *)

Definition wire_calls (name : string) (store : option loc) (event : string)
    (wires : list (string * Wire)) : list Effect :=
  map (fun kw => EWire name event kw.1 kw.2 store) wires.

Definition wiring_calls (bus : nat) (name : string) (store : option loc) (wiring : Wiring)
  : list Effect :=
  flat_map (fun ew => EBusOn bus ew.1 true :: wire_calls name store ew.1 ew.2) wiring.

Lemma with_trace_id w : with_trace (trace w) w = w.
Proof. by destruct w. Qed.

Lemma forEach_wires_ret this name event wires w w1 :
  forEach wires (fun key wire =>
    let! self := this_ this in
    call (EWire name event key wire (p_store self))) w = (w1, Ret tt) ->
  w1 = with_trace (trace w ++ wire_calls name (p_store (plugin_at w this)) event wires) w.
Proof.
  revert w. induction wires as [| [key wire] wires IH]; intros w H.
  - apply ret_inv in H as [-> _]. simpl. by rewrite app_nil_r, with_trace_id.
  - rewrite forEach_cons in H.
    apply bind_ret_inv in H as ([] & wa & H1 & H).
    apply bind_ret_inv in H1 as (self & wb & H2 & H1).
    apply gets_inv in H2 as [-> [= ->]].
    apply call_inv in H1 as ->.
    apply IH in H as ->. simpl. by rewrite <- app_assoc.
Qed.

Lemma forEach_wiring_ret this name wiring w w1 :
  forEach wiring (fun event wires =>
    let! self := this_ this in
    do! call (EBusOn (p_bus self) event true) in
    forEach wires (fun key wire =>
      let! self := this_ this in
      call (EWire name event key wire (p_store self)))) w = (w1, Ret tt) ->
  w1 = with_trace
         (trace w ++ wiring_calls (p_bus (plugin_at w this)) name
                       (p_store (plugin_at w this)) wiring) w.
Proof.
  revert w. induction wiring as [| [event wires] wiring IH]; intros w H.
  - apply ret_inv in H as [-> _]. simpl. by rewrite app_nil_r, with_trace_id.
  - rewrite forEach_cons in H.
    apply bind_ret_inv in H as ([] & wa & H1 & H).
    apply bind_ret_inv in H1 as (self & wb & H2 & H1).
    apply gets_inv in H2 as [-> [= ->]].
    apply bind_ret_inv in H1 as ([] & wb & H2 & H1).
    apply call_inv in H2 as ->.
    apply forEach_wires_ret in H1 as ->.
    apply IH in H as ->. simpl. by rewrite <- !app_assoc.
Qed.

Lemma registerWiring_ret this name wiring w w1 :
  registerWiring this name wiring w = (w1, Ret tt) ->
  ∃ options,
    p_options (plugin_at w this) = Some options ∧
    w1 = with_trace
           (trace w ++
            wiring_calls (p_bus (plugin_at w this)) name (p_store (plugin_at w this))
              (customizedWiring (o_xModules options ≫= get_field name) wiring)) w.
Proof.
  unfold registerWiring. intros H.
  apply bind_ret_inv in H as (mo & wa & H1 & H).
  apply getModuleOptions_ret in H1 as (-> & options & Ho & ->).
  exists options. split; [done |]. by apply forEach_wiring_ret.
Qed.

Definition installed (w : World) (this : loc) : gset string :=
  p_installedXModules (plugin_at w this).

Lemma registerXModule_installed this xModule w :
  name xModule ∈ installed w this -> registerXModule this xModule w = (w, Ret tt).
Proof.
  intros Hin. unfold registerXModule, bind, this_, gets.
  by rewrite decide_True.
Qed.

(** The whole of a registration that returns. *)
Lemma registerXModule_ret this xModule w w1 :
  name xModule ∉ installed w this ->
  registerXModule this xModule w = (w1, Ret tt) ->
  ∃ options store sm proxy,
    p_options (plugin_at w this) = Some options ∧
    p_store (plugin_at w this) = Some store ∧
    plugins w1
    = <[this := set_installedXModules ({[name xModule]} ∪ installed w this)
                  (plugin_at w this)]> (plugins w) ∧
    trace w1
    = trace w ++
      ERegisterModule store ["x"; name xModule] sm ::
      wiring_calls (p_bus (plugin_at w this)) (name xModule) (Some store)
        (customizedWiring (o_xModules options ≫= get_field (name xModule))
           (wiring xModule)) ++
      watch_calls this (name xModule) proxy store
        (customizedStoreEmitters (o_xModules options ≫= get_field (name xModule))
           (storeEmitters xModule)) ∧
    microtasks w1
    = microtasks w ++
      immediate_tasks this (name xModule) proxy
        (customizedStoreEmitters (o_xModules options ≫= get_field (name xModule))
           (storeEmitters xModule)).
Proof.
  intros Hnot H. unfold registerXModule in H.
  apply bind_ret_inv in H as (self & wa & H1 & H).
  apply gets_inv in H1 as [-> [= ->]].
  rewrite decide_False in H by done.
  apply bind_ret_inv in H as ([] & wa & H1 & H).
  apply registerStoreModule_ret in H1
    as (options & store & cm & sm0 & Ho & Hs & Hp1 & Hm1 & Ht1 & _ & _).
  assert (Hpa : plugin_at wa this = plugin_at w this)
    by (unfold plugin_at; by rewrite Hp1).
  apply bind_ret_inv in H as ([] & wb & H2 & H).
  apply registerWiring_ret in H2 as (options' & Ho' & Hwb).
  rewrite Hpa, Ho in Ho'. inversion Ho'; subst options'; clear Ho'.
  rewrite Hpa, Hs in Hwb. subst wb.
  apply bind_ret_inv in H as ([] & wc & H3 & H).
  destruct (modules wa !! storeModule xModule) as [sm |] eqn:Hsm; cycle 1.
  { unfold registerStoreEmitters in H3.
    apply bind_ret_inv in H3 as (? & ? & H4 & H3).
    apply getModuleOptions_ret in H4 as (-> & _).
    apply bind_ret_inv in H3 as (? & ? & H4 & H3).
    apply gets_inv in H4 as [-> _].
    apply bind_ret_inv in H3 as (? & ? & H4 & H3).
    apply defined_ret_inv in H4 as [-> _].
    apply bind_ret_inv in H3 as (? & ? & H4 & H3).
    apply load_module_ret in H4 as [-> H4]. simpl in H4. congruence. }
  apply (registerStoreEmitters_ret _ _ _ _ options sm store) in H3
    as (Hp3 & Ht3 & Hm3); [| by rewrite <- Ho, <- Hpa | by rewrite <- Hs, <- Hpa | done].
  apply modify_inv in H as [-> _]. simpl in *.
  exists options, store, (configured (set_namespaced true sm0)),
    (getGettersProxyFromModule host (name xModule) sm).
  split; [done |]. split; [done |]. split.
  { rewrite Hp3, Hp1. unfold installed.
    assert (Hpc : plugin_at wc this = plugin_at w this)
      by (unfold plugin_at; by rewrite Hp3, Hp1).
    by rewrite Hpc. }
  split.
  - rewrite Ht3, Ht1. rewrite <- !app_assoc. done.
  - by rewrite Hm3, Hm1.
Qed.

(** Whatever its outcome, a registration only makes calls that concern the
    module registered, and leaves the names already installed installed. *)
Lemma registerXModule_inv this xModule w w1 r :
  registerXModule this xModule w = (w1, r) ->
  (∃ t, trace w1 = trace w ++ t ∧ Forall (only_concerns (name xModule)) t) ∧
  installed w this ⊆ installed w1 this.
Proof.
  intros H.
  destruct (decide (name xModule ∈ installed w this)) as [Hin | Hnot].
  { rewrite registerXModule_installed in H by done. inversion H; subst.
    split; [| done]. exists []. by rewrite app_nil_r. }
  split.
  - assert (He : emits (only_concerns (name xModule)) (registerXModule this xModule)).
    { unfold registerXModule.
      emits_auto;
        auto using emits_registerStoreModule, emits_registerWiring,
          emits_registerStoreEmitters. }
    exact (He _ _ _ H).
  - destruct r as [[] | e].
    + apply registerXModule_ret in H as (_ & _ & _ & _ & _ & _ & Hp & _); [| done].
      unfold installed at 2, plugin_at. rewrite Hp, lookup_insert_eq. simpl.
      set_solver.
    + assert (Hp : plugins w1 = plugins w).
      { unfold registerXModule in H.
        apply bind_inv in H as [(? & H1 & _) | (self & wa & H1 & H)];
          apply gets_inv in H1 as [-> ?]; [done |].
        rewrite decide_False in H by (by simplify_eq).
        apply bind_inv in H as [(? & H1 & _) | ([] & wa & H1 & H)];
          pose proof (keeps_registerStoreModule plugins _ _ _ _ _ _ H1) as Hp1;
          [done |].
        apply bind_inv in H as [(? & H2 & _) | ([] & wb & H2 & H)];
          pose proof (keeps_registerWiring plugins _ _ _ _ _ _ H2) as Hp2;
          [congruence |].
        apply bind_inv in H as [(? & H3 & _) | ([] & wc & H3 & H)];
          pose proof (keeps_registerStoreEmitters plugins _ _ _ _ _ _ _ H3) as Hp3;
          [congruence |].
        apply modify_inv in H as [_ ?]. done. }
      unfold installed, plugin_at. by rewrite Hp.
Qed.






(** ** Properties of the pending modules *)

(** A sequence of registration requests made through the class. *)
Fixpoint requests (xModules : list XModule) : M unit :=
  match xModules with
  | [] => ret tt
  | xModule :: rest => do! XPlugin_registerXModule xModule in requests rest
  end.



(** A queue holds one descriptor per name, under the name of the descriptor. *)
Definition queue_wf (q : list (string * XModule)) : Prop :=
  NoDup (keys q) ∧ ∀ k xModule, (k, xModule) ∈ q -> name xModule = k.

Definition is_register (n : string) (e : Effect) : bool :=
  match e with
  | ERegisterModule _ path _ => bool_decide (path = ["x"; n])
  | _ => false
  end.

(** How many times the store module of [n] was registered in a trace. *)
Definition registered (n : string) (t : list Effect) : nat :=
  length (filter (fun e => is_register n e = true) t).





Lemma queue_wf_set_field q xModule :
  queue_wf q -> queue_wf (set_field (name xModule) xModule q).
Proof.
  intros [Hnd Hk]. split.
  - destruct (get_field (name xModule) q) as [x |] eqn:Hin.
    + by rewrite keys_set_field_old by (by exists x).
    + rewrite keys_set_field_new by done. apply NoDup_cons.
      split; [by apply get_field_None | done].
  - intros k x Hin. apply elem_of_set_field in Hin as [[= -> ->] | Hin]; [done |].
    by apply Hk.
Qed.















(** ** Properties of the configuration updates *)

Lemma isObject_inv v : isObject v = true -> ∃ fs, v = VObj false fs.
Proof.
  unfold isObject. destruct v as [| | b | n | s | f | [] fs]; simpl;
    rewrite ?andb_false_r; try discriminate. eauto.
Qed.

Lemma wf_get_field a fs k v : wf (VObj a fs) -> get_field k fs = Some v -> wf v.
Proof.
  intros [_ Hall]. induction fs as [| [k0 v0] fs IH]; simpl; [done |].
  destruct Hall as [Hv0 Hall]. case_decide; [by intros [= <-] | by apply IH].
Qed.

Lemma get_field_merge_fields k tfs sfs :
  NoDup (keys sfs) ->
  get_field k (merge_fields tfs sfs)
  = match get_field k sfs with
    | Some v => Some (merge_value (get_field k tfs) v)
    | None => get_field k tfs
    end.
Proof.
  unfold merge_fields, keys. revert tfs.
  induction sfs as [| [k0 v0] sfs IH]; intros tfs Hnd; [done |].
  rewrite fmap_cons in Hnd. apply NoDup_cons in Hnd as [Hk0 Hnd].
  cbn [merge_fields_with get_field]. rewrite (IH _ Hnd), get_field_set_field.
  destruct (decide (k0 = k)) as [-> | Hne].
  - apply (proj2 (get_field_None k sfs)) in Hk0. by rewrite Hk0.
  - done.
Qed.

Definition fields_of (v : value) : list (string * value) :=
  match v with VObj false fs => fs | _ => [] end.

Lemma deepMerge_object t sfs :
  deepMerge t (VObj false sfs) = VObj false (merge_fields (fields_of t) sfs).
Proof. unfold deepMerge. simpl. by destruct t as [| | | | | | [] tfs]. Qed.

Lemma merge_value_object o sfs :
  merge_value o (VObj false sfs) = deepMerge (default VUndefined o) (VObj false sfs).
Proof.
  rewrite deepMerge_object. simpl. by destruct o as [[| | | | | | [] tfs] |].
Qed.

Lemma get_path_fields t k p :
  get_path t (k :: p)
  = match get_field k (fields_of t) with Some v => get_path v p | None => None end.
Proof. by destruct t as [| | | | | | [] tfs]. Qed.

(** The fields the update does not speak of keep their value. *)
Lemma deepMerge_frame p :
  ∀ t update, wf update -> isObject update = true -> mentioned update p = false ->
    get_path (deepMerge t update) p = get_path t p.
Proof.
  induction p as [| k p IH]; intros t update Hwf Hobj Hm; [discriminate |].
  apply isObject_inv in Hobj as [sfs ->].
  rewrite deepMerge_object. rewrite (get_path_fields t). cbn [get_path mentioned] in *.
  rewrite get_field_merge_fields by apply Hwf.
  destruct (get_field k sfs) as [v |] eqn:Hk; [| done].
  destruct (isObject v) eqn:Hv; [| discriminate].
  pose proof (wf_get_field _ _ _ _ Hwf Hk) as Hwfv.
  destruct (isObject_inv _ Hv) as [fs ->].
  rewrite merge_value_object, (IH _ _ Hwfv Hv Hm).
  destruct (get_field k (fields_of t)) as [tk |]; [done |]. simpl.
  destruct p; [discriminate | done].
Qed.

(** The fields the update gives a value to take that value. *)
Lemma deepMerge_update p :
  ∀ t update v, wf update -> isObject update = true -> p ≠ [] ->
    get_path update p = Some v -> isObject v = false ->
    get_path (deepMerge t update) p = Some v.
Proof.
  induction p as [| k p IH]; intros t update v Hwf Hobj Hp Hv Hleaf; [done |].
  apply isObject_inv in Hobj as [sfs ->].
  rewrite deepMerge_object. cbn [get_path] in *.
  rewrite get_field_merge_fields by apply Hwf.
  destruct (get_field k sfs) as [uk |] eqn:Hk; [| discriminate].
  pose proof (wf_get_field _ _ _ _ Hwf Hk) as Hwfu.
  destruct p as [| k' p].
  - inversion Hv; subst uk. simpl.
    destruct v as [| | | | | | [] fs]; try done.
  - destruct uk as [| | | | | | [] fs]; try discriminate.
    rewrite merge_value_object. by apply IH.
Qed.

(** C8: [setConfig] merges the update into the object the instance already
    holds: the reference kept in [xConfig] is the one it was, the other
    objects are untouched, every field the update does not speak of keeps its
    value at every depth, and every field the update gives a value to takes
    that value. *)
Theorem setConfig_merges_in_place this config c current w :
  p_xConfig (plugin_at w this) = Some c ->
  objects w !! c = Some current ->
  wf config ->
  isObject config = true ->
  ∃ w1,
    setConfig this config w = (w1, Ret tt) ∧
    p_xConfig (plugin_at w1 this) = Some c ∧
    objects w1 !! c = Some (deepMerge current config) ∧
    (∀ c', c' ≠ c -> objects w1 !! c' = objects w !! c') ∧
    (∀ p, mentioned config p = false ->
       get_path (deepMerge current config) p = get_path current p) ∧
    (∀ p v, p ≠ [] -> get_path config p = Some v -> isObject v = false ->
       get_path (deepMerge current config) p = Some v).
Proof.
  intros Hx Hc Hwf Hobj. eexists. split.
  { unfold setConfig, bind, this_, gets. rewrite Hx. unfold modify. rewrite Hc.
    reflexivity. }
  split; [done |]. split; [simpl; apply lookup_insert_eq |].
  split; [intros c' Hc'; simpl; by apply lookup_insert_ne |].
  split.
  - intros p Hp. by apply deepMerge_frame.
  - intros p v Hp Hv Hleaf. by apply deepMerge_update.
Qed.

(** ** The type guards of the utilities *)

(** X1: [isFunction] holds of the functions and of nothing else, [isObject]
    of the objects that are not arrays and of nothing else: [null], whose
    [typeof] is ['object'], and the arrays are no objects for the guard, and
    no value passes both guards. *)
Theorem type_guards_characterised v :
  (isFunction v = true <-> ∃ id, v = VFun id) ∧
  (isObject v = true <-> ∃ fs, v = VObj false fs) ∧
  isObject VNull = false ∧
  (∀ fs, isObject (VObj true fs) = false) ∧
  isFunction v && isObject v = false.
Proof.
  split; [| split; [| split; [done | split; [done |]]]].
  - split.
    + unfold isFunction. destruct v; simpl; rewrite ?andb_false_r; try discriminate.
      eauto.
    + by intros [id ->].
  - split; [apply isObject_inv | by intros [fs ->]].
  - unfold isFunction, isObject.
    destruct v as [| | b | n | s | f | [] fs]; simpl; rewrite ?andb_false_r; by simpl.
Qed.

(** ** What changes in one direction only *)

(** [evolves R f m]: whatever its outcome, [m] takes the part [f] of the
    world to one related to it by [R]. *)
Definition evolves {A B} (R : relation A) (f : World -> A) (m : M B) : Prop :=
  ∀ w w' r, m w = (w', r) -> R (f w) (f w').

(** A flag that is never lowered. *)
Definition stays (a b : bool) : Prop := a = true -> b = true.

Global Instance stays_preorder : PreOrder stays.
Proof.
  split; [intros a Ha; exact Ha | intros a b c Hab Hbc Ha; apply Hbc, Hab, Ha].
Qed.

Section Evolves.
Context {A : Type} (R : relation A) `{!PreOrder R}.

Lemma evolves_keeps {B} (f : World -> A) (m : M B) : keeps f m -> evolves R f m.
Proof. intros Hk w w' r H. by rewrite (Hk _ _ _ H). Qed.

Lemma evolves_bind {B C} (f : World -> A) (m : M B) (k : B -> M C) :
  evolves R f m -> (∀ b, evolves R f (k b)) -> evolves R f (bind m k).
Proof.
  intros Hm Hk w w' r H.
  apply bind_inv in H as [(e & H1 & _) | (a & w1 & H1 & H2)].
  - eapply Hm, H1.
  - etrans; [eapply Hm, H1 | eapply Hk, H2].
Qed.

Lemma evolves_forEach {K V} (f : World -> A) (l : list (K * V)) (g : K -> V -> M unit) :
  (∀ k v, evolves R f (g k v)) -> evolves R f (forEach l g).
Proof.
  intros Hg. induction l as [| [k v] l IH].
  - apply evolves_keeps, keeps_ret.
  - rewrite forEach_cons. apply evolves_bind; [apply Hg | intros _; exact IH].
Qed.

(** The field [g] of the instance [p], under the writes of a call made on
    the instance [this]: a write [upd] counts when [p] is [this] only. *)
Context (g : XPlugin -> A) (p this : loc).

Definition allowed (upd : XPlugin -> XPlugin) : Prop :=
  p = this -> ∀ x, R (g x) (g (upd x)).

Lemma evolves_update_this upd :
  allowed upd -> evolves R (field g p) (update_this this upd).
Proof.
  intros Hu w w' r H. apply modify_inv in H as [-> _].
  unfold field. rewrite plugin_at_update.
  case_decide as Hp; [| reflexivity].
  rewrite Hp at 1. apply (Hu Hp).
Qed.

Lemma evolves_registerXModule xModule :
  (∀ n, allowed (fun self =>
          set_installedXModules ({[n]} ∪ p_installedXModules self) self)) ->
  evolves R (field g p) (registerXModule this xModule).
Proof.
  intros Hi. unfold registerXModule.
  apply evolves_bind; [apply evolves_keeps, keeps_this | intros self].
  case_decide; [apply evolves_keeps, keeps_ret |].
  apply evolves_bind; [apply evolves_keeps, keeps_registerStoreModule, _ | intros _].
  apply evolves_bind; [apply evolves_keeps, keeps_registerWiring, _ | intros _].
  apply evolves_bind; [apply evolves_keeps, keeps_registerStoreEmitters, _ | intros _].
  apply evolves_update_this, Hi.
Qed.

Lemma evolves_registerConfig :
  (∀ c, allowed (set_xConfig c)) -> evolves R (field g p) (registerConfig this).
Proof.
  intros Hc. unfold registerConfig.
  apply evolves_bind; [apply evolves_keeps, keeps_this | intros self].
  apply evolves_bind; [apply evolves_keeps, keeps_defined | intros options].
  apply evolves_bind;
    [apply evolves_keeps, keeps_createAdapterConfigChangedListener, _ | intros _].
  apply evolves_bind; [| intros c; apply evolves_update_this, Hc].
  apply evolves_keeps. unfold registerReactiveConfig.
  pose proof (stable_field g p). keeps_auto.
Qed.

Lemma evolves_registerStore :
  (∀ s, allowed (set_store s)) -> evolves R (field g p) (registerStore this).
Proof.
  intros Hs. unfold registerStore. pose proof (stable_field g p).
  apply evolves_bind; [apply evolves_keeps, keeps_this | intros self].
  apply evolves_bind; [apply evolves_keeps, keeps_defined | intros vue].
  apply evolves_bind; [apply evolves_keeps; keeps_auto | intros _].
  apply evolves_bind; [apply evolves_keeps, keeps_defined | intros options].
  apply evolves_bind; [apply evolves_keeps; keeps_auto | intros store].
  apply evolves_bind; [apply evolves_update_this, Hs | intros _].
  apply evolves_bind; [apply evolves_keeps; keeps_auto | intros _].
  apply evolves_keeps, keeps_store_registerModule, _.
Qed.

Lemma evolves_registerPendingXModules :
  (∀ n, allowed (fun self =>
          set_installedXModules ({[n]} ∪ p_installedXModules self) self)) ->
  evolves R (field g p) (registerPendingXModules this).
Proof.
  intros Hi. unfold registerPendingXModules.
  apply evolves_bind; [apply evolves_keeps, keeps_gets | intros pending].
  apply evolves_bind; [| intros _; apply evolves_keeps; keeps_auto].
  apply evolves_forEach. intros _ xModule. by apply evolves_registerXModule.
Qed.

Lemma evolves_install vue options :
  (∀ v o, allowed (set_install_arguments v o)) ->
  (∀ c, allowed (set_xConfig c)) ->
  (∀ s, allowed (set_store s)) ->
  (∀ n, allowed (fun self =>
          set_installedXModules ({[n]} ∪ p_installedXModules self) self)) ->
  allowed (set_isInstalled true) ->
  evolves R (field g p) (install this vue options).
Proof.
  intros Ha Hc Hs Hi Hf. unfold install. pose proof (stable_field g p).
  apply evolves_bind; [apply evolves_keeps, keeps_this | intros self].
  destruct (p_isInstalled self); [apply evolves_keeps, keeps_throw |].
  apply evolves_bind;
    [apply evolves_keeps; unfold assertXPluginOptionsAreValid; keeps_auto | intros opts].
  apply evolves_bind; [apply evolves_keeps; keeps_auto | intros _].
  apply evolves_bind; [apply evolves_update_this, Ha | intros _].
  apply evolves_bind; [by apply evolves_registerConfig | intros _].
  apply evolves_bind; [by apply evolves_registerStore | intros _].
  apply evolves_bind; [apply evolves_keeps, keeps_applyMixins, _ | intros _].
  apply evolves_bind; [apply evolves_keeps, keeps_registerFilters, _ | intros _].
  apply evolves_bind; [by apply evolves_registerPendingXModules | intros _].
  apply evolves_update_this, Hf.
Qed.
End Evolves.

(** A call on an instance writes to no other instance. *)
Lemma install_other_instances this vue options p w w1 r :
  p ≠ this -> install this vue options w = (w1, r) -> plugin_at w1 p = plugin_at w p.
Proof.
  intros Hp H. symmetry.
  apply (evolves_install eq (fun x => x) p this vue options) in H;
    [exact H | | | | |]; intros; by intros ?.
Qed.

Lemma registerXModule_other_instances this xModule p w w1 r :
  p ≠ this -> registerXModule this xModule w = (w1, r) -> plugin_at w1 p = plugin_at w p.
Proof.
  intros Hp H. symmetry.
  apply (evolves_registerXModule eq (fun x => x) p this xModule) in H;
    [exact H |]; intros; by intros ?.
Qed.

(** ** The calls open to the clients of the class *)

Inductive operation : Type :=
| Install (this : loc) (vue : nat) (options : option XPluginOptions)
| RegisterXModule (xModule : XModule)
| ResetInstance
| SetConfig (this : loc) (config : value)
| RunTask (t : Task)
| WatchCallback (watcher : Watcher) (newValue oldValue : value).

Definition perform (op : operation) : M unit :=
  match op with
  | Install this vue options => install this vue options
  | RegisterXModule xModule => XPlugin_registerXModule xModule
  | ResetInstance => resetInstance
  | SetConfig this config => setConfig this config
  | RunTask t => run_task t
  | WatchCallback watcher newValue oldValue => watch_callback watcher newValue oldValue
  end.

(** The worlds reached by calls of the clients, whatever their arguments and
    their outcomes. *)
Inductive reaches : World -> World -> Prop :=
| reaches_refl w : reaches w w
| reaches_step op w w1 r w2 :
    perform op w = (w1, r) -> reaches w1 w2 -> reaches w w2.

Lemma keeps_setConfig {A} (f : World -> A) this config :
  (∀ os w, f (with_objects os w) = f w) -> keeps f (setConfig this config).
Proof.
  intros Ho. unfold setConfig. keeps_auto.
  apply keeps_modify. intros w. destruct (objects w !! _); [apply Ho | done].
Qed.

Lemma keeps_run_task {A} (f : World -> A) `{!Stable f} t : keeps f (run_task t).
Proof. unfold run_task. keeps_auto. Qed.

Lemma keeps_watch_callback {A} (f : World -> A) `{!Stable f} watcher newValue oldValue :
  keeps f (watch_callback watcher newValue oldValue).
Proof. unfold watch_callback. keeps_auto. Qed.

Section EvolvesPerform.
Context {A : Type} (R : relation A) `{!PreOrder R} (g : XPlugin -> A) (p : loc).

Lemma evolves_XPlugin_registerXModule xModule :
  (∀ n x, R (g x) (g (set_installedXModules ({[n]} ∪ p_installedXModules x) x))) ->
  evolves R (field g p) (XPlugin_registerXModule xModule).
Proof.
  intros Hi. unfold XPlugin_registerXModule.
  apply (evolves_bind R); [apply (evolves_keeps R), keeps_gets | intros [this |]].
  - apply (evolves_registerXModule R). intros n _ x. apply Hi.
  - apply (evolves_keeps R). unfold lazyRegisterXModule. keeps_auto.
Qed.

(** The calls other than [install] write the set of installed modules
    only. *)
Lemma evolves_perform_registered op :
  (∀ this vue options, op ≠ Install this vue options) ->
  (∀ n x, R (g x) (g (set_installedXModules ({[n]} ∪ p_installedXModules x) x))) ->
  evolves R (field g p) (perform op).
Proof.
  intros Hop Hi. pose proof (stable_field g p).
  destruct op as [this vue options | xModule | | this config | t | watcher nv ov]; simpl.
  - by destruct (Hop this vue options).
  - by apply evolves_XPlugin_registerXModule.
  - apply (evolves_keeps R). unfold resetInstance. keeps_auto.
  - apply (evolves_keeps R), keeps_setConfig. done.
  - apply (evolves_keeps R), keeps_run_task, _.
  - apply (evolves_keeps R), keeps_watch_callback, _.
Qed.

Lemma evolves_perform op :
  (∀ v o x, R (g x) (g (set_install_arguments v o x))) ->
  (∀ c x, R (g x) (g (set_xConfig c x))) ->
  (∀ s x, R (g x) (g (set_store s x))) ->
  (∀ n x, R (g x) (g (set_installedXModules ({[n]} ∪ p_installedXModules x) x))) ->
  (∀ x, R (g x) (g (set_isInstalled true x))) ->
  evolves R (field g p) (perform op).
Proof.
  intros Ha Hc Hs Hi Hf.
  destruct op as [this vue options | xModule | | this config | t | watcher nv ov];
    try (apply evolves_perform_registered; [done | done]).
  simpl. apply (evolves_install R); intros; intros _ ?; auto.
Qed.

Lemma reaches_evolves w w' :
  (∀ v o x, R (g x) (g (set_install_arguments v o x))) ->
  (∀ c x, R (g x) (g (set_xConfig c x))) ->
  (∀ s x, R (g x) (g (set_store s x))) ->
  (∀ n x, R (g x) (g (set_installedXModules ({[n]} ∪ p_installedXModules x) x))) ->
  (∀ x, R (g x) (g (set_isInstalled true x))) ->
  reaches w w' -> R (field g p w) (field g p w').
Proof.
  intros Ha Hc Hs Hi Hf. induction 1 as [w | op w w1 r w2 Hstep _ IH]; [done |].
  etrans; [| exact IH]. by apply (evolves_perform op Ha Hc Hs Hi Hf) in Hstep.
Qed.
End EvolvesPerform.

(** ** The calls of the installation *)

(** The call [adapter.addConfigChangedListener?.(...)]. *)
Definition listener_calls (a : Adapter) : list Effect :=
  if addConfigChangedListener a then [EConfigListener (adapter_id a)] else [].

(** The calls of [registerStore]; [fresh] is the store created when the
    options bring none. *)
Definition store_calls (vue : nat) (store : option loc) (fresh : loc) : list Effect :=
  match store with
  | Some s => [EVueUse vue; ERegisterModule s ["x"] (RootXStoreModule host)]
  | None => [EVueUse vue; ENewStore fresh; EInjectStore vue fresh;
             ERegisterModule fresh ["x"] (RootXStoreModule host)]
  end.

Definition filter_calls (vue : nat) (registry : list (string * Filter)) : list Effect :=
  map (fun nf => EFilter vue nf.1 nf.2) registry.

(** The calls of the registration of a module: a store module registered
    under ['x'], an observable asked of the bus, a wire, a watcher. *)
Definition module_call (e : Effect) : Prop :=
  match e with
  | ERegisterModule _ [_; _] _ | EBusOn _ _ _ | EWire _ _ _ _ _ | EWatch _ _ => True
  | _ => False
  end.

Lemma plugin_at_insert w w1 this x :
  plugins w1 = <[this := x]> (plugins w) -> plugin_at w1 this = x.
Proof. intros H. unfold plugin_at. by rewrite H, lookup_insert_eq. Qed.

Lemma createAdapterConfigChangedListener_ret adapter w w1 :
  createAdapterConfigChangedListener adapter w = (w1, Ret tt) ->
  ∃ a, adapter = Some a ∧ w1 = with_trace (trace w ++ listener_calls a) w.
Proof.
  unfold createAdapterConfigChangedListener, listener_calls. intros H.
  apply bind_ret_inv in H as (a & wa & H1 & H).
  apply defined_ret_inv in H1 as [-> ->].
  exists a. split; [done |].
  destruct (addConfigChangedListener a).
  - by apply call_inv in H.
  - apply ret_inv in H as [-> _]. by rewrite app_nil_r, with_trace_id.
Qed.

Lemma registerConfig_calls this w w1 :
  registerConfig this w = (w1, Ret tt) ->
  ∃ options a,
    p_options (plugin_at w this) = Some options ∧ o_adapter options = Some a ∧
    plugins w1 = <[this := set_xConfig (next w) (plugin_at w this)]> (plugins w) ∧
    trace w1
    = trace w ++ listener_calls a ++ [EReactiveConfig (p_bus (plugin_at w this)) (next w)] ∧
    objects w1 = <[next w := initial_config options]> (objects w) ∧
    next w1 = S (next w) ∧ pendingXModules w1 = pendingXModules w.
Proof.
  unfold registerConfig. intros H.
  apply bind_ret_inv in H as (self & wa & H1 & H).
  apply gets_inv in H1 as [-> [= ->]].
  apply bind_ret_inv in H as (options & wb & H1 & H).
  apply defined_ret_inv in H1 as [-> Ho].
  apply bind_ret_inv in H as ([] & wc & H1 & H).
  apply createAdapterConfigChangedListener_ret in H1 as (a & Ha & ->).
  apply bind_ret_inv in H as (c & wd & H2 & H).
  unfold registerReactiveConfig in H2.
  apply bind_ret_inv in H2 as (c' & we & H3 & H2).
  apply fresh_loc_inv in H3 as [-> [= ->]].
  apply bind_ret_inv in H2 as ([] & wf & H3 & H2).
  apply modify_inv in H3 as [-> _].
  apply bind_ret_inv in H2 as ([] & wg & H3 & H2).
  apply call_inv in H3 as ->.
  apply ret_inv in H2 as [-> [= ->]].
  apply modify_inv in H as [-> _].
  exists options, a. simpl. by rewrite <- app_assoc.
Qed.

Lemma keeps_next_store_registerModule s path sm :
  keeps next (store_registerModule s path sm).
Proof.
  unfold store_registerModule. keeps_auto.
  intros w w' r H. apply call_inv in H as ->. reflexivity.
Qed.

Lemma registerStore_calls this w w1 :
  registerStore this w = (w1, Ret tt) ->
  ∃ vue options,
    p_vue (plugin_at w this) = Some vue ∧ p_options (plugin_at w this) = Some options ∧
    plugins w1
    = <[this := set_store (default (next w) (o_store options)) (plugin_at w this)]>
        (plugins w) ∧
    trace w1 = trace w ++ store_calls vue (o_store options) (next w) ∧
    next w1 = match o_store options with Some _ => next w | None => S (next w) end ∧
    pendingXModules w1 = pendingXModules w.
Proof.
  unfold registerStore. intros H.
  apply bind_ret_inv in H as (self & wa & H1 & H).
  apply gets_inv in H1 as [-> [= ->]].
  apply bind_ret_inv in H as (vue & wa & H1 & H).
  apply defined_ret_inv in H1 as [-> Hv].
  apply bind_ret_inv in H as ([] & wa & H1 & H).
  apply call_inv in H1 as ->.
  apply bind_ret_inv in H as (options & wb & H1 & H).
  apply defined_ret_inv in H1 as [-> Ho].
  exists vue, options. split; [done |]. split; [done |].
  destruct (o_store options) as [s |].
  - apply bind_ret_inv in H as (s' & wb & H1 & H).
    apply ret_inv in H1 as [-> [= ->]].
    apply bind_ret_inv in H as ([] & wb & H1 & H).
    apply modify_inv in H1 as [-> _].
    apply bind_ret_inv in H as ([] & wb & H1 & H).
    apply ret_inv in H1 as [-> _].
    pose proof (keeps_store_registerModule pendingXModules _ _ _ _ _ _ H) as Hq.
    pose proof (keeps_next_store_registerModule _ _ _ _ _ _ H) as Hn.
    apply store_registerModule_inv in H as (Ht & Hp & _ & _).
    simpl in *. rewrite Ht, Hp, <- app_assoc. done.
  - apply bind_ret_inv in H as (s' & wb & H1 & H).
    apply bind_ret_inv in H1 as (s & wc & H2 & H1).
    apply fresh_loc_inv in H2 as [-> [= ->]].
    apply bind_ret_inv in H1 as ([] & wc & H2 & H1).
    apply call_inv in H2 as ->.
    apply bind_ret_inv in H1 as ([] & wc & H2 & H1).
    apply modify_inv in H2 as [-> _].
    apply ret_inv in H1 as [-> [= ->]].
    apply bind_ret_inv in H as ([] & wb & H1 & H).
    apply modify_inv in H1 as [-> _].
    apply bind_ret_inv in H as ([] & wb & H1 & H).
    apply modify_inv in H1 as [-> _].
    pose proof (keeps_store_registerModule pendingXModules _ _ _ _ _ _ H) as Hq.
    pose proof (keeps_next_store_registerModule _ _ _ _ _ _ H) as Hn.
    apply store_registerModule_inv in H as (Ht & Hp & _ & _).
    simpl in *. rewrite Ht, Hp, <- !app_assoc. done.
Qed.

Lemma applyMixins_ret this w w1 :
  applyMixins this w = (w1, Ret tt) ->
  ∃ vue,
    p_vue (plugin_at w this) = Some vue ∧
    w1 = with_trace
           (trace w ++
            [EMixin vue (p_bus (plugin_at w this)) (p_xConfig (plugin_at w this))]) w.
Proof.
  unfold applyMixins. intros H.
  apply bind_ret_inv in H as (self & wa & H1 & H).
  apply gets_inv in H1 as [-> [= ->]].
  apply bind_ret_inv in H as (vue & wa & H1 & H).
  apply defined_ret_inv in H1 as [-> Hv].
  apply call_inv in H as ->. eauto.
Qed.

Lemma registerFilters_ret this vue w w1 :
  p_vue (plugin_at w this) = Some vue ->
  registerFilters this w = (w1, Ret tt) ->
  w1 = with_trace (trace w ++ filter_calls vue (FILTERS_REGISTRY host)) w.
Proof.
  unfold registerFilters. generalize (FILTERS_REGISTRY host) as registry. intros registry.
  revert w. induction registry as [| [filterName filterFunction] registry IH]; intros w Hv H.
  - apply ret_inv in H as [-> _]. simpl. by rewrite app_nil_r, with_trace_id.
  - rewrite forEach_cons in H.
    apply bind_ret_inv in H as ([] & wa & H1 & H).
    apply bind_ret_inv in H1 as (self & wb & H2 & H1).
    apply gets_inv in H2 as [-> [= ->]].
    apply bind_ret_inv in H1 as (vue' & wb & H2 & H1).
    apply defined_ret_inv in H2 as [-> Hv'].
    rewrite Hv in Hv'. injection Hv' as <-.
    apply call_inv in H1 as ->.
    apply IH in H as ->; [| done]. simpl. by rewrite <- app_assoc.
Qed.

Lemma emits_module_call this xModule : emits module_call (registerXModule this xModule).
Proof.
  unfold registerXModule, registerStoreModule, registerWiring, registerStoreEmitters,
    registerStoreEmitter.
  emits_auto; try exact I;
    apply emits_keeps;
    first [apply keeps_trace_customizeStoreModule | apply keeps_trace_addConfigMutation].
Qed.

Lemma registerPendingXModules_calls this w w1 :
  registerPendingXModules this w = (w1, Ret tt) ->
  ∃ t, trace w1 = trace w ++ t ∧ Forall module_call t ∧ (pendingXModules w = [] -> t = []).
Proof.
  unfold registerPendingXModules. intros H.
  apply bind_ret_inv in H as (pending & wa & H1 & H).
  apply gets_inv in H1 as [-> [= ->]].
  apply bind_ret_inv in H as ([] & wa & H1 & H).
  apply modify_inv in H as [-> _]. simpl.
  destruct (pendingXModules w) as [| kv q] eqn:Hq.
  - apply ret_inv in H1 as [-> _]. exists []. by rewrite app_nil_r.
  - assert (He : emits module_call
              (forEach (kv :: q) (fun _ xModule => registerXModule this xModule))).
    { apply emits_forEach. intros _ xModule. apply emits_module_call. }
    destruct (He _ _ _ H1) as (t & Ht & HP). exists t. done.
Qed.

(** X2: [registerStore] installs Vuex, then takes the store of the options
    when there is one and creates one otherwise; only a store it created is
    injected as [$store] in the Vue prototype; in both cases the root module
    is registered under ['x'] on the store the instance keeps. *)
Theorem registerStore_reuses_or_creates_store this w w1 :
  registerStore this w = (w1, Ret tt) ->
  ∃ vue options,
    p_vue (plugin_at w this) = Some vue ∧
    p_options (plugin_at w this) = Some options ∧
    match o_store options with
    | Some s =>
        p_store (plugin_at w1 this) = Some s ∧
        trace w1
        = trace w ++ [EVueUse vue; ERegisterModule s ["x"] (RootXStoreModule host)]
    | None =>
        ∃ s,
          p_store (plugin_at w1 this) = Some s ∧
          trace w1
          = trace w ++ [EVueUse vue; ENewStore s; EInjectStore vue s;
                        ERegisterModule s ["x"] (RootXStoreModule host)]
    end.
Proof.
  intros H.
  apply registerStore_calls in H as (vue & options & Hv & Ho & Hp & Ht & Hn & _).
  exists vue, options. split; [done |]. split; [done |].
  rewrite (plugin_at_insert _ _ _ _ Hp), Ht.
  destruct (o_store options); [done |]. by exists (next w).
Qed.

(** X3: [registerConfig] reads the adapter in the options: it asks the
    adapter for the configuration changes when, and only when, the adapter
    has the hook, then creates the reactive configuration from the defaults
    and the configuration of the options, and keeps the reference. *)
Theorem registerConfig_asks_adapter_then_creates_config this w w1 :
  registerConfig this w = (w1, Ret tt) ->
  ∃ options a c,
    p_options (plugin_at w this) = Some options ∧
    o_adapter options = Some a ∧
    p_xConfig (plugin_at w1 this) = Some c ∧
    objects w1 !! c = Some (initial_config options) ∧
    trace w1
    = trace w ++
      (if addConfigChangedListener a then [EConfigListener (adapter_id a)] else []) ++
      [EReactiveConfig (p_bus (plugin_at w this)) c].
Proof.
  intros H.
  apply registerConfig_calls in H as (options & a & Ho & Ha & Hp & Ht & Hobj & _).
  exists options, a, (next w).
  rewrite (plugin_at_insert _ _ _ _ Hp), Ht, Hobj, lookup_insert_eq. done.
Qed.

(** The calls of a successful installation, up to the pending modules. *)
Lemma installation_calls this w w0 :
  installation this w = (w0, Ret tt) ->
  ∃ options a vue t,
    p_options (plugin_at w this) = Some options ∧ o_adapter options = Some a ∧
    p_vue (plugin_at w this) = Some vue ∧
    p_xConfig (plugin_at w0 this) = Some (next w) ∧
    p_store (plugin_at w0 this) = Some (default (S (next w)) (o_store options)) ∧
    trace w0
    = trace w ++ listener_calls a ++
      [EReactiveConfig (p_bus (plugin_at w this)) (next w)] ++
      store_calls vue (o_store options) (S (next w)) ++
      [EMixin vue (p_bus (plugin_at w this)) (Some (next w))] ++
      filter_calls vue (FILTERS_REGISTRY host) ++ t ∧
    Forall module_call t ∧ (pendingXModules w = [] -> t = []).
Proof.
  unfold installation. intros H.
  apply bind_ret_inv in H as ([] & wa & H1 & H).
  apply registerConfig_calls in H1 as (options & a & Ho & Ha & Hpa & Hta & _ & Hna & Hqa).
  pose proof (plugin_at_insert _ _ _ _ Hpa) as Hxa.
  apply bind_ret_inv in H as ([] & wb & H2 & H).
  apply registerStore_calls in H2 as (vue & options' & Hv & Ho' & Hpb & Htb & _ & Hqb).
  pose proof (plugin_at_insert _ _ _ _ Hpb) as Hxb.
  rewrite Hxa in Hv, Ho', Hxb. simpl in Hv, Ho'.
  rewrite Ho in Ho'. injection Ho' as <-.
  apply bind_ret_inv in H as ([] & wc & H3 & H).
  apply applyMixins_ret in H3 as (vue' & Hv' & ->).
  rewrite Hxb in Hv'. simpl in Hv'. rewrite Hv in Hv'. injection Hv' as <-.
  apply bind_ret_inv in H as ([] & wd & H4 & H).
  apply (registerFilters_ret _ vue) in H4 as ->;
    [| change (p_vue (plugin_at wb this) = Some vue); by rewrite Hxb].
  pose proof (keeps_registerPendingXModules (field p_xConfig this) _
                ltac:(done) ltac:(intros; by apply unaffected_field) _ _ _ H) as Hx.
  pose proof (keeps_registerPendingXModules (field p_store this) _
                ltac:(done) ltac:(intros; by apply unaffected_field) _ _ _ H) as Hs.
  apply registerPendingXModules_calls in H as (t & Ht & HP & Hnil).
  unfold field in Hx, Hs.
  change (plugin_at (with_trace _ (with_trace _ wb)) this) with (plugin_at wb this)
    in Hx, Hs.
  rewrite Hxb in Hx, Hs. simpl in Hx, Hs, Ht, Hnil.
  exists options, a, vue, t.
  split; [done |]. split; [done |]. split; [done |].
  split; [done |]. split; [by rewrite Hs, Hna |].
  split; [| split; [done | intros Hq; apply Hnil; congruence]].
  rewrite Ht, Htb, Hta, Hna, Hxb. simpl. by rewrite <- !app_assoc.
Qed.

(** X4: a successful [install] makes its calls in the order of its
    statements: the adapter is asked for its configuration changes (if it
    can be), the reactive configuration is created, the store is set up, the
    mixin is applied with the bus of the instance and the configuration the
    instance keeps, every filter of the registry is declared once in the
    order of the registry; only then come the calls that register the
    pending modules, and there are none when no module is pending. *)
Theorem install_sets_up_before_modules this vue options w w1 :
  install this vue options w = (w1, Ret tt) ->
  ∃ opts a c s t,
    options = Some opts ∧ o_adapter opts = Some a ∧
    p_xConfig (plugin_at w1 this) = Some c ∧
    p_store (plugin_at w1 this) = Some s ∧
    trace w1
    = trace w ++ listener_calls a ++
      [EReactiveConfig (p_bus (plugin_at w this)) c] ++
      store_calls vue (o_store opts) s ++
      [EMixin vue (p_bus (plugin_at w this)) (Some c)] ++
      filter_calls vue (FILTERS_REGISTRY host) ++ t ∧
    Forall module_call t ∧
    (pendingXModules w = [] -> t = []).
Proof.
  intros H.
  apply install_ret_inv in H as (opts & a & w0 & -> & Ha & _ & H & ->).
  apply installation_calls in H
    as (options & a' & vue' & t & Ho & Ha' & Hv & Hx & Hs & Ht & HP & Hnil).
  rewrite plugin_at_install_start, decide_True in Ho, Hv, Ht by done.
  simpl in Ho, Hv, Hx, Hs, Ht, Hnil. injection Ho as <-. injection Hv as <-.
  rewrite Ha in Ha'. injection Ha' as <-.
  exists opts, a, (next w), (default (S (next w)) (o_store opts)), t.
  rewrite plugin_at_update, decide_True by done. simpl.
  split; [done |]. split; [done |]. split; [done |]. split; [done |].
  split; [| done]. rewrite Ht. by destruct (o_store opts).
Qed.

(** ** The drain of the pending modules *)










(** ** The pending modules when the installation fails *)

Lemma registerPendingXModules_pending this w w1 r :
  registerPendingXModules this w = (w1, r) ->
  pendingXModules w1 = match r with Ret _ => [] | Throw _ => pendingXModules w end.
Proof.
  unfold registerPendingXModules. intros H.
  apply bind_inv in H as [(e & H1 & _) | (pending & wa & H1 & H)];
    apply gets_inv in H1 as [-> ?]; [done |].
  apply bind_inv in H as [(e & H1 & ->) | ([] & wb & H1 & H)].
  - assert (Hk : keeps pendingXModules
              (forEach pending (fun _ xModule => registerXModule this xModule))).
    { apply keeps_forEach. intros _ xModule.
      apply keeps_registerXModule; [apply _ | intros; apply _]. }
    exact (Hk _ _ _ H1).
  - by apply modify_inv in H as [-> ->].
Qed.

Lemma installation_pending this w w1 r :
  installation this w = (w1, r) ->
  pendingXModules w1 = match r with Ret _ => [] | Throw _ => pendingXModules w end.
Proof.
  unfold installation. intros H.
  apply bind_inv in H as [(e & H1 & ->) | ([] & wa & H1 & H)];
    pose proof (keeps_registerConfig pendingXModules _ ltac:(done)
                  ltac:(intros; apply _) _ _ _ H1) as E1; [done |].
  apply bind_inv in H as [(e & H2 & ->) | ([] & wb & H2 & H)];
    pose proof (keeps_registerStore pendingXModules _
                  ltac:(intros; apply _) _ _ _ H2) as E2; [congruence |].
  apply bind_inv in H as [(e & H3 & ->) | ([] & wc & H3 & H)];
    pose proof (keeps_applyMixins pendingXModules _ _ _ _ H3) as E3; [congruence |].
  apply bind_inv in H as [(e & H4 & ->) | ([] & wd & H4 & H)];
    pose proof (keeps_registerFilters pendingXModules _ _ _ _ H4) as E4; [congruence |].
  apply registerPendingXModules_pending in H. destruct r; [done | congruence].
Qed.

(** [install] with options that are rejected. *)
Lemma install_invalid this vue options w :
  p_isInstalled (plugin_at w this) = false ->
  options ≫= o_adapter = None ->
  install this vue options w = (w, Throw InvalidOptions).
Proof.
  intros Hflag Hno. unfold install, bind, this_, gets. rewrite Hflag.
  destruct options as [opts |]; [| done]. simpl in *. by rewrite Hno.
Qed.

Lemma install_pending this vue options w w1 r :
  install this vue options w = (w1, r) ->
  pendingXModules w1 = match r with Ret _ => [] | Throw _ => pendingXModules w end.
Proof.
  intros H.
  destruct (p_isInstalled (plugin_at w this)) eqn:Hflag.
  { rewrite install_installed in H by done. by simplify_eq. }
  destruct (options ≫= o_adapter) as [a |] eqn:Ha; cycle 1.
  { rewrite install_invalid in H by done. by simplify_eq. }
  destruct options as [opts |]; [simpl in Ha | done].
  rewrite (install_unfold _ _ _ a) in H by done.
  apply bind_inv in H as [(e & H1 & ->) | ([] & w0 & H1 & H)].
  - by apply installation_pending in H1.
  - apply installation_pending in H1. by apply modify_inv in H as [-> ->].
Qed.

Lemma install_grows this vue options p w w1 r :
  install this vue options w = (w1, r) -> installed w p ⊆ installed w1 p.
Proof.
  intros H.
  apply (evolves_install (⊆) p_installedXModules p this vue options) in H;
    [exact H | | | | |]; intros; intros _ ?; simpl; set_solver.
Qed.

(** X5: an [install] that throws, at whatever step, leaves the queue of the
    pending modules as it found it, and the modules it had registered before
    it failed stay installed on the instance: only an [install] that returns
    empties the queue. *)
Theorem failed_install_keeps_pending_modules this vue options w w1 e :
  install this vue options w = (w1, Throw e) ->
  pendingXModules w1 = pendingXModules w ∧ installed w this ⊆ installed w1 this.
Proof.
  intros H. split; [by apply install_pending in H |].
  exact (install_grows _ _ _ this _ _ _ H).
Qed.

(** ** What holds of every world the clients can reach *)

(** X6: the bus of an instance is the one its constructor received; no
    call of the clients, whatever its arguments and its outcome, changes
    it. *)
Theorem bus_is_fixed p w w' :
  reaches w w' -> p_bus (plugin_at w' p) = p_bus (plugin_at w p).
Proof.
  intros H.
  pose proof (reaches_evolves eq p_bus p w w' ltac:(done) ltac:(done) ltac:(done)
                ltac:(done) ltac:(done) H) as E.
  symmetry. exact E.
Qed.

(** X7: nothing the clients can call lowers the [isInstalled] flag of an
    instance or removes a name from its installed modules. *)
Theorem installation_is_permanent p w w' :
  reaches w w' ->
  (p_isInstalled (plugin_at w p) = true -> p_isInstalled (plugin_at w' p) = true) ∧
  installed w p ⊆ installed w' p.
Proof.
  intros H. split.
  - apply (reaches_evolves stays p_isInstalled p w w'); try done; by intros.
  - apply (reaches_evolves (⊆) p_installedXModules p w w'); try done.
    intros; simpl; set_solver.
Qed.

Lemma perform_queue_wf op w w1 r :
  perform op w = (w1, r) -> queue_wf (pendingXModules w) -> queue_wf (pendingXModules w1).
Proof.
  destruct op as [this vue options | xModule | | this config | t | watcher nv ov];
    simpl; intros H Hq.
  - apply install_pending in H. rewrite H. destruct r; [| done].
    split; [apply NoDup_nil_2 | intros k x Hin; by apply elem_of_nil in Hin].
  - unfold XPlugin_registerXModule in H.
    apply bind_inv in H as [(e & H1 & _) | (i & wa & H1 & H)];
      apply gets_inv in H1 as [-> ?]; [done |].
    destruct i as [this |].
    + by rewrite (keeps_registerXModule pendingXModules _ _
                    ltac:(intros; apply _) _ _ _ H).
    + apply modify_inv in H as [-> _]. simpl. by apply queue_wf_set_field.
  - by apply modify_inv in H as [-> _].
  - by rewrite (keeps_setConfig pendingXModules _ _ ltac:(done) _ _ _ H).
  - by rewrite (keeps_run_task pendingXModules _ _ _ _ H).
  - by rewrite (keeps_watch_callback pendingXModules _ _ _ _ _ _ H).
Qed.

(** X8: the queue of the pending modules holds at most one descriptor per
    name, each under its own name, in every world the clients can reach from
    one where it does, the initial world being one. *)
Theorem pending_queue_stays_well_formed w w' :
  queue_wf (pendingXModules initial_world) ∧
  (queue_wf (pendingXModules w) -> reaches w w' -> queue_wf (pendingXModules w')).
Proof.
  split.
  - split; [apply NoDup_nil_2 | intros k x Hin; by apply elem_of_nil in Hin].
  - intros Hq H. induction H as [w | op w w1 r w2 Hstep _ IH]; [done |].
    eapply IH, perform_queue_wf; eauto.
Qed.

(** The fields [install] assigns on its way: all of them are set on an
    instance that is installed. *)
Definition initialised (x : XPlugin) : Prop :=
  is_Some (p_options x) ∧ is_Some (p_adapter x) ∧ is_Some (p_vue x) ∧
  is_Some (p_store x) ∧ is_Some (p_xConfig x).

Definition complete (w : World) : Prop :=
  ∀ p, p_isInstalled (plugin_at w p) = true -> initialised (plugin_at w p).

Definition late_fields (x : XPlugin) :=
  (p_isInstalled x, p_options x, p_adapter x, p_vue x, p_store x, p_xConfig x).

Lemma late_fields_initialised x y :
  late_fields x = late_fields y ->
  (p_isInstalled x = true -> initialised x) ->
  p_isInstalled y = true -> initialised y.
Proof.
  unfold late_fields, initialised. intros [= -> -> -> -> -> ->]. done.
Qed.

Lemma install_complete this vue options w w1 r :
  install this vue options w = (w1, r) -> complete w -> complete w1.
Proof.
  intros H Hc p Hflag.
  destruct (decide (p = this)) as [-> | Hp]; cycle 1.
  { rewrite (install_other_instances _ _ _ _ _ _ _ Hp H) in *. by apply Hc. }
  destruct (p_isInstalled (plugin_at w this)) eqn:Hbefore.
  { rewrite install_installed in H by done. simplify_eq. by apply Hc. }
  destruct r as [[] | e].
  - apply install_ret_inv in H as (opts & a & w0 & -> & Ha & _ & H & ->).
    rewrite plugin_at_update, decide_True by done.
    pose proof (keeps_installation_field p_options this this
                  ltac:(done) ltac:(done) ltac:(done) _ _ _ H) as Hopt.
    pose proof (keeps_installation_field p_adapter this this
                  ltac:(done) ltac:(done) ltac:(done) _ _ _ H) as Had.
    pose proof (keeps_installation_field p_vue this this
                  ltac:(done) ltac:(done) ltac:(done) _ _ _ H) as Hvue.
    unfold field in Hopt, Had, Hvue.
    rewrite plugin_at_install_start, decide_True in Hopt, Had, Hvue by done.
    simpl in Hopt, Had, Hvue.
    apply installation_calls in H as (opts' & a' & vue' & t & _ & _ & _ & Hx & Hs & _).
    unfold initialised. simpl. rewrite Hopt, Had, Hvue, Hs, Hx, Ha. eauto 10.
  - exfalso.
    destruct (options ≫= o_adapter) as [a |] eqn:Ha; cycle 1.
    { rewrite install_invalid in H by done. simplify_eq. congruence. }
    destruct options as [opts |]; [simpl in Ha | done].
    rewrite (install_unfold _ _ _ a) in H by done.
    apply bind_inv in H as [(e' & H & _) | (a' & w0 & _ & H)]; cycle 1.
    { unfold update_this, modify in H. inversion H. }
    pose proof (keeps_installation_field p_isInstalled this this
                  ltac:(done) ltac:(done) ltac:(done) _ _ _ H) as Hfl.
    unfold field in Hfl. rewrite plugin_at_install_start, decide_True in Hfl by done.
    simpl in Hfl. congruence.
Qed.

Lemma perform_complete op w w1 r :
  perform op w = (w1, r) -> complete w -> complete w1.
Proof.
  intros H Hc.
  destruct op as [this vue options | xModule | | this config | t | watcher nv ov];
    [by eapply install_complete | | | | |];
    intros p;
    (apply (evolves_perform_registered eq late_fields p) in H; [| done | done]);
    (eapply late_fields_initialised; [exact H | apply Hc]).
Qed.

(** X9: in every world the clients can reach from the initial one, an
    instance whose [isInstalled] flag is set has its options, its adapter,
    its Vue, its store and its configuration: none of the fields declared
    without an initial value is left undefined on an installed instance.
    The adapter is there because the options that [install] accepts bring
    one, as the validation modelled from the spec has it. *)
Theorem installed_instance_is_initialised w w' :
  complete initial_world ∧
  (complete w -> reaches w w' -> complete w').
Proof.
  split; [intros p; discriminate |].
  intros Hc H. induction H as [w | op w w1 r w2 Hstep _ IH]; [done |].
  eapply IH, perform_complete; eauto.
Qed.

(** ** The static members around an installation *)

(** X10: [resetInstance] unsets the static instance and touches nothing
    else.  So after it the static accessors throw again and the requests of
    registration are queued again, while an instance that was installed is
    still installed: its [install] is rejected, and the modules queued from
    then on are not registered by it. *)
Theorem resetInstance_hides_installed_instance this vue options xModule w :
  p_isInstalled (plugin_at w this) = true ->
  resetInstance w = (with_instance None w, Ret tt) ∧
  get_adapter (with_instance None w) = (with_instance None w, Throw MustBeInstalled) ∧
  get_bus (with_instance None w) = (with_instance None w, Throw MustBeInstalled) ∧
  get_config (with_instance None w) = (with_instance None w, Throw MustBeInstalled) ∧
  XPlugin_registerXModule xModule (with_instance None w)
  = (with_pending (set_field (name xModule) xModule (pendingXModules w))
       (with_instance None w), Ret tt) ∧
  install this vue options (with_instance None w)
  = (with_instance None w, Throw AlreadyInstalled).
Proof.
  intros Hflag. split; [done |].
  destruct (accessors_unset (with_instance None w) eq_refl) as (Ha & Hb & Hc).
  split; [done |]. split; [done |]. split; [done |]. split; [done |].
  by apply install_installed.
Qed.

(** X11: [install] looks at the flag of its own instance only.  Whatever the
    static instance was, another instance that is installed say, a
    successful [install] makes its instance the static one, so that the
    static accessors answer for it, and it leaves every field of the other
    instances as it was: an instance installed before stays installed. *)
Theorem second_instance_takes_over this vue options w w1 :
  install this vue options w = (w1, Ret tt) ->
  instance w1 = Some this ∧
  get_bus w1 = (w1, Ret (p_bus (plugin_at w this))) ∧
  ∀ other, other ≠ this -> plugin_at w1 other = plugin_at w other.
Proof.
  intros H.
  assert (Hframe : ∀ other, other ≠ this -> plugin_at w1 other = plugin_at w other).
  { intros other Hother. exact (install_other_instances _ _ _ _ _ _ _ Hother H). }
  pose proof (evolves_install eq p_bus this this vue options
                ltac:(by intros) ltac:(by intros) ltac:(by intros) ltac:(by intros)
                ltac:(by intros) _ _ _ H) as Hbus.
  unfold field in Hbus.
  apply install_ret_inv in H as (opts & a & w0 & _ & _ & _ & H & ->).
  pose proof (keeps_installation_instance _ _ _ _ H) as Hi. simpl in Hi.
  assert (Hinst : instance
            (with_plugins (<[this := set_isInstalled true (plugin_at w0 this)]> (plugins w0))
               w0) = Some this) by exact Hi.
  split; [exact Hinst |]. split; [| exact Hframe].
  destruct (accessors_set _ _ Hinst) as (_ & Hb & _). by rewrite Hb, Hbus.
Qed.

(** X12: once [install] has accepted its options, whether it then returns or
    throws, this instance is the static instance: a request of registration
    made through the class goes to the instance at once and is never
    queued. *)
Theorem requests_after_install_are_not_queued this vue options a xModule w w1 r :
  p_isInstalled (plugin_at w this) = false ->
  o_adapter options = Some a ->
  install this vue (Some options) w = (w1, r) ->
  XPlugin_registerXModule xModule w1 = registerXModule this xModule w1 ∧
  ∀ w2 r2, XPlugin_registerXModule xModule w1 = (w2, r2) ->
           pendingXModules w2 = pendingXModules w1.
Proof.
  intros Hflag Ha H.
  assert (Hi : instance w1 = Some this).
  { rewrite (install_unfold _ _ _ a) in H by done.
    apply bind_inv in H as [(e & H & _) | ([] & w0 & H & H')].
    - by rewrite (keeps_installation_instance _ _ _ _ H).
    - apply modify_inv in H' as [-> _]. simpl.
      by rewrite (keeps_installation_instance _ _ _ _ H). }
  assert (Heq : XPlugin_registerXModule xModule w1 = registerXModule this xModule w1).
  { unfold XPlugin_registerXModule, bind at 1, gets. by rewrite Hi. }
  split; [exact Heq |]. intros w2 r2 H2. rewrite Heq in H2.
  exact (keeps_registerXModule pendingXModules _ _ ltac:(intros; apply _) _ _ _ H2).
Qed.

(** X13: a registration that throws, at whatever step, does not record the
    name as installed and writes to no field of an instance; the error is a
    TypeError or comes from a collaborator, and the calls made before it
    concern that module only.  A later registration of the name therefore
    starts over from the store module. *)
Theorem failed_registration_is_not_recorded this xModule w w1 e :
  registerXModule this xModule w = (w1, Throw e) ->
  foreign e ∧
  plugins w1 = plugins w ∧
  (name xModule ∉ installed w1 this) ∧
  instance w1 = instance w ∧
  pendingXModules w1 = pendingXModules w ∧
  ∃ t, trace w1 = trace w ++ t ∧ Forall (only_concerns (name xModule)) t.
Proof.
  intros H.
  pose proof (registerXModule_throws _ _ _ _ _ H) as Hforeign.
  pose proof (keeps_registerXModule instance _ _ ltac:(intros; apply _) _ _ _ H) as Hi.
  pose proof (keeps_registerXModule pendingXModules _ _ ltac:(intros; apply _) _ _ _ H)
    as Hq.
  destruct (registerXModule_inv _ _ _ _ _ H) as [Ht _].
  assert (Hnot : name xModule ∉ installed w this).
  { intros Hin. by rewrite registerXModule_installed in H. }
  assert (Hp : plugins w1 = plugins w).
  { unfold registerXModule in H.
    apply bind_inv in H as [(? & H1 & _) | (self & wa & H1 & H)];
      apply gets_inv in H1 as [-> ?]; [done |].
    rewrite decide_False in H by (by simplify_eq).
    apply bind_inv in H as [(? & H1 & _) | ([] & wa & H1 & H)];
      pose proof (keeps_registerStoreModule plugins _ _ _ _ _ _ H1) as Hp1;
      [done |].
    apply bind_inv in H as [(? & H2 & _) | ([] & wb & H2 & H)];
      pose proof (keeps_registerWiring plugins _ _ _ _ _ _ H2) as Hp2;
      [congruence |].
    apply bind_inv in H as [(? & H3 & _) | ([] & wc & H3 & H)];
      pose proof (keeps_registerStoreEmitters plugins _ _ _ _ _ _ _ H3) as Hp3;
      [congruence |].
    by apply modify_inv in H as [_ ?]. }
  split; [done |]. split; [done |]. split; [| done].
  unfold installed, plugin_at in *. by rewrite Hp.
Qed.

(** ** The configuration mutation, applied *)





Lemma set_field_same {A} (k : string) (v : A) fs :
  get_field k fs = Some v -> set_field k v fs = fs.
Proof.
  intros Hg. unfold set_field. rewrite Hg.
  induction fs as [| [k0 v0] fs IH]; simpl in *; [done |].
  case_decide; simplify_eq; [done |]. by rewrite IH.
Qed.

Lemma get_field_elem {A} (k : string) (v : A) fs :
  NoDup (keys fs) -> (k, v) ∈ fs -> get_field k fs = Some v.
Proof.
  unfold keys. induction fs as [| [k0 v0] fs IH]; simpl.
  - intros _ Hin. by apply elem_of_nil in Hin.
  - rewrite NoDup_cons. intros [Hk0 Hnd] Hin.
    apply elem_of_cons in Hin as [[= -> ->] | Hin]; [by rewrite decide_True |].
    rewrite decide_False; [by apply IH |].
    intros ->. apply Hk0. apply list_elem_of_fmap. by exists (k, v).
Qed.

Lemma assign_fields_same old new :
  (∀ k v, (k, v) ∈ new -> get_field k old = Some v) -> assign_fields old new = old.
Proof.
  unfold assign_fields. induction new as [| [k v] new IH]; intros Hin; simpl; [done |].
  assert (Hsame : assign_field old (k, v) = old).
  { unfold assign_field. destruct (_ && _); [done |].
    apply set_field_same, Hin, list_elem_of_here. }
  rewrite Hsame. apply IH. intros k' v' Hin'. by apply Hin, list_elem_of_further.
Qed.

Lemma assign_fields_idem old new :
  NoDup (keys new) -> "__proto__" ∉ keys new ->
  assign_fields (assign_fields old new) new = assign_fields old new.
Proof.
  intros Hnd Hp. apply assign_fields_same. intros k v Hin.
  by rewrite get_field_assign_fields, get_field_reverse, (get_field_elem k v new).
Qed.

(** A state whose [config] is an object is an object that has the field. *)
Lemma get_prop_object state k b old :
  get_prop state k = Ret (VObj b old) ->
  ∃ a fs, state = VObj a fs ∧ get_field k fs = Some (VObj b old).
Proof.
  destruct state as [| | | | | | a fs]; simpl; try discriminate.
  intros [= H]. exists a, fs. split; [done |].
  by destruct (get_field k fs) as [v |]; simpl in H; subst.
Qed.

(** X15: the default [setConfig] throws a TypeError when the state, or the
    value of its [config], is [undefined] or [null], a state without a
    [config] included.  When [state.config] is a plain object it returns,
    whatever the payload, and it has written to the [config] field of the
    state only: the state has the same keys in the same order, its [config]
    is a plain object still, and every other field keeps its value.  When
    [state.config] is a number or a boolean it returns and leaves the state
    as it is. *)
Theorem default_setConfig_errors_and_frame state config :
  (state = VUndefined ∨ state = VNull ∨
   get_prop state "config" = Ret VUndefined ∨ get_prop state "config" = Ret VNull ->
   getDefaultSetConfigMutation state config = Throw TypeError) ∧
  (∀ old, get_prop state "config" = Ret (VObj false old) ->
     ∃ a fs fs' assigned,
       state = VObj a fs ∧
       getDefaultSetConfigMutation state config = Ret (VObj a fs') ∧
       keys fs' = keys fs ∧
       get_field "config" fs' = Some (VObj false assigned) ∧
       ∀ k, k ≠ "config" -> get_field k fs' = get_field k fs) ∧
  (∀ c, get_prop state "config" = Ret c ->
     (∃ b, c = VBool b) ∨ (∃ n, c = VNum n) ->
     getDefaultSetConfigMutation state config = Ret state).
Proof.
  split; [| split].
  - unfold getDefaultSetConfigMutation. intros [-> | [-> | [-> | ->]]]; done.
  - intros old Hc. apply get_prop_object in Hc as (a & fs & -> & Hc).
    exists a, fs, (set_field "config" (VObj false (assign_fields old (own_props config))) fs),
      (assign_fields old (own_props config)).
    split; [done |].
    split; [by apply getDefaultSetConfigMutation_assigns |].
    split; [apply keys_set_field_old; by exists (VObj false old) |].
    split; [by rewrite get_field_set_field, decide_True |].
    intros k Hk. by rewrite get_field_set_field, decide_False.
  - intros c Hc Hkind. unfold getDefaultSetConfigMutation. rewrite Hc.
    assert (Hassign : object_assign c config = Ret c)
      by (by destruct Hkind as [[b ->] | [n ->]]).
    rewrite Hassign.
    destruct state as [| | | | | | a fs]; try done.
    simpl in Hc. injection Hc as Hc.
    destruct (get_field "config" fs) as [v |] eqn:Hg; simpl in Hc; subst.
    + by rewrite set_field_same.
    + by destruct Hkind as [[b Hb] | [n Hn]].
Qed.

(** X16: on a state whose [config] is a plain object, applying the default
    [setConfig] a second time with the same configuration changes nothing,
    and a configuration without properties of its own ([undefined], [null],
    a number, a boolean, an empty object) leaves the state as it is.  The
    configuration has no property called [__proto__], which would change the
    prototype of the object. *)
Theorem default_setConfig_idempotent state config old state' :
  get_prop state "config" = Ret (VObj false old) ->
  NoDup (keys (own_props config)) ->
  "__proto__" ∉ keys (own_props config) ->
  getDefaultSetConfigMutation state config = Ret state' ->
  getDefaultSetConfigMutation state' config = Ret state' ∧
  (own_props config = [] -> state' = state).
Proof.
  intros Hc Hnd Hp. apply get_prop_object in Hc as (a & fs & -> & Hc).
  rewrite (getDefaultSetConfigMutation_assigns a fs old config Hc).
  intros [= <-]. split.
  - rewrite (getDefaultSetConfigMutation_assigns a _
               (assign_fields old (own_props config)) config)
      by (by rewrite get_field_set_field, decide_True).
    rewrite assign_fields_idem by done.
    by rewrite (set_field_same "config") by (by rewrite get_field_set_field, decide_True).
  - intros Hnone. rewrite Hnone. simpl. by rewrite set_field_same.
Qed.

(** ** A store module with an override *)

Lemma getModuleOptions_run this name options w :
  p_options (plugin_at w this) = Some options ->
  getModuleOptions this name w = (w, Ret (o_xModules options ≫= get_field name)).
Proof.
  intros Ho. unfold getModuleOptions, bind, this_, gets. rewrite Ho. simpl.
  by destruct (o_xModules options).
Qed.

Lemma customizeStoreModule_object m so sm v w :
  modules w !! m = Some sm -> sm_state sm = StateObj v ->
  customizeStoreModule m so w = (w, Throw TypeError).
Proof.
  intros Hm Hst. unfold customizeStoreModule, load_module.
  unfold bind at 1. unfold bind at 1. unfold gets, defined. rewrite Hm.
  unfold ret at 1. unfold bind at 1. by rewrite Hst.
Qed.

(** X17: when the options override the store module of the name,
    [registerStoreModule] registers a new object and writes to that one: the
    descriptor of the feature package keeps its [namespaced] and its
    [state], and the module handed to the store, which is namespaced, is
    another object.  The state of the descriptor is called as a function: a
    descriptor whose state is an object makes the registration throw a
    TypeError before anything is registered. *)
Theorem store_module_override_spares_descriptor this name m sm options xo so w :
  p_options (plugin_at w this) = Some options ->
  o_xModules options ≫= get_field name = Some xo ->
  xo_storeModule xo = Some so ->
  modules w !! m = Some sm ->
  modules w !! next w = None ->
  (∀ w1, registerStoreModule this name m w = (w1, Ret tt) ->
     (∃ sm0, modules w1 !! m = Some sm0 ∧
             sm_namespaced sm0 = sm_namespaced sm ∧ sm_state sm0 = sm_state sm) ∧
     ∃ customized sm' store,
       customized ≠ m ∧
       modules w1 !! customized = Some sm' ∧ sm_namespaced sm' = Some true ∧
       trace w1 = trace w ++ [ERegisterModule store ["x"; name] sm']) ∧
  (∀ v, sm_state sm = StateObj v ->
     registerStoreModule this name m w = (w, Throw TypeError)).
Proof.
  intros Ho Hxo Hso Hm Hnext.
  assert (Hfresh : m ≠ next w) by (intros ->; congruence).
  split.
  - intros w1 H. unfold registerStoreModule in H.
    apply bind_ret_inv in H as (mo & wa & H1 & H).
    apply getModuleOptions_ret in H1 as (-> & options' & Ho' & ->).
    rewrite Ho in Ho'. injection Ho' as <-. rewrite Hxo in H. simpl in H. rewrite Hso in H.
    apply bind_ret_inv in H as (cm & wa & H1 & H).
    unfold customizeStoreModule in H1.
    apply bind_ret_inv in H1 as (sm1 & wb & H2 & H1).
    apply load_module_ret in H2 as [-> Hm1]. rewrite Hm in Hm1. injection Hm1 as <-.
    apply bind_ret_inv in H1 as (getState & wb & H2 & H1).
    destruct (sm_state sm) as [f | v] eqn:Hst; [| discriminate].
    apply ret_inv in H2 as [-> [= ->]].
    apply bind_ret_inv in H1 as (c & wb & H2 & H1).
    apply fresh_loc_inv in H2 as [-> [= ->]].
    apply bind_ret_inv in H1 as ([] & wb & H2 & H1).
    apply modify_inv in H2 as [-> _].
    apply ret_inv in H1 as [-> [= ->]].
    apply bind_ret_inv in H as (sm0 & wb & H1 & H).
    apply load_module_ret in H1 as [-> Hsm0]. simpl in Hsm0.
    rewrite lookup_insert_eq in Hsm0. injection Hsm0 as <-.
    apply bind_ret_inv in H as ([] & wb & H1 & H).
    apply modify_inv in H1 as [-> _].
    apply bind_ret_inv in H as (cm' & wc & H1 & H).
    rewrite (addConfigMutation_run _ (set_namespaced true _)) in H1
      by (simpl; apply lookup_insert_eq).
    destruct (hasModuleConfig (set_namespaced true _)); [| discriminate].
    injection H1 as <- <-.
    apply bind_ret_inv in H as (self & wc & H1 & H).
    apply gets_inv in H1 as [-> [= ->]].
    apply bind_ret_inv in H as (store & wc & H1 & H).
    apply defined_ret_inv in H1 as [-> Hs].
    apply bind_ret_inv in H as (registered & wc & H1 & H).
    apply load_module_ret in H1 as [-> Hreg]. simpl in Hreg.
    rewrite lookup_insert_eq in Hreg. injection Hreg as <-.
    apply store_registerModule_inv in H as (Ht & _ & _ & Hmod). simpl in Ht, Hmod.
    rewrite Hmod. split.
    + exists sm. rewrite !lookup_insert_ne by done. by rewrite Hst.
    + eexists (next w), _, store. rewrite lookup_insert_eq.
      split; [done |]. split; [done |]. split; [| done].
      by rewrite sm_namespaced_configured.
  - intros v Hst. unfold registerStoreModule.
    unfold bind at 1. rewrite (getModuleOptions_run _ _ _ _ Ho), Hxo. simpl. rewrite Hso.
    unfold bind at 1. by rewrite (customizeStoreModule_object _ _ _ _ _ Hm Hst).
Qed.

(** ** The wiring when a collaborator throws *)

Lemma call_throws e w w1 err :
  call e w = (w1, Throw err) -> ∃ msg, err = HostError msg.
Proof. unfold call. destruct (fault host (trace w) e); intros [= _ <-]. eauto. Qed.

Lemma forEach_wires_any this name event wires w w1 r :
  forEach wires (fun key wire =>
    let! self := this_ this in
    call (EWire name event key wire (p_store self))) w = (w1, r) ->
  ∃ t, w1 = with_trace (trace w ++ t) w ∧
       t `prefix_of` wire_calls name (p_store (plugin_at w this)) event wires ∧
       (r = Ret tt -> t = wire_calls name (p_store (plugin_at w this)) event wires) ∧
       (∀ e, r = Throw e -> t ≠ [] ∧ ∃ msg, e = HostError msg).
Proof.
  revert w. induction wires as [| [key wire] wires IH]; intros w H.
  - apply ret_inv in H as [-> ->]. exists []. simpl.
    rewrite app_nil_r, with_trace_id. done.
  - rewrite forEach_cons in H.
    apply bind_inv in H as [(e & H1 & ->) | ([] & wa & H1 & H)].
    + apply bind_inv in H1 as [(e' & H2 & _) | (self & wb & H2 & H1)];
        apply gets_inv in H2 as [-> ?]; [done |]. simplify_eq.
      pose proof (call_throws _ _ _ _ H1) as Hmsg.
      apply call_inv in H1 as ->.
      exists [EWire name event key wire (p_store (plugin_at w this))].
      split; [done |]. split; [apply prefix_cons, prefix_nil |].
      split; [done |]. intros e' [= <-]. done.
    + apply bind_ret_inv in H1 as (self & wb & H2 & H1).
      apply gets_inv in H2 as [-> [= ->]].
      apply call_inv in H1 as ->.
      apply IH in H as (t & -> & Hpre & Hret & Hthrow). simpl in *.
      exists (EWire name event key wire (p_store (plugin_at w this)) :: t).
      split; [by rewrite <- app_assoc |].
      split; [by apply prefix_cons |]. split.
      * intros Hr. by rewrite (Hret Hr).
      * intros e He. destruct (Hthrow e He) as [_ Hmsg]. done.
Qed.

Lemma forEach_wiring_any this name wiring w w1 r :
  forEach wiring (fun event wires =>
    let! self := this_ this in
    do! call (EBusOn (p_bus self) event true) in
    forEach wires (fun key wire =>
      let! self := this_ this in
      call (EWire name event key wire (p_store self)))) w = (w1, r) ->
  ∃ t, w1 = with_trace (trace w ++ t) w ∧
       t `prefix_of` wiring_calls (p_bus (plugin_at w this)) name
                       (p_store (plugin_at w this)) wiring ∧
       (r = Ret tt ->
        t = wiring_calls (p_bus (plugin_at w this)) name
              (p_store (plugin_at w this)) wiring) ∧
       (∀ e, r = Throw e -> t ≠ [] ∧ ∃ msg, e = HostError msg).
Proof.
  revert w. induction wiring as [| [event wires] wiring IH]; intros w H.
  - apply ret_inv in H as [-> ->]. exists []. simpl.
    rewrite app_nil_r, with_trace_id. done.
  - rewrite forEach_cons in H. simpl.
    apply bind_inv in H as [(e & H1 & ->) | ([] & wa & H1 & H)].
    + apply bind_inv in H1 as [(e' & H2 & _) | (self & wb & H2 & H1)];
        apply gets_inv in H2 as [-> ?]; [done |]. simplify_eq.
      apply bind_inv in H1 as [(e' & H2 & He) | ([] & wb & H2 & H1)].
      * pose proof (call_throws _ _ _ _ H2) as Hmsg.
        apply call_inv in H2 as ->. simplify_eq.
        exists [EBusOn (p_bus (plugin_at w this)) event true].
        split; [done |]. split; [apply prefix_cons, prefix_nil |].
        split; [done |]. intros e [= <-]. done.
      * apply call_inv in H2 as ->.
        apply forEach_wires_any in H1 as (t & -> & Hpre & _ & Hthrow). simpl in *.
        exists (EBusOn (p_bus (plugin_at w this)) event true :: t).
        split; [by rewrite <- app_assoc |].
        split; [by apply prefix_cons, prefix_app_r |].
        split; [done |]. intros e' [= <-].
        destruct (Hthrow e eq_refl) as [_ Hmsg]. done.
    + apply bind_ret_inv in H1 as (self & wb & H2 & H1).
      apply gets_inv in H2 as [-> [= ->]].
      apply bind_ret_inv in H1 as ([] & wb & H2 & H1).
      apply call_inv in H2 as ->.
      apply forEach_wires_ret in H1 as ->.
      apply IH in H as (t & -> & Hpre & Hret & Hthrow). simpl in *.
      exists (EBusOn (p_bus (plugin_at w this)) event true ::
              wire_calls name (p_store (plugin_at w this)) event wires ++ t).
      split; [by rewrite <- !app_assoc |].
      split; [by apply prefix_cons, prefix_app |]. split.
      * intros Hr. by rewrite (Hret Hr).
      * intros e He. destruct (Hthrow e He) as [_ Hmsg]. done.
Qed.

(** X18: the calls of [registerWiring] are an initial segment of the
    sequence it makes when nothing fails: for each event of the customized
    wiring, in order, the observable asked of the bus with the metadata,
    then its wires in order with the store of the instance.  The segment is
    the whole sequence when the registration returns; when a collaborator
    throws, its call is the last one made: no later wire is called, and
    nothing but the trace has changed. *)
Theorem wiring_calls_stop_at_failure this name wiring options w w1 r :
  p_options (plugin_at w this) = Some options ->
  registerWiring this name wiring w = (w1, r) ->
  ∃ t,
    w1 = with_trace (trace w ++ t) w ∧
    t `prefix_of`
      wiring_calls (p_bus (plugin_at w this)) name (p_store (plugin_at w this))
        (customizedWiring (o_xModules options ≫= get_field name) wiring) ∧
    (r = Ret tt ->
     t = wiring_calls (p_bus (plugin_at w this)) name (p_store (plugin_at w this))
           (customizedWiring (o_xModules options ≫= get_field name) wiring)) ∧
    (∀ e, r = Throw e -> t ≠ [] ∧ ∃ msg, e = HostError msg).
Proof.
  intros Ho H. unfold registerWiring in H.
  unfold bind at 1 in H. rewrite (getModuleOptions_run _ _ _ _ Ho) in H.
  by apply forEach_wiring_any in H.
Qed.

(** ** What the static accessors can answer *)

(** The static instance, when there is one, has the arguments of its
    [install]. *)
Definition accepted (w : World) : Prop :=
  ∀ p, instance w = Some p ->
       is_Some (p_options (plugin_at w p)) ∧ is_Some (p_adapter (plugin_at w p)) ∧
       is_Some (p_vue (plugin_at w p)).

Definition install_arguments (x : XPlugin) :=
  (p_options x, p_adapter x, p_vue x).

(** [install] either rejects the call and changes nothing, or leaves its
    instance as the static one, with its arguments. *)
Lemma install_outcome this vue options w w1 r :
  install this vue options w = (w1, r) ->
  w1 = w ∨
  (instance w1 = Some this ∧
   ∃ opts a, install_arguments (plugin_at w1 this) = (Some opts, Some a, Some vue)).
Proof.
  intros H.
  destruct (p_isInstalled (plugin_at w this)) eqn:Hflag.
  { rewrite install_installed in H by done. left. by simplify_eq. }
  destruct (options ≫= o_adapter) as [a |] eqn:Ha; cycle 1.
  { rewrite install_invalid in H by done. left. by simplify_eq. }
  destruct options as [opts |]; [simpl in Ha | done].
  rewrite (install_unfold _ _ _ a) in H by done. right.
  assert (Hkeep : ∀ w0 r0, installation this (install_start this vue opts w) = (w0, r0) ->
            instance w0 = Some this ∧
            install_arguments (plugin_at w0 this) = (Some opts, Some a, Some vue)).
  { intros w0 r0 H0. split; [exact (keeps_installation_instance _ _ _ _ H0) |].
    pose proof (keeps_installation_field install_arguments this this
                  ltac:(done) ltac:(done) ltac:(done) _ _ _ H0) as Hargs.
    unfold field in Hargs. rewrite Hargs, plugin_at_install_start, decide_True by done.
    unfold install_arguments. simpl. by rewrite Ha. }
  apply bind_inv in H as [(e & H & _) | ([] & w0 & H & H')].
  - destruct (Hkeep _ _ H) as [Hi Hargs]. eauto.
  - destruct (Hkeep _ _ H) as [Hi Hargs]. apply modify_inv in H' as [-> _].
    split; [exact Hi |]. exists opts, a.
    rewrite plugin_at_update, decide_True by done. exact Hargs.
Qed.

Lemma perform_accepted op w w1 r :
  perform op w = (w1, r) -> accepted w -> accepted w1.
Proof.
  intros H Hacc p Hp.
  assert (Hargs : ∀ x, install_arguments x = install_arguments (plugin_at w1 p) ->
            is_Some (p_options x) ∧ is_Some (p_adapter x) ∧ is_Some (p_vue x) ->
            is_Some (p_options (plugin_at w1 p)) ∧ is_Some (p_adapter (plugin_at w1 p)) ∧
            is_Some (p_vue (plugin_at w1 p))).
  { unfold install_arguments. intros x [= -> -> ->]. done. }
  destruct op as [this vue options | xModule | | this config | t | watcher nv ov].
  - simpl in H. apply install_outcome in H as [-> | (Hi & opts & a & Hx)].
    + by apply Hacc.
    + rewrite Hi in Hp. injection Hp as <-.
      unfold install_arguments in Hx. injection Hx as -> -> ->. eauto.
  - pose proof (evolves_perform_registered eq install_arguments p
                  (RegisterXModule xModule) ltac:(done) ltac:(done) _ _ _ H) as Hx.
    apply (Hargs _ Hx), Hacc. simpl in H.
    assert (Hk : keeps instance (XPlugin_registerXModule xModule)).
    { unfold XPlugin_registerXModule, lazyRegisterXModule. keeps_auto.
      apply keeps_registerXModule; [apply _ | intros; apply _]. }
    by rewrite <- (Hk _ _ _ H).
  - simpl in H. apply modify_inv in H as [-> _]. discriminate Hp.
  - pose proof (evolves_perform_registered eq install_arguments p
                  (SetConfig this config) ltac:(done) ltac:(done) _ _ _ H) as Hx.
    apply (Hargs _ Hx), Hacc. simpl in H.
    by rewrite <- (keeps_setConfig instance _ _ ltac:(done) _ _ _ H).
  - pose proof (evolves_perform_registered eq install_arguments p
                  (RunTask t) ltac:(done) ltac:(done) _ _ _ H) as Hx.
    apply (Hargs _ Hx), Hacc. simpl in H.
    by rewrite <- (keeps_run_task instance _ _ _ _ H).
  - pose proof (evolves_perform_registered eq install_arguments p
                  (WatchCallback watcher nv ov) ltac:(done) ltac:(done) _ _ _ H) as Hx.
    apply (Hargs _ Hx), Hacc. simpl in H.
    by rewrite <- (keeps_watch_callback instance _ _ _ _ _ _ H).
Qed.

(** X19: in every world the clients can reach from the initial one, the
    static instance, when there is one, has its options, its adapter and its
    Vue; so the static [adapter] accessor either throws the error of the
    access before the installation or returns an adapter: it never answers
    [undefined].  The options that [install] accepts bring an adapter, as
    the validation modelled from the spec has it. *)
Theorem static_adapter_is_never_undefined w w' :
  accepted initial_world ∧
  (accepted w -> reaches w w' ->
   accepted w' ∧
   (get_adapter w' = (w', Throw MustBeInstalled) ∨
    ∃ a, get_adapter w' = (w', Ret (Some a)))).
Proof.
  split; [intros p; discriminate |].
  intros Hacc H.
  assert (Hacc' : accepted w').
  { induction H as [w | op w w1 r w2 Hstep _ IH]; [done |].
    eapply IH, perform_accepted; eauto. }
  split; [exact Hacc' |].
  destruct (instance w') as [p |] eqn:Hi.
  - right. destruct (Hacc' p Hi) as (_ & [a Ha] & _). exists a.
    destruct (accessors_set _ _ Hi) as (Hget & _). by rewrite Hget, Ha.
  - left. by destruct (accessors_unset _ Hi).
Qed.

(** ** The configuration object of an instance *)

(** The reference an instance keeps in [xConfig] is the reference of an
    object. *)
Definition config_exists (w : World) : Prop :=
  ∀ p c, p_xConfig (plugin_at w p) = Some c -> is_Some (objects w !! c).

Definition preserves {A} (I : World -> Prop) (m : M A) : Prop :=
  ∀ w w' r, m w = (w', r) -> I w -> I w'.

Lemma preserves_bind {A B} (I : World -> Prop) (m : M A) (k : A -> M B) :
  preserves I m -> (∀ a, preserves I (k a)) -> preserves I (bind m k).
Proof.
  intros Hm Hk w w' r H HI.
  apply bind_inv in H as [(e & H1 & _) | (a & w1 & H1 & H2)].
  - eapply Hm; eauto.
  - eapply Hk; eauto.
Qed.

Lemma preserves_config_exists {A} (m : M A) :
  keeps objects m -> (∀ p, keeps (field p_xConfig p) m) -> preserves config_exists m.
Proof.
  intros Ho Hx w w' r H HI p c Hc.
  pose proof (Hx p _ _ _ H) as E. unfold field in E.
  rewrite (Ho _ _ _ H). apply (HI p). by rewrite <- E.
Qed.

Lemma registerConfig_config_exists this : preserves config_exists (registerConfig this).
Proof.
  unfold registerConfig.
  apply preserves_bind; [apply preserves_config_exists; intros; apply keeps_this |].
  intros self.
  apply preserves_bind; [apply preserves_config_exists; intros; apply keeps_defined |].
  intros options.
  apply preserves_bind.
  { apply preserves_config_exists; intros;
      apply keeps_createAdapterConfigChangedListener, _. }
  intros _ w w' r H HI. unfold registerReactiveConfig in H.
  assert (Hgrow : ∀ c v, config_exists (with_objects (<[c := v]> (objects w)) w)).
  { intros c v p c' Hc'. simpl. destruct (decide (c' = c)) as [-> | Hne].
    - rewrite lookup_insert_eq. eauto.
    - rewrite lookup_insert_ne by done. by apply (HI p). }
  apply bind_inv in H as [(e & H1 & _) | (c & wa & H1 & H)].
  - apply bind_inv in H1 as [(e' & H2 & _) | (c & wa & H2 & H1)];
      apply fresh_loc_inv in H2 as [-> ?]; [done |].
    apply bind_inv in H1 as [(e' & H2 & _) | ([] & wb & H2 & H1)];
      apply modify_inv in H2 as [-> ?]; [done |].
    apply bind_inv in H1 as [(e' & H2 & _) | ([] & wb & H2 & H1)];
      apply call_inv in H2 as ->; [| by apply ret_inv in H1 as [_ ?]].
    exact (Hgrow _ _).
  - apply bind_ret_inv in H1 as (c' & wb & H2 & H1).
    apply fresh_loc_inv in H2 as [-> [= ->]].
    apply bind_ret_inv in H1 as ([] & wb & H2 & H1).
    apply modify_inv in H2 as [-> _].
    apply bind_ret_inv in H1 as ([] & wb & H2 & H1).
    apply call_inv in H2 as ->.
    apply ret_inv in H1 as [-> [= ->]].
    apply modify_inv in H as [-> _].
    intros p c Hc. rewrite plugin_at_update in Hc. simpl.
    case_decide as Hp.
    + simpl in Hc. injection Hc as <-. rewrite lookup_insert_eq. eauto.
    + by apply (Hgrow (next w) _ p).
Qed.

Lemma setConfig_config_exists this config : preserves config_exists (setConfig this config).
Proof.
  intros w w' r H HI. unfold setConfig in H.
  apply bind_inv in H as [(e & H1 & _) | (self & wa & H1 & H)];
    apply gets_inv in H1 as [-> ?]; [done |].
  destruct (p_xConfig self) as [c |]; [| by apply ret_inv in H as [-> _]].
  apply modify_inv in H as [-> _].
  destruct (objects w !! c) as [current |] eqn:Hcur; [| done].
  intros p c' Hc'. simpl. destruct (decide (c' = c)) as [-> | Hne].
  - rewrite lookup_insert_eq. eauto.
  - rewrite lookup_insert_ne by done. by apply (HI p).
Qed.

Lemma registerXModule_config_exists this xModule :
  preserves config_exists (registerXModule this xModule).
Proof.
  apply preserves_config_exists.
  - apply keeps_registerXModule; [apply _ | intros; apply _].
  - intros p. apply keeps_registerXModule; [apply _ |].
    intros. by apply unaffected_field.
Qed.

Lemma install_config_exists this vue options :
  preserves config_exists (install this vue options).
Proof.
  unfold install.
  apply preserves_bind; [apply preserves_config_exists; intros; apply keeps_this |].
  intros self. destruct (p_isInstalled self).
  { apply preserves_config_exists; intros; apply keeps_throw. }
  apply preserves_bind.
  { apply preserves_config_exists; intros;
      unfold assertXPluginOptionsAreValid; keeps_auto. }
  intros opts.
  apply preserves_bind; [apply preserves_config_exists; intros; keeps_auto |].
  intros _. apply preserves_bind.
  { apply preserves_config_exists; intros;
      apply keeps_update_this; [apply _ | by apply unaffected_field]. }
  intros _. apply preserves_bind; [apply registerConfig_config_exists |].
  intros _. apply preserves_bind.
  { apply preserves_config_exists; intros; apply keeps_registerStore;
      try apply _; intros; by apply unaffected_field. }
  intros _. apply preserves_bind.
  { apply preserves_config_exists; intros; apply keeps_applyMixins, _. }
  intros _. apply preserves_bind.
  { apply preserves_config_exists; intros; apply keeps_registerFilters, _. }
  intros _. apply preserves_bind.
  { apply preserves_config_exists; intros; apply keeps_registerPendingXModules;
      try apply _; try done; intros; by apply unaffected_field. }
  intros _. apply preserves_config_exists; intros;
    apply keeps_update_this; [apply _ | by apply unaffected_field].
Qed.

Lemma perform_config_exists op : preserves config_exists (perform op).
Proof.
  destruct op as [this vue options | xModule | | this config | t | watcher nv ov]; simpl.
  - apply install_config_exists.
  - unfold XPlugin_registerXModule.
    apply preserves_bind; [apply preserves_config_exists; intros; apply keeps_gets |].
    intros [this |]; [apply registerXModule_config_exists |].
    apply preserves_config_exists; intros; unfold lazyRegisterXModule; keeps_auto.
  - apply preserves_config_exists; intros; unfold resetInstance; keeps_auto.
  - apply setConfig_config_exists.
  - apply preserves_config_exists; intros; apply keeps_run_task, _.
  - apply preserves_config_exists; intros; apply keeps_watch_callback, _.
Qed.

(** X20: in every world the clients can reach from the initial one, the
    reference an instance keeps in [xConfig] is the reference of an object:
    [setConfig] always finds the configuration it merges into, and the
    static [config] accessor never returns a dangling reference. *)
Theorem configuration_object_exists w w' :
  config_exists initial_world ∧
  (config_exists w -> reaches w w' ->
   config_exists w' ∧
   ∀ this c config,
     p_xConfig (plugin_at w' this) = Some c ->
     ∃ current,
       objects w' !! c = Some current ∧
       setConfig this config w'
       = (with_objects (<[c := deepMerge current config]> (objects w')) w', Ret tt)).
Proof.
  split; [intros p c; discriminate |].
  intros HI H.
  assert (HI' : config_exists w').
  { induction H as [w | op w w1 r w2 Hstep _ IH]; [done |].
    eapply IH, perform_config_exists; eauto. }
  split; [exact HI' |].
  intros this c config Hc. destruct (HI' this c Hc) as [current Hcur].
  exists current. split; [done |].
  unfold setConfig, bind, this_, gets. rewrite Hc. unfold modify. by rewrite Hcur.
Qed.

(** ** A store module registered on an instance without a store *)

Lemma load_module_run m sm w : modules w !! m = Some sm -> load_module m w = (w, Ret sm).
Proof. intros Hm. unfold load_module, bind, gets, defined. by rewrite Hm. Qed.

(** X21: [registerStoreModule] writes to the descriptor before it calls the
    store.  On an instance whose [install] failed before [registerStore],
    which a request made through the class reaches all the same, the
    registration throws a TypeError at the store and makes no call, and the
    descriptor of the feature package is left marked as namespaced, with the
    default [setConfig] if its state has a configuration. *)
Theorem registration_without_store_marks_descriptor this name m sm options b w w1 r :
  p_options (plugin_at w this) = Some options ->
  (o_xModules options ≫= get_field name) ≫= xo_storeModule = None ->
  p_store (plugin_at w this) = None ->
  modules w !! m = Some sm ->
  hasModuleConfig sm = Ret b ->
  registerStoreModule this name m w = (w1, r) ->
  r = Throw TypeError ∧
  modules w1 !! m = Some (configured (set_namespaced true sm)) ∧
  sm_namespaced (configured (set_namespaced true sm)) = Some true ∧
  trace w1 = trace w ∧
  plugins w1 = plugins w.
Proof.
  intros Ho Hno Hs Hm Hcfg H. unfold registerStoreModule in H.
  unfold bind at 1 in H. rewrite (getModuleOptions_run _ _ _ _ Ho), Hno in H.
  apply bind_inv in H as [(e & H1 & _) | (cm & wa & H1 & H)];
    apply ret_inv in H1 as [-> ?]; [done |]. simplify_eq.
  unfold bind at 1 in H. rewrite (load_module_run _ _ _ Hm) in H.
  apply bind_inv in H as [(e & H1 & _) | ([] & wa & H1 & H)];
    apply modify_inv in H1 as [-> ?]; [done |].
  unfold bind at 1 in H.
  rewrite (addConfigMutation_run _ (set_namespaced true sm)) in H
    by (simpl; apply lookup_insert_eq).
  change (hasModuleConfig (set_namespaced true sm)) with (hasModuleConfig sm) in H.
  rewrite Hcfg in H.
  apply bind_inv in H as [(e & H1 & _) | (self & wa & H1 & H)];
    apply gets_inv in H1 as [-> ?]; [done |]. simplify_eq.
  change (plugin_at (with_modules _ (with_modules _ w)) this) with (plugin_at w this) in H.
  rewrite Hs in H. unfold bind at 1, defined, throw in H. simplify_eq. simpl.
  split; [done |]. split; [by rewrite lookup_insert_eq |].
  split; [by rewrite sm_namespaced_configured |]. done.
Qed.

End XPluginClass.

(** ** The next-queries module, installed *)

Definition example_host : Host :=
  {| DEFAULT_X_CONFIG :=
       VObj false [("consent", VBool false);
                   ("documentDirection", VStr "ltr");
                   ("currencyOptions", VObj false [("symbol", VStr "EUR")])];
     FILTERS_REGISTRY := [("currency", "currencyFilter")];
     RootXStoreModule :=
       {| sm_state := StateObj (VObj false []); sm_getters := []; sm_mutations := None;
          sm_actions := []; sm_namespaced := None |};
     getGettersProxyFromModule := fun _ _ _ => VObj false [];
     fault := fun _ _ => None |}.

(** A host whose [vue.mixin] throws. *)
Definition failing_host : Host :=
  {| DEFAULT_X_CONFIG := DEFAULT_X_CONFIG example_host;
     FILTERS_REGISTRY := FILTERS_REGISTRY example_host;
     RootXStoreModule := RootXStoreModule example_host;
     getGettersProxyFromModule := getGettersProxyFromModule example_host;
     fault := fun _ e => match e with
                         | EMixin _ _ _ => Some "mixin failed"
                         | _ => None
                         end |}.

Definition nextQueriesState (config : value) : value :=
  VObj false [("query", VStr ""); ("nextQueries", VObj true []); ("config", config)].

Definition nextQueriesModule (config : value) : StoreModule :=
  {| sm_state := StateFn (fun _ => nextQueriesState config);
     sm_getters := [("request", fun st => default VNull (get_field "query" (fields_of st)))];
     sm_mutations :=
       Some [("setQuery",
              fun st q => Ret (VObj false (set_field "query" q (fields_of st))))];
     sm_actions := [("getNextQueries", "getNextQueries")];
     sm_namespaced := None |}.

Definition nextQueriesConfig : value := VObj false [("maxItemsToRequest", VNum 20)].

Definition nextQueries : XModule :=
  {| name := "nextQueries";
     wiring := [("UserAcceptedAQuery", [("setQuery", "wireCommit")])];
     storeModule := 7;
     storeEmitters :=
       [("NextQueriesChanged", SimpleSelector (fun st _ => st));
        ("NextQueriesRequestChanged",
         ComplexSelector
           {| selector := fun _ getters => getters;
              immediate := Some true; isDifferent := None; watch_options := [] |})] |}.

Definition example_options : XPluginOptions :=
  {| o_adapter := Some {| adapter_id := 1; addConfigChangedListener := true |};
     o_store := None;
     o_config := Some (VObj false [("consent", VBool true)]);
     o_xModules := None |}.

(** The descriptors of three feature packages, before anything is called. *)
Definition example_world : World :=
  with_modules
    (<[7 := nextQueriesModule nextQueriesConfig]>
       (<[8 := nextQueriesModule VNull]>
          (<[9 := nextQueriesModule VUndefined]> ∅)))
    (with_next 10 initial_world).

(** The world once instance 0 is installed, with no module registered. *)
Definition installed_world : World :=
  (install example_host 0 5 (Some example_options) example_world).1.


(** ** The theorems at work on the example *)






(** The installed instance installed again. *)
Lemma install_twice_throws_witness :
  install example_host 0 5 (Some example_options) example_world = (installed_world, Ret tt) ∧
  p_isInstalled (plugin_at installed_world 0) = true ∧
  install example_host 0 6 None installed_world = (installed_world, Throw AlreadyInstalled).
Proof.
  assert (Hrun : install example_host 0 5 (Some example_options) example_world
                 = (installed_world, Ret tt)) by (vm_compute; reflexivity).
  destruct (install_twice_throws example_host 0 5 (Some example_options) example_world)
    as [_ Hafter].
  destruct (Hafter _ Hrun) as [Hflag Hagain].
  exact (conj Hrun (conj Hflag (Hagain 6 None))).
Defined.





(** An installation whose mixin step throws. *)
Lemma failed_install_leaves_instance_witness :
  p_isInstalled (plugin_at example_world 0) = false ∧
  install failing_host 0 5 (Some example_options) example_world
  = ((install failing_host 0 5 (Some example_options) example_world).1,
     Throw (HostError "mixin failed")) ∧
  instance (install failing_host 0 5 (Some example_options) example_world).1 = Some 0 ∧
  p_isInstalled
    (plugin_at (install failing_host 0 5 (Some example_options) example_world).1 0) = false.
Proof.
  assert (Hflag : p_isInstalled (plugin_at example_world 0) = false) by reflexivity.
  assert (Hrun : install failing_host 0 5 (Some example_options) example_world
                 = ((install failing_host 0 5 (Some example_options) example_world).1,
                    Throw (HostError "mixin failed"))) by (vm_compute; reflexivity).
  destruct (failed_install_leaves_instance failing_host 0 5 example_options
              {| adapter_id := 1; addConfigChangedListener := true |}
              example_world _ _ Hflag eq_refl Hrun) as (_ & Hi & Hf & _).
  exact (conj Hflag (conj Hrun (conj Hi Hf))).
Defined.

Definition relatedTagsConfig : value :=
  VObj false [("maxItemsToRequest", VNum 10); ("loadOnInit", VBool true)].

Definition fewerItems : value := VObj false [("maxItemsToRequest", VNum 5)].

(** The next-queries store module, whose state has a configuration object,
    and the default mutation applied to a state with two configuration
    fields. *)
Lemma addConfigMutation_synthesizes_setConfig_witness :
  modules example_world !! 7 = Some (nextQueriesModule nextQueriesConfig) ∧
  get_prop (read_state (nextQueriesModule nextQueriesConfig)) "config"
  = Ret nextQueriesConfig ∧
  (∃ ms,
     addConfigMutation 7 example_world
     = (with_modules
          (<[7 := set_mutations ms (nextQueriesModule nextQueriesConfig)]>
             (modules example_world)) example_world, Ret 7) ∧
     get_field "setConfig" ms = Some getDefaultSetConfigMutation ∧
     get_field "setQuery" ms
     = sm_mutations (nextQueriesModule nextQueriesConfig) ≫= get_field "setQuery") ∧
  (∃ fs' assigned,
     getDefaultSetConfigMutation (nextQueriesState relatedTagsConfig) fewerItems
     = Ret (VObj false fs') ∧
     keys fs' = ["query"; "nextQueries"; "config"] ∧
     get_field "config" fs' = Some (VObj false assigned) ∧
     get_field "query" fs' = Some (VStr "") ∧
     get_field "maxItemsToRequest" assigned = Some (VNum 5) ∧
     get_field "loadOnInit" assigned = Some (VBool true)) ∧
  getDefaultSetConfigMutation (nextQueriesState relatedTagsConfig) fewerItems
  = Ret (nextQueriesState
           (VObj false [("maxItemsToRequest", VNum 5); ("loadOnInit", VBool true)])).
Proof.
  assert (Hm : modules example_world !! 7 = Some (nextQueriesModule nextQueriesConfig))
    by (vm_compute; reflexivity).
  assert (Hc : get_prop (read_state (nextQueriesModule nextQueriesConfig)) "config"
               = Ret nextQueriesConfig) by (vm_compute; reflexivity).
  destruct (addConfigMutation_synthesizes_setConfig 7 _ _ example_world Hm Hc)
    as (Hadd & _ & Hassign).
  destruct (Hadd eq_refl eq_refl) as (ms & Hrun & Hset & Hothers).
  assert (Hnd : NoDup (keys [("maxItemsToRequest", VNum 5)])) by apply NoDup_singleton.
  assert (Hp : "__proto__" ∉ keys [("maxItemsToRequest", VNum 5)]).
  { apply (proj1 (bool_decide_eq_false
                    ("__proto__" ∈ keys [("maxItemsToRequest", VNum 5)]))).
    vm_compute. reflexivity. }
  destruct (Hassign false [("query", VStr ""); ("nextQueries", VObj true []);
                           ("config", relatedTagsConfig)]
              [("maxItemsToRequest", VNum 10); ("loadOnInit", VBool true)]
              false [("maxItemsToRequest", VNum 5)] eq_refl Hnd Hp)
    as (fs' & assigned & Hmut & Hkeys & Hcfg & Hframe & Hfields).
  assert (Hvalue : getDefaultSetConfigMutation (nextQueriesState relatedTagsConfig) fewerItems
                   = Ret (nextQueriesState
                            (VObj false [("maxItemsToRequest", VNum 5);
                                         ("loadOnInit", VBool true)])))
    by (vm_compute; reflexivity).
  exact (conj Hm (conj Hc
           (conj (ex_intro _ ms (conj Hrun (conj Hset (Hothers "setQuery" ltac:(discriminate)))))
              (conj (ex_intro _ fs' (ex_intro _ assigned
                       (conj Hmut (conj Hkeys (conj Hcfg
                          (conj (Hframe "query" ltac:(discriminate))
                             (conj (Hfields "maxItemsToRequest")
                                (Hfields "loadOnInit"))))))))
                 Hvalue)))).
Defined.

(** A state [{ ..., config: null }] has the key and gets no [setConfig]. *)
Lemma addConfigMutation_null_config_counterexample :
  modules example_world !! 8 = Some (nextQueriesModule VNull) ∧
  has_key "config" (fields_of (read_state (nextQueriesModule VNull))) = true ∧
  sm_mutations (nextQueriesModule VNull) ≫= get_field "setConfig" = None ∧
  addConfigMutation 8 example_world = (example_world, Ret 8) ∧
  ((modules (addConfigMutation 8 example_world).1 !! 8) ≫= sm_mutations)
    ≫= get_field "setConfig" = None.
Proof. repeat split; vm_compute; reflexivity. Qed.


(** Two store emitters: one that is different when the new value is truthy,
    and a bare selector. *)
Definition queryEmitters : StoreEmitters :=
  [("QueryChanged",
    ComplexSelector
      {| selector := fun st _ => st; immediate := None;
         isDifferent := Some (fun newValue _ => Boolean newValue);
         watch_options := [] |});
   ("NextQueriesChanged", SimpleSelector (fun st _ => st))].

Definition queryEmitters_world : World :=
  (registerStoreEmitters example_host 0 "nextQueries" 7 queryEmitters installed_world).1.

(** The watchers of the two emitters, and a truthy, then a falsy new value
    reported to the first and to the second. *)
Lemma watch_callback_emits_when_different_witness :
  p_options (plugin_at installed_world 0) = Some example_options ∧
  p_store (plugin_at installed_world 0) = Some 11 ∧
  modules installed_world !! 7 = Some (nextQueriesModule nextQueriesConfig) ∧
  registerStoreEmitters example_host 0 "nextQueries" 7 queryEmitters installed_world
  = (queryEmitters_world, Ret tt) ∧
  trace queryEmitters_world
  = trace installed_world ++
    [EWatch 11
       {| w_plugin := 0; w_module := "nextQueries"; w_event := "QueryChanged";
          w_selector := fun st _ => st; w_getters := fun _ => VObj false [];
          w_isDifferent := fun newValue _ => Boolean newValue; w_options := [] |};
     EWatch 11
       {| w_plugin := 0; w_module := "nextQueries"; w_event := "NextQueriesChanged";
          w_selector := fun st _ => st; w_getters := fun _ => VObj false [];
          w_isDifferent := fun _ _ => true; w_options := [] |}] ∧
  ∃ watchers custom bare,
    trace queryEmitters_world = trace installed_world ++ map (EWatch 11) watchers ∧
    watchers !! 0 = Some custom ∧
    watchers !! 1 = Some bare ∧
    (∃ r, watch_callback example_host custom (VStr "shoes") (VStr "") queryEmitters_world
          = (with_trace
               (trace queryEmitters_world ++
                [EEmit (p_bus (plugin_at queryEmitters_world 0)) "QueryChanged"
                   (VStr "shoes") (Some {| moduleName := "nextQueries" |})])
               queryEmitters_world, r)) ∧
    watch_callback example_host custom (VStr "") (VStr "shoes") queryEmitters_world
    = (queryEmitters_world, Ret tt) ∧
    (∃ r, watch_callback example_host bare (VStr "") (VStr "shoes") queryEmitters_world
          = (with_trace
               (trace queryEmitters_world ++
                [EEmit (p_bus (plugin_at queryEmitters_world 0)) "NextQueriesChanged"
                   (VStr "") (Some {| moduleName := "nextQueries" |})])
               queryEmitters_world, r)).
Proof.
  assert (Ho : p_options (plugin_at installed_world 0) = Some example_options)
    by (vm_compute; reflexivity).
  assert (Hs : p_store (plugin_at installed_world 0) = Some 11) by (vm_compute; reflexivity).
  assert (Hm : modules installed_world !! 7 = Some (nextQueriesModule nextQueriesConfig))
    by (vm_compute; reflexivity).
  assert (Hrun : registerStoreEmitters example_host 0 "nextQueries" 7 queryEmitters
                   installed_world
                 = (queryEmitters_world, Ret tt)) by (vm_compute; reflexivity).
  assert (Hcalls :
    trace queryEmitters_world
    = trace installed_world ++
      [EWatch 11
         {| w_plugin := 0; w_module := "nextQueries"; w_event := "QueryChanged";
            w_selector := fun st _ => st; w_getters := fun _ => VObj false [];
            w_isDifferent := fun newValue _ => Boolean newValue; w_options := [] |};
       EWatch 11
         {| w_plugin := 0; w_module := "nextQueries"; w_event := "NextQueriesChanged";
            w_selector := fun st _ => st; w_getters := fun _ => VObj false [];
            w_isDifferent := fun _ _ => true; w_options := [] |}])
    by (vm_compute; reflexivity).
  destruct (watch_callback_emits_when_different example_host 0 "nextQueries" 7
              queryEmitters example_options _ 11 installed_world _ Ho Hs Hm Hrun)
    as (customized & watchers & Hown & Ht & _ & Hcb).
  rewrite (Hown eq_refl) in Hcb.
  destruct (Hcb 0 _ _ eq_refl) as (custom & Hcustom & Hcustom_cb).
  destruct (Hcb 1 _ _ eq_refl) as (bare & Hbare & Hbare_cb).
  destruct (Hcustom_cb (VStr "shoes") (VStr "") queryEmitters_world) as [Hemit _].
  destruct (Hcustom_cb (VStr "") (VStr "shoes") queryEmitters_world) as [_ Hquiet].
  destruct (Hbare_cb (VStr "") (VStr "shoes") queryEmitters_world) as [Hbare_emit _].
  exact (conj Ho (conj Hs (conj Hm (conj Hrun (conj Hcalls
           (ex_intro _ watchers (ex_intro _ custom (ex_intro _ bare
              (conj Ht (conj Hcustom (conj Hbare
                 (conj (Hemit eq_refl) (conj (Hquiet eq_refl) (Hbare_emit eq_refl)))))))))))))).
Defined.


Definition queued_world : World := (requests example_host [nextQueries] example_world).1.
Definition drained_world : World :=
  (install example_host 0 5 (Some example_options) queued_world).1.







Definition currency_update : value :=
  VObj false [("currencyOptions", VObj false [("symbol", VStr "USD")])].

(** The currency symbol updated in the installed configuration. *)
Lemma setConfig_merges_in_place_witness :
  p_xConfig (plugin_at installed_world 0) = Some 10 ∧
  objects installed_world !! 10 = Some (initial_config example_host example_options) ∧
  wf currency_update ∧
  isObject currency_update = true ∧
  get_path (deepMerge (initial_config example_host example_options) currency_update)
    ["currencyOptions"; "symbol"] = Some (VStr "USD") ∧
  get_path (deepMerge (initial_config example_host example_options) currency_update)
    ["consent"]
  = get_path (initial_config example_host example_options) ["consent"].
Proof.
  assert (Hx : p_xConfig (plugin_at installed_world 0) = Some 10) by (vm_compute; reflexivity).
  assert (Hc : objects installed_world !! 10
               = Some (initial_config example_host example_options))
    by (vm_compute; reflexivity).
  assert (Hwf : wf currency_update).
  { simpl. repeat split; try apply NoDup_singleton. }
  assert (Hobj : isObject currency_update = true) by reflexivity.
  destruct (setConfig_merges_in_place 0 currency_update 10 _ installed_world Hx Hc Hwf Hobj)
    as (w1 & _ & _ & _ & _ & Hframe & Hupdate).
  exact (conj Hx (conj Hc (conj Hwf (conj Hobj
           (conj (Hupdate ["currencyOptions"; "symbol"] (VStr "USD")
                    ltac:(discriminate) eq_refl eq_refl)
                 (Hframe ["consent"] eq_refl)))))).
Defined.

Definition moduleRegistered_world : World :=
  (registerStoreModule example_host 0 "nextQueries" 7 installed_world).1.

(** The descriptor of the next-queries store module after its registration. *)
Lemma registerStoreModule_mutates_descriptor_witness :
  p_options (plugin_at installed_world 0) = Some example_options ∧
  (o_xModules example_options ≫= get_field "nextQueries") ≫= xo_storeModule = None ∧
  modules installed_world !! 7 = Some (nextQueriesModule nextQueriesConfig) ∧
  registerStoreModule example_host 0 "nextQueries" 7 installed_world
  = (moduleRegistered_world, Ret tt) ∧
  ∃ sm', modules moduleRegistered_world !! 7 = Some sm' ∧
         sm_namespaced sm' = Some true ∧
         sm_mutations sm' ≫= get_field "setConfig" = Some getDefaultSetConfigMutation.
Proof.
  assert (Ho : p_options (plugin_at installed_world 0) = Some example_options)
    by (vm_compute; reflexivity).
  assert (Hno : (o_xModules example_options ≫= get_field "nextQueries")
                  ≫= xo_storeModule = None) by reflexivity.
  assert (Hm : modules installed_world !! 7 = Some (nextQueriesModule nextQueriesConfig))
    by (vm_compute; reflexivity).
  assert (Hrun : registerStoreModule example_host 0 "nextQueries" 7 installed_world
                 = (moduleRegistered_world, Ret tt)) by (vm_compute; reflexivity).
  destruct (registerStoreModule_mutates_descriptor example_host 0 "nextQueries" 7 _
              example_options installed_world _ Ho Hno Hm Hrun)
    as (sm' & store & Hsm' & _ & Hns & _ & _ & _ & _ & Hset & _).
  exact (conj Ho (conj Hno (conj Hm (conj Hrun
           (ex_intro _ sm' (conj Hsm' (conj Hns
              (Hset nextQueriesConfig eq_refl eq_refl eq_refl)))))))).
Defined.

Definition undefinedConfig_world : World :=
  (registerStoreModule example_host 0 "nextQueries" 9 installed_world).1.

(** A state [{ ..., config: undefined }] has the key; the descriptor is
    marked namespaced and gets no [setConfig]. *)
Lemma registerStoreModule_undefined_config_counterexample :
  (o_xModules example_options ≫= get_field "nextQueries") ≫= xo_storeModule = None ∧
  modules installed_world !! 9 = Some (nextQueriesModule VUndefined) ∧
  has_key "config" (fields_of (read_state (nextQueriesModule VUndefined))) = true ∧
  sm_mutations (nextQueriesModule VUndefined) ≫= get_field "setConfig" = None ∧
  registerStoreModule example_host 0 "nextQueries" 9 installed_world
  = (undefinedConfig_world, Ret tt) ∧
  ((modules undefinedConfig_world !! 9) ≫= sm_namespaced) = Some true ∧
  ((modules undefinedConfig_world !! 9) ≫= sm_mutations) ≫= get_field "setConfig" = None.
Proof. repeat split; vm_compute; reflexivity. Qed.

(** ** The further properties at work on the example *)

(** A function, an object and [null] before the type guards. *)
Lemma type_guards_characterised_witness :
  isFunction (VFun "selector") = true ∧
  isObject VNull = false ∧
  isFunction (VFun "selector") && isObject (VFun "selector") = false.
Proof.
  destruct (type_guards_characterised (VFun "selector")) as (Hf & _ & Hnull & _ & Hex).
  exact (conj (proj2 Hf (ex_intro _ "selector" eq_refl)) (conj Hnull Hex)).
Defined.

(** The installed instance after the static instance is reset. *)
Lemma resetInstance_hides_installed_instance_witness :
  p_isInstalled (plugin_at installed_world 0) = true ∧
  get_bus (with_instance None installed_world)
  = (with_instance None installed_world, Throw MustBeInstalled) ∧
  install example_host 0 6 None (with_instance None installed_world)
  = (with_instance None installed_world, Throw AlreadyInstalled).
Proof.
  assert (Hflag : p_isInstalled (plugin_at installed_world 0) = true)
    by (vm_compute; reflexivity).
  destruct (resetInstance_hides_installed_instance example_host 0 6 None nextQueries
              installed_world Hflag) as (_ & _ & Hbus & _ & _ & Hinstall).
  exact (conj Hflag (conj Hbus Hinstall)).
Defined.

Definition failed_world : World :=
  (install failing_host 0 5 (Some example_options) queued_world).1.

(** The next-queries module is pending when the mixin step throws. *)
Lemma failed_install_keeps_pending_modules_witness :
  install failing_host 0 5 (Some example_options) queued_world
  = (failed_world, Throw (HostError "mixin failed")) ∧
  pendingXModules failed_world = pendingXModules queued_world ∧
  get_field "nextQueries" (pendingXModules failed_world) = Some nextQueries.
Proof.
  assert (Hrun : install failing_host 0 5 (Some example_options) queued_world
                 = (failed_world, Throw (HostError "mixin failed")))
    by (vm_compute; reflexivity).
  destruct (failed_install_keeps_pending_modules failing_host 0 5 (Some example_options)
              queued_world failed_world _ Hrun) as [Hq _].
  assert (Hget : get_field "nextQueries" (pendingXModules failed_world) = Some nextQueries)
    by (rewrite Hq; vm_compute; reflexivity).
  exact (conj Hrun (conj Hq Hget)).
Defined.

Definition second_world : World :=
  (install example_host 1 5 (Some example_options) installed_world).1.

(** A second instance installed after the first one. *)
Lemma second_instance_takes_over_witness :
  instance installed_world = Some 0 ∧
  install example_host 1 5 (Some example_options) installed_world
  = (second_world, Ret tt) ∧
  instance second_world = Some 1 ∧
  p_isInstalled (plugin_at second_world 0) = true.
Proof.
  assert (Hfirst : instance installed_world = Some 0) by (vm_compute; reflexivity).
  assert (Hrun : install example_host 1 5 (Some example_options) installed_world
                 = (second_world, Ret tt)) by (vm_compute; reflexivity).
  destruct (second_instance_takes_over example_host 1 5 (Some example_options)
              installed_world second_world Hrun) as (Hi & _ & Hframe).
  assert (Hflag : p_isInstalled (plugin_at second_world 0) = true)
    by (rewrite (Hframe 0 ltac:(discriminate)); vm_compute; reflexivity).
  exact (conj Hfirst (conj Hrun (conj Hi Hflag))).
Defined.

(** The world in which the steps of the installation of instance 0 start. *)
Definition started_world : World := install_start 0 5 example_options example_world.

(** No store in the options: one is created and injected. *)
Lemma registerStore_reuses_or_creates_store_witness :
  registerStore example_host 0 started_world
  = ((registerStore example_host 0 started_world).1, Ret tt) ∧
  ∃ s,
    p_store (plugin_at (registerStore example_host 0 started_world).1 0) = Some s ∧
    trace (registerStore example_host 0 started_world).1
    = trace started_world ++
      [EVueUse 5; ENewStore s; EInjectStore 5 s;
       ERegisterModule s ["x"] (RootXStoreModule example_host)].
Proof.
  assert (Hrun : registerStore example_host 0 started_world
                 = ((registerStore example_host 0 started_world).1, Ret tt))
    by (vm_compute; reflexivity).
  destruct (registerStore_reuses_or_creates_store example_host 0 started_world _ Hrun)
    as (vue & options & Hv & Ho & Hcase).
  assert (Hv' : p_vue (plugin_at started_world 0) = Some 5) by (vm_compute; reflexivity).
  assert (Ho' : p_options (plugin_at started_world 0) = Some example_options)
    by (vm_compute; reflexivity).
  rewrite Hv' in Hv. injection Hv as <-.
  rewrite Ho' in Ho. injection Ho as <-.
  exact (conj Hrun Hcase).
Defined.

(** The adapter of the example has the hook: it is asked first. *)
Lemma registerConfig_asks_adapter_then_creates_config_witness :
  registerConfig example_host 0 started_world
  = ((registerConfig example_host 0 started_world).1, Ret tt) ∧
  ∃ c,
    p_xConfig (plugin_at (registerConfig example_host 0 started_world).1 0) = Some c ∧
    trace (registerConfig example_host 0 started_world).1
    = trace started_world ++
      [EConfigListener 1; EReactiveConfig (p_bus (plugin_at started_world 0)) c].
Proof.
  assert (Hrun : registerConfig example_host 0 started_world
                 = ((registerConfig example_host 0 started_world).1, Ret tt))
    by (vm_compute; reflexivity).
  destruct (registerConfig_asks_adapter_then_creates_config example_host 0 started_world
              _ Hrun) as (options & a & c & Ho & Ha & Hx & _ & Ht).
  assert (Ho' : p_options (plugin_at started_world 0) = Some example_options)
    by (vm_compute; reflexivity).
  rewrite Ho' in Ho. injection Ho as <-. injection Ha as <-.
  exact (conj Hrun (ex_intro _ c (conj Hx Ht))).
Defined.

(** The calls of the installation of the example, no module being pending. *)
Lemma install_sets_up_before_modules_witness :
  install example_host 0 5 (Some example_options) example_world = (installed_world, Ret tt) ∧
  pendingXModules example_world = [] ∧
  ∃ c s,
    p_xConfig (plugin_at installed_world 0) = Some c ∧
    p_store (plugin_at installed_world 0) = Some s ∧
    trace installed_world
    = [EConfigListener 1; EReactiveConfig 0 c; EVueUse 5; ENewStore s; EInjectStore 5 s;
       ERegisterModule s ["x"] (RootXStoreModule example_host);
       EMixin 5 0 (Some c); EFilter 5 "currency" "currencyFilter"].
Proof.
  assert (Hrun : install example_host 0 5 (Some example_options) example_world
                 = (installed_world, Ret tt)) by (vm_compute; reflexivity).
  destruct (install_sets_up_before_modules example_host 0 5 (Some example_options)
              example_world installed_world Hrun)
    as (opts & a & c & s & t & Ho & Ha & Hx & Hs & Ht & _ & Hnil).
  injection Ho as <-. injection Ha as <-.
  rewrite (Hnil eq_refl) in Ht.
  exact (conj Hrun (conj eq_refl (ex_intro _ c (ex_intro _ s (conj Hx (conj Hs Ht)))))).
Defined.

(** A host whose wires throw. *)
Definition failing_wire_host : Host :=
  {| DEFAULT_X_CONFIG := DEFAULT_X_CONFIG example_host;
     FILTERS_REGISTRY := FILTERS_REGISTRY example_host;
     RootXStoreModule := RootXStoreModule example_host;
     getGettersProxyFromModule := getGettersProxyFromModule example_host;
     fault := fun _ e => match e with
                         | EWire _ _ _ _ _ => Some "wire failed"
                         | _ => None
                         end |}.

Definition halfRegistered_world : World :=
  (registerXModule failing_wire_host 0 nextQueries installed_world).1.

(** The registration of the next-queries module when its wire throws. *)
Lemma failed_registration_is_not_recorded_witness :
  registerXModule failing_wire_host 0 nextQueries installed_world
  = (halfRegistered_world, Throw (HostError "wire failed")) ∧
  (name nextQueries ∉ installed halfRegistered_world 0) ∧
  registered "nextQueries" (trace halfRegistered_world) = 1.
Proof.
  assert (Hrun : registerXModule failing_wire_host 0 nextQueries installed_world
                 = (halfRegistered_world, Throw (HostError "wire failed")))
    by (vm_compute; reflexivity).
  destruct (failed_registration_is_not_recorded failing_wire_host 0 nextQueries
              installed_world halfRegistered_world _ Hrun) as (_ & _ & Hnot & _).
  assert (Hreg : registered "nextQueries" (trace halfRegistered_world) = 1)
    by (vm_compute; reflexivity).
  exact (conj Hrun (conj Hnot Hreg)).
Defined.



Definition fewerItems_state : value :=
  VObj false [("query", VStr ""); ("nextQueries", VObj true []); ("config", fewerItems)].

(** The default mutation on a state whose configuration is [null], an object
    and a number. *)
Lemma default_setConfig_errors_and_frame_witness :
  get_prop (nextQueriesState VNull) "config" = Ret VNull ∧
  getDefaultSetConfigMutation (nextQueriesState VNull) nextQueriesConfig = Throw TypeError ∧
  getDefaultSetConfigMutation (nextQueriesState nextQueriesConfig) fewerItems
  = Ret fewerItems_state ∧
  getDefaultSetConfigMutation (nextQueriesState (VNum 3)) fewerItems
  = Ret (nextQueriesState (VNum 3)).
Proof.
  assert (Hnull : get_prop (nextQueriesState VNull) "config" = Ret VNull) by reflexivity.
  destruct (default_setConfig_errors_and_frame (nextQueriesState VNull) nextQueriesConfig)
    as (Hthrows & _ & _).
  destruct (default_setConfig_errors_and_frame (nextQueriesState (VNum 3)) fewerItems)
    as (_ & _ & Hnumber).
  assert (Hrun : getDefaultSetConfigMutation (nextQueriesState nextQueriesConfig) fewerItems
                 = Ret fewerItems_state) by (vm_compute; reflexivity).
  exact (conj Hnull
           (conj (Hthrows (or_intror (or_intror (or_intror Hnull))))
              (conj Hrun (Hnumber (VNum 3) eq_refl (or_intror (ex_intro _ 3%Z eq_refl)))))).
Defined.

(** The default mutation applied twice with the same configuration. *)
Lemma default_setConfig_idempotent_witness :
  get_prop (nextQueriesState nextQueriesConfig) "config" = Ret nextQueriesConfig ∧
  NoDup (keys (own_props fewerItems)) ∧
  ("__proto__" ∉ keys (own_props fewerItems)) ∧
  getDefaultSetConfigMutation (nextQueriesState nextQueriesConfig) fewerItems
  = Ret fewerItems_state ∧
  getDefaultSetConfigMutation fewerItems_state fewerItems = Ret fewerItems_state.
Proof.
  assert (Hc : get_prop (nextQueriesState nextQueriesConfig) "config" = Ret nextQueriesConfig)
    by reflexivity.
  assert (Hnd : NoDup (keys (own_props fewerItems))) by apply NoDup_singleton.
  assert (Hp : "__proto__" ∉ keys (own_props fewerItems)).
  { apply (proj1 (bool_decide_eq_false ("__proto__" ∈ keys (own_props fewerItems)))).
    vm_compute. reflexivity. }
  assert (Hrun : getDefaultSetConfigMutation (nextQueriesState nextQueriesConfig) fewerItems
                 = Ret fewerItems_state) by (vm_compute; reflexivity).
  destruct (default_setConfig_idempotent _ _ _ _ Hc Hnd Hp Hrun) as [Hagain _].
  exact (conj Hc (conj Hnd (conj Hp (conj Hrun Hagain)))).
Defined.

(** The installation of the example, as a call of a client. *)
Lemma example_reaches_installed : reaches example_host example_world installed_world.
Proof.
  apply (reaches_step example_host (Install 0 5 (Some example_options))
           example_world installed_world (Ret tt) installed_world);
    [vm_compute; reflexivity | apply reaches_refl].
Defined.

(** The bus of instance 0 before and after its installation. *)
Lemma bus_is_fixed_witness :
  reaches example_host example_world installed_world ∧
  p_bus (plugin_at installed_world 0) = p_bus (plugin_at example_world 0).
Proof.
  exact (conj example_reaches_installed
           (bus_is_fixed example_host 0 example_world installed_world
              example_reaches_installed)).
Defined.

(** The installed instance after the static instance is reset. *)
Lemma installation_is_permanent_witness :
  reaches example_host installed_world (with_instance None installed_world) ∧
  p_isInstalled (plugin_at installed_world 0) = true ∧
  p_isInstalled (plugin_at (with_instance None installed_world) 0) = true.
Proof.
  assert (Hreach : reaches example_host installed_world (with_instance None installed_world)).
  { apply (reaches_step example_host ResetInstance installed_world
             (with_instance None installed_world) (Ret tt));
      [reflexivity | apply reaches_refl]. }
  assert (Hflag : p_isInstalled (plugin_at installed_world 0) = true)
    by (vm_compute; reflexivity).
  destruct (installation_is_permanent example_host 0 installed_world
              (with_instance None installed_world) Hreach) as [Hstays _].
  exact (conj Hreach (conj Hflag (Hstays Hflag))).
Defined.

(** The fields of instance 0 once it is installed. *)
Lemma installed_instance_is_initialised_witness :
  complete example_world ∧
  reaches example_host example_world installed_world ∧
  initialised (plugin_at installed_world 0).
Proof.
  assert (Hc : complete example_world) by (intros p Hp; discriminate Hp).
  assert (Hflag : p_isInstalled (plugin_at installed_world 0) = true)
    by (vm_compute; reflexivity).
  destruct (installed_instance_is_initialised example_host example_world installed_world)
    as [_ Hinv].
  exact (conj Hc (conj example_reaches_installed
           (Hinv Hc example_reaches_installed 0 Hflag))).
Defined.

(** The queue after a request made before the installation. *)
Lemma pending_queue_stays_well_formed_witness :
  queue_wf (pendingXModules example_world) ∧
  reaches example_host example_world queued_world ∧
  queue_wf (pendingXModules queued_world).
Proof.
  assert (Hq : queue_wf (pendingXModules example_world)).
  { split; [apply NoDup_nil_2 | intros k x Hin; by apply elem_of_nil in Hin]. }
  assert (Hreach : reaches example_host example_world queued_world).
  { apply (reaches_step example_host (RegisterXModule nextQueries)
             example_world queued_world (Ret tt));
      [vm_compute; reflexivity | apply reaches_refl]. }
  destruct (pending_queue_stays_well_formed example_host example_world queued_world)
    as [_ Hinv].
  exact (conj Hq (conj Hreach (Hinv Hq Hreach))).
Defined.

(** Options that override the state of the next-queries store module. *)
Definition override_storeModule : StoreModuleOptions :=
  {| so_state := Some (VObj false [("query", VStr "shoes")]);
     so_getters := []; so_mutations := []; so_actions := [] |}.

Definition override_xModule : XModuleOptions :=
  {| xo_wiring := None; xo_storeModule := Some override_storeModule;
     xo_storeEmitters := None |}.

Definition override_options : XPluginOptions :=
  {| o_adapter := Some {| adapter_id := 1; addConfigChangedListener := true |};
     o_store := None;
     o_config := None;
     o_xModules := Some [("nextQueries", override_xModule)] |}.

Definition override_world : World :=
  (install example_host 0 5 (Some override_options) example_world).1.

Definition overridden_world : World :=
  (registerStoreModule example_host 0 "nextQueries" 7 override_world).1.

(** The descriptor of the next-queries store module after a registration
    with an override. *)
Lemma store_module_override_spares_descriptor_witness :
  p_options (plugin_at override_world 0) = Some override_options ∧
  modules override_world !! 7 = Some (nextQueriesModule nextQueriesConfig) ∧
  modules override_world !! next override_world = None ∧
  registerStoreModule example_host 0 "nextQueries" 7 override_world
  = (overridden_world, Ret tt) ∧
  ∃ sm0, modules overridden_world !! 7 = Some sm0 ∧ sm_namespaced sm0 = None.
Proof.
  assert (Ho : p_options (plugin_at override_world 0) = Some override_options)
    by (vm_compute; reflexivity).
  assert (Hm : modules override_world !! 7 = Some (nextQueriesModule nextQueriesConfig))
    by (vm_compute; reflexivity).
  assert (Hfresh : modules override_world !! next override_world = None)
    by (vm_compute; reflexivity).
  assert (Hrun : registerStoreModule example_host 0 "nextQueries" 7 override_world
                 = (overridden_world, Ret tt)) by (vm_compute; reflexivity).
  destruct (store_module_override_spares_descriptor example_host 0 "nextQueries" 7 _
              override_options override_xModule override_storeModule override_world
              Ho eq_refl eq_refl Hm Hfresh) as [Hret _].
  destruct (Hret _ Hrun) as [(sm0 & Hsm0 & Hns & _) _].
  exact (conj Ho (conj Hm (conj Hfresh (conj Hrun (ex_intro _ sm0 (conj Hsm0 Hns)))))).
Defined.

(** The wiring of the next-queries module when its wire throws. *)
Lemma wiring_calls_stop_at_failure_witness :
  p_options (plugin_at installed_world 0) = Some example_options ∧
  registerWiring failing_wire_host 0 "nextQueries" (wiring nextQueries) installed_world
  = ((registerWiring failing_wire_host 0 "nextQueries" (wiring nextQueries)
        installed_world).1, Throw (HostError "wire failed")) ∧
  ∃ t,
    (registerWiring failing_wire_host 0 "nextQueries" (wiring nextQueries)
       installed_world).1
    = with_trace (trace installed_world ++ t) installed_world ∧
    t ≠ [].
Proof.
  assert (Ho : p_options (plugin_at installed_world 0) = Some example_options)
    by (vm_compute; reflexivity).
  assert (Hrun : registerWiring failing_wire_host 0 "nextQueries" (wiring nextQueries)
                   installed_world
                 = ((registerWiring failing_wire_host 0 "nextQueries" (wiring nextQueries)
                       installed_world).1, Throw (HostError "wire failed")))
    by (vm_compute; reflexivity).
  destruct (wiring_calls_stop_at_failure failing_wire_host 0 "nextQueries"
              (wiring nextQueries) example_options installed_world _ _ Ho Hrun)
    as (t & Hw & _ & _ & Hthrow).
  destruct (Hthrow _ eq_refl) as [Hne _].
  exact (conj Ho (conj Hrun (ex_intro _ t (conj Hw Hne)))).
Defined.

(** A request made through the class after the installation. *)
Lemma requests_after_install_are_not_queued_witness :
  p_isInstalled (plugin_at example_world 0) = false ∧
  install example_host 0 5 (Some example_options) example_world = (installed_world, Ret tt) ∧
  XPlugin_registerXModule example_host nextQueries installed_world
  = registerXModule example_host 0 nextQueries installed_world.
Proof.
  assert (Hflag : p_isInstalled (plugin_at example_world 0) = false) by reflexivity.
  assert (Hrun : install example_host 0 5 (Some example_options) example_world
                 = (installed_world, Ret tt)) by (vm_compute; reflexivity).
  destruct (requests_after_install_are_not_queued example_host 0 5 example_options
              {| adapter_id := 1; addConfigChangedListener := true |} nextQueries
              example_world installed_world (Ret tt) Hflag eq_refl Hrun) as [Heq _].
  exact (conj Hflag (conj Hrun Heq)).
Defined.

(** The adapter read through the class once instance 0 is installed. *)
Lemma static_adapter_is_never_undefined_witness :
  accepted example_world ∧
  reaches example_host example_world installed_world ∧
  ∃ a, get_adapter installed_world = (installed_world, Ret (Some a)).
Proof.
  assert (Hacc : accepted example_world) by (intros p Hp; discriminate Hp).
  assert (Hi : instance installed_world = Some 0) by (vm_compute; reflexivity).
  destruct (static_adapter_is_never_undefined example_host example_world installed_world)
    as [_ Hinv].
  destruct (Hinv Hacc example_reaches_installed) as [_ [Hthrow | Hret]].
  - exfalso. unfold get_adapter, bind, getInstance in Hthrow. rewrite Hi in Hthrow.
    discriminate Hthrow.
  - exact (conj Hacc (conj example_reaches_installed Hret)).
Defined.

(** The configuration of instance 0 is there for [setConfig]. *)
Lemma configuration_object_exists_witness :
  config_exists example_world ∧
  reaches example_host example_world installed_world ∧
  p_xConfig (plugin_at installed_world 0) = Some 10 ∧
  ∃ current,
    objects installed_world !! 10 = Some current ∧
    setConfig 0 currency_update installed_world
    = (with_objects (<[10 := deepMerge current currency_update]> (objects installed_world))
         installed_world, Ret tt).
Proof.
  assert (HI : config_exists example_world) by (intros p c Hc; discriminate Hc).
  assert (Hx : p_xConfig (plugin_at installed_world 0) = Some 10)
    by (vm_compute; reflexivity).
  destruct (configuration_object_exists example_host example_world installed_world)
    as [_ Hinv].
  destruct (Hinv HI example_reaches_installed) as [_ Hset].
  exact (conj HI (conj example_reaches_installed
           (conj Hx (Hset 0 10 currency_update Hx)))).
Defined.

(** A host that cannot create the reactive configuration. *)
Definition failing_config_host : Host :=
  {| DEFAULT_X_CONFIG := DEFAULT_X_CONFIG example_host;
     FILTERS_REGISTRY := FILTERS_REGISTRY example_host;
     RootXStoreModule := RootXStoreModule example_host;
     getGettersProxyFromModule := getGettersProxyFromModule example_host;
     fault := fun _ e => match e with
                         | EReactiveConfig _ _ => Some "no reactivity"
                         | _ => None
                         end |}.

(** Instance 0 after an installation that failed before the store. *)
Definition storeless_world : World :=
  (install failing_config_host 0 5 (Some example_options) example_world).1.

Definition marked_world : World :=
  (registerStoreModule example_host 0 "nextQueries" 7 storeless_world).1.

(** The next-queries store module registered on the instance without a
    store. *)
Lemma registration_without_store_marks_descriptor_witness :
  p_options (plugin_at storeless_world 0) = Some example_options ∧
  p_store (plugin_at storeless_world 0) = None ∧
  modules storeless_world !! 7 = Some (nextQueriesModule nextQueriesConfig) ∧
  registerStoreModule example_host 0 "nextQueries" 7 storeless_world
  = (marked_world, Throw TypeError) ∧
  (modules marked_world !! 7) ≫= sm_namespaced = Some true ∧
  trace marked_world = trace storeless_world.
Proof.
  assert (Ho : p_options (plugin_at storeless_world 0) = Some example_options)
    by (vm_compute; reflexivity).
  assert (Hs : p_store (plugin_at storeless_world 0) = None) by (vm_compute; reflexivity).
  assert (Hm : modules storeless_world !! 7 = Some (nextQueriesModule nextQueriesConfig))
    by (vm_compute; reflexivity).
  assert (Hrun : registerStoreModule example_host 0 "nextQueries" 7 storeless_world
                 = (marked_world, Throw TypeError)) by (vm_compute; reflexivity).
  destruct (registration_without_store_marks_descriptor example_host 0 "nextQueries" 7 _
              example_options true storeless_world marked_world _
              Ho eq_refl Hs Hm eq_refl Hrun) as (_ & Hmod & Hns & Ht & _).
  assert (Hmark : (modules marked_world !! 7) ≫= sm_namespaced = Some true)
    by exact (eq_trans (f_equal (fun o => o ≫= sm_namespaced) Hmod) Hns).
  exact (conj Ho (conj Hs (conj Hm (conj Hrun (conj Hmark Ht))))).
Defined.

